(** * Temporal normalisation: masked reductions, scalers and the TemporalNorm facade

    A shallow embedding of [nbs/common.scalers.ipynb] (module
    [common._scalers]), in two arithmetics.

    - The first embedding computes on the real numbers extended with one
      not-a-number value: arithmetic on finite entries is exact.  It
      carries what the module does as an algorithm: which entries enter
      a statistic, which guard fires, what the facade stores.  Statements
      proved on it are those that do not change when each operation
      rounds.
    - The second embedding, [F32], computes on IEEE 754 binary32 numbers
      (the [torch.float32] of the notebook), every operation rounded to
      nearest, ties to even, with signed zeros, infinities and NaN.  It
      carries what rounding and overflow do: the error of a round trip,
      and the inputs on which a statement about exact numbers fails.
      [torch.arcsinh] and [torch.sinh] are a parameter of it.
    - A tensor is a shape and a function from indices to entries, of any
      rank; elementwise operations broadcast as torch does, reductions
      run along a dimension counted as Python counts it.
    - A mask entry is a boolean ([True]/1 valid, [False]/0 invalid).
    - The facade is a record threaded through [transform]; a statistic
      that no [transform] has stored is an absent attribute. *)

From Stdlib Require Import SpecFloat.
From Stdlib Require Import String.
From Stdlib Require Import Reals Lra Lia List ZArith Bool.
From Stdlib Require Import Permutation Sorted.
Import ListNotations.
Open Scope R_scope.

(* ================================================================= *)
(** ** Tensor entries *)

Module Float.

(** A tensor entry: a finite number or NaN.  The infinities are not
    modelled: a quotient by zero, which IEEE arithmetic makes an infinity
    or NaN, is [NaN] here, and no later step of the module tells the two
    apart. *)
Inductive float : Type :=
| Fin (r : R)
| NaN.

Definition lift1 (f : R -> R) (a : float) : float :=
  match a with Fin x => Fin (f x) | NaN => NaN end.

Definition lift2 (f : R -> R -> R) (a b : float) : float :=
  match a, b with Fin x, Fin y => Fin (f x y) | _, _ => NaN end.

Definition add := lift2 Rplus.
Definition sub := lift2 Rminus.
Definition mul := lift2 Rmult.

Definition div (a b : float) : float :=
  match a, b with
  | Fin x, Fin y => if Req_dec_T y 0 then NaN else Fin (x / y)
  | _, _ => NaN
  end.

Definition sqrt (a : float) : float :=
  match a with
  | Fin x => if Rlt_dec x 0 then NaN else Fin (R_sqrt.sqrt x)
  | NaN => NaN
  end.

Definition abs := lift1 Rabs.
Definition sq := lift1 (fun x => x ^ 2).
Definition arcsinh := lift1 Rpower.arcsinh.
Definition sinh := lift1 Rtrigo_def.sinh.

(** [a == 0] and [a > 0]; every comparison with NaN is false. *)
Definition eq0 (a : float) : bool :=
  match a with Fin x => if Req_dec_T x 0 then true else false | NaN => false end.

Definition gt0 (a : float) : bool :=
  match a with Fin x => if Rlt_dec 0 x then true else false | NaN => false end.

(** A boolean entry used as a number. *)
Definition of_bool (b : bool) : float := Fin (if b then 1 else 0).

(** The larger and the smaller of two entries; NaN if either is NaN, as
    [torch.max] and [torch.min] propagate it. *)
Definition max (a b : float) : float := lift2 Rmax a b.
Definition min (a b : float) : float := lift2 Rmin a b.

Definition is_finite (a : float) : Prop := exists r, a = Fin r.

(** [torch.nan_to_num(a, nan=v)] on one entry. *)
Definition nan_to_num (v : R) (a : float) : float :=
  match a with Fin x => Fin x | NaN => Fin v end.

End Float.

Import Float.

(* ================================================================= *)
(** ** Reductions of one slice *)

Module Reduce.

(** The entries of a slice that are not NaN, in order. *)
Fixpoint finite_values (l : list float) : list R :=
  match l with
  | [] => []
  | Fin x :: l' => x :: finite_values l'
  | NaN :: l' => finite_values l'
  end.

Fixpoint Rsum (l : list R) : R :=
  match l with [] => 0 | x :: l' => x + Rsum l' end.

(** [nanmean]: the sum of the entries that are not NaN over their number;
    with none left this is 0/0, that is NaN. *)
Definition nanmean (l : list float) : float :=
  let v := finite_values l in
  Float.div (Fin (Rsum v)) (Fin (INR (length v))).

Fixpoint insert (a : R) (l : list R) : list R :=
  match l with
  | [] => [a]
  | b :: l' => if Rle_dec a b then a :: l else b :: insert a l'
  end.

Fixpoint sort (l : list R) : list R :=
  match l with [] => [] | a :: l' => insert a (sort l') end.

(** [nanmedian]: the entry of rank [(n - 1) / 2] (from 0) among the [n]
    entries that are not NaN, in increasing order; NaN when [n = 0]. *)
Definition nanmedian (l : list float) : float :=
  match finite_values l with
  | [] => NaN
  | v => Fin (nth ((length v - 1) / 2) (sort v) 0)
  end.

(** [torch.max(...)[0]] and [torch.min(...)[0]] of one slice.  Torch
    refuses an empty slice; the model yields NaN there. *)
Definition amax (l : list float) : float :=
  match l with [] => NaN | a :: l' => fold_left Float.max l' a end.

Definition amin (l : list float) : float :=
  match l with [] => NaN | a :: l' => fold_left Float.min l' a end.

End Reduce.

Import Reduce.

(* ================================================================= *)
(** ** Tensors *)

Module Tensor.

(** A tensor is a shape and the entry at each index (one coordinate per
    dimension).  Only the entries at indices inside the shape matter. *)
Record tensor (A : Type) : Type := mk_tensor {
  shape : list nat;
  data : list nat -> A
}.
Arguments mk_tensor {A} _ _.
Arguments shape {A} _.
Arguments data {A} _ _.

Definition rank {A} (t : tensor A) : nat := length (shape t).

(** [inb s idx]: [idx] is an index inside the shape [s]. *)
Definition inb (s idx : list nat) : Prop := Forall2 lt idx s.

Definition set_at {A} (d : nat) (a : A) (l : list A) : list A :=
  firstn d l ++ a :: skipn (S d) l.

Definition remove_at {A} (d : nat) (l : list A) : list A :=
  firstn d l ++ skipn (S d) l.

Definition insert_at {A} (d : nat) (a : A) (l : list A) : list A :=
  firstn d l ++ a :: skipn d l.

(** A dimension as Python counts it: a negative one counts from the end. *)
Definition norm_dim (rk : nat) (dim : Z) : nat :=
  Z.to_nat (if (dim <? 0)%Z then dim + Z.of_nat rk else dim)%Z.

Definition tmap {A B} (f : A -> B) (t : tensor A) : tensor B :=
  mk_tensor (shape t) (fun idx => f (data t idx)).

(** Broadcasting: shapes are aligned at the right, and a dimension of
    size 1 is read at coordinate 0 whatever the coordinate asked for. *)
Definition bcoord (ni : nat * nat) : nat :=
  if (fst ni =? 1)%nat then 0%nat else snd ni.

Definition bidx (s idx : list nat) : list nat :=
  map bcoord (combine s (skipn (length idx - length s) idx)).

Definition bdim (ab : nat * nat) : nat :=
  if (fst ab =? 1)%nat then snd ab else fst ab.

Definition pad (n : nat) (s : list nat) : list nat :=
  repeat 1%nat (n - length s) ++ s.

Definition bshape (s1 s2 : list nat) : list nat :=
  let n := Nat.max (length s1) (length s2) in
  map bdim (combine (pad n s1) (pad n s2)).

(** An elementwise operation of two tensors, with broadcasting. *)
Definition tzip {A B C} (f : A -> B -> C) (a : tensor A) (b : tensor B)
  : tensor C :=
  mk_tensor (bshape (shape a) (shape b))
            (fun idx => f (data a (bidx (shape a) idx))
                          (data b (bidx (shape b) idx))).

(** The slice along dimension [d] through the index [idx]. *)
Definition slice {A} (t : tensor A) (d : nat) (idx : list nat) : list A :=
  map (fun k => data t (set_at d k idx)) (seq 0 (nth d (shape t) 0%nat)).

(** A reduction along dimension [d]: with [keepdim] the dimension stays,
    with size 1; without, it is removed. *)
Definition reduce {A B} (f : list A -> B) (t : tensor A) (d : nat)
  (keepdim : bool) : tensor B :=
  mk_tensor (if keepdim then set_at d 1%nat (shape t) else remove_at d (shape t))
            (fun idx => f (slice t d (if keepdim then idx else insert_at d 0%nat idx))).

(** [torch.zeros(shape)], [torch.ones(shape)]. *)
Definition full (s : list nat) (v : float) : tensor float :=
  mk_tensor s (fun _ => v).

(** A one-dimensional tensor from the list of its entries. *)
Definition of_list {A} (dflt : A) (l : list A) : tensor A :=
  mk_tensor [length l] (fun idx => nth (hd 0%nat idx) l dflt).

End Tensor.

Import Tensor.

(* ================================================================= *)
(** ** 1. Auxiliary functions *)

(** [mask<1] and [mask==0] on a boolean mask entry. *)
Definition lt1 (m : bool) : bool := negb m.
Definition is0 (m : bool) : bool := negb m.

(** [x.masked_fill(m, v)]. *)
Definition masked_fill (x : tensor float) (m : tensor bool) (v : float)
  : tensor float :=
  tzip (fun (a : float) (b : bool) => if b then v else a) x m.

Definition masked_median (x : tensor float) (mask : tensor bool) (dim : Z)
  (keepdim : bool) : tensor float :=
  let x_nan := masked_fill x (tmap lt1 mask) NaN in
  let x_median := reduce nanmedian x_nan (norm_dim (rank x_nan) dim) keepdim in
  tmap (nan_to_num 0) x_median.

Definition masked_mean (x : tensor float) (mask : tensor bool) (dim : Z)
  (keepdim : bool) : tensor float :=
  let x_nan := masked_fill x (tmap lt1 mask) NaN in
  let x_mean := reduce nanmean x_nan (norm_dim (rank x_nan) dim) keepdim in
  tmap (nan_to_num 0) x_mean.

(* ================================================================= *)
(** ** 2. Scalers *)

Definition sentinel : R := 1000000000000.

(** [t[t==0] = 1.0] on one entry. *)
Definition zero_to_one (v : float) : float := if eq0 v then Fin 1 else v.

Definition tadd := tzip Float.add.
Definition tsub := tzip Float.sub.
Definition tmul := tzip Float.mul.
Definition tdiv := tzip Float.div.

Definition minmax_scaler (x : tensor float) (mask : tensor bool) (eps : R)
  (dim : Z) : tensor float * tensor float * tensor float :=
  let max_mask := tmap (fun m => Float.mul (of_bool (is0 m)) (Fin (- sentinel))) mask in
  let min_mask := tmap (fun m => Float.mul (of_bool (is0 m)) (Fin sentinel)) mask in
  let xa := tadd x max_mask in
  let xi := tadd x min_mask in
  let x_max := reduce amax xa (norm_dim (rank xa) dim) true in
  let x_min := reduce amin xi (norm_dim (rank xi) dim) true in
  let x_range := tsub x_max x_min in
  let x_range := tmap zero_to_one x_range in
  let x_range := tmap (fun v => Float.add v (Fin eps)) x_range in
  let z := tdiv (tsub x x_min) x_range in
  (z, x_min, x_range).

Definition inv_minmax_scaler (z x_min x_range : tensor float) : tensor float :=
  tadd (tmul z x_range) x_min.

Definition minmax1_scaler (x : tensor float) (mask : tensor bool) (eps : R)
  (dim : Z) : tensor float * tensor float * tensor float :=
  let max_mask := tmap (fun m => Float.mul (of_bool (is0 m)) (Fin (- sentinel))) mask in
  let min_mask := tmap (fun m => Float.mul (of_bool (is0 m)) (Fin sentinel)) mask in
  let xa := tadd x max_mask in
  let xi := tadd x min_mask in
  let x_max := reduce amax xa (norm_dim (rank xa) dim) true in
  let x_min := reduce amin xi (norm_dim (rank xi) dim) true in
  let x_range := tsub x_max x_min in
  let x_range := tmap zero_to_one x_range in
  let x_range := tmap (fun v => Float.add v (Fin eps)) x_range in
  let x' := tdiv (tsub x x_min) x_range in
  let z := tmap (fun v => Float.sub (Float.mul v (Fin 2)) (Fin 1)) x' in
  (z, x_min, x_range).

Definition inv_minmax1_scaler (z x_min x_range : tensor float) : tensor float :=
  let z := tmap (fun v => Float.div (Float.add v (Fin 1)) (Fin 2)) z in
  tadd (tmul z x_range) x_min.

(** The masked standard deviation both [std_scaler] and the robust
    scalers compute: [sqrt(masked_mean((x - x_means)**2))]. *)
Definition masked_std (x : tensor float) (mask : tensor bool) (dim : Z)
  : tensor float :=
  let x_means := masked_mean x mask dim true in
  tmap Float.sqrt (masked_mean (tmap sq (tsub x x_means)) mask dim true).

Definition std_scaler (x : tensor float) (mask : tensor bool) (dim : Z)
  (eps : R) : tensor float * tensor float * tensor float :=
  let x_means := masked_mean x mask dim true in
  let x_stds := tmap Float.sqrt (masked_mean (tmap sq (tsub x x_means)) mask dim true) in
  let x_stds := tmap zero_to_one x_stds in
  let x_stds := tmap (fun v => Float.add v (Fin eps)) x_stds in
  let z := tdiv (tsub x x_means) x_stds in
  (z, x_means, x_stds).

Definition inv_std_scaler (z x_mean x_std : tensor float) : tensor float :=
  tadd (tmul z x_std) x_mean.

Definition mad_ratio : R := 6744897501960817 / 10000000000000000.

(** [x_mad * (x_mad>0) + x_mad_aux * (x_mad==0)] on one entry. *)
Definition mad_or_aux (x_mad x_mad_aux : float) : float :=
  Float.add (Float.mul x_mad (of_bool (gt0 x_mad)))
            (Float.mul x_mad_aux (of_bool (eq0 x_mad))).

(** The first two lines of [robust_scaler] and [invariant_scaler]: the
    scale statistic before any guard. *)
Definition raw_mad (x : tensor float) (mask : tensor bool) (dim : Z)
  : tensor float :=
  let x_median := masked_median x mask dim true in
  masked_median (tmap Float.abs (tsub x x_median)) mask dim true.

Definition robust_scaler (x : tensor float) (mask : tensor bool) (dim : Z)
  (eps : R) : tensor float * tensor float * tensor float :=
  let x_median := masked_median x mask dim true in
  let x_mad := masked_median (tmap Float.abs (tsub x x_median)) mask dim true in
  let x_means := masked_mean x mask dim true in
  let x_stds := tmap Float.sqrt (masked_mean (tmap sq (tsub x x_means)) mask dim true) in
  let x_mad_aux := tmap (fun v => Float.mul v (Fin mad_ratio)) x_stds in
  let x_mad := tzip mad_or_aux x_mad x_mad_aux in
  let x_mad := tmap zero_to_one x_mad in
  let x_mad := tmap (fun v => Float.add v (Fin eps)) x_mad in
  let z := tdiv (tsub x x_median) x_mad in
  (z, x_median, x_mad).

Definition inv_robust_scaler (z x_median x_mad : tensor float) : tensor float :=
  tadd (tmul z x_mad) x_median.

Definition invariant_scaler (x : tensor float) (mask : tensor bool) (dim : Z)
  (eps : R) : tensor float * tensor float * tensor float :=
  let x_median := masked_median x mask dim true in
  let x_mad := masked_median (tmap Float.abs (tsub x x_median)) mask dim true in
  let x_means := masked_mean x mask dim true in
  let x_stds := tmap Float.sqrt (masked_mean (tmap sq (tsub x x_means)) mask dim true) in
  let x_mad_aux := tmap (fun v => Float.mul v (Fin mad_ratio)) x_stds in
  let x_mad := tzip mad_or_aux x_mad x_mad_aux in
  let x_mad := tmap zero_to_one x_mad in
  let x_mad := tmap (fun v => Float.add v (Fin eps)) x_mad in
  let z := tmap Float.arcsinh (tdiv (tsub x x_median) x_mad) in
  (z, x_median, x_mad).

Definition inv_invariant_scaler (z x_median x_mad : tensor float) : tensor float :=
  tadd (tmul (tmap Float.sinh z) x_mad) x_median.

Definition identity_scaler (x : tensor float) (mask : tensor bool) (dim : Z)
  (eps : R) : tensor float * tensor float * tensor float :=
  let shape := set_at (norm_dim (rank x) dim) 1%nat (shape x) in
  let x_shift := full shape (Fin 0) in
  let x_scale := full shape (Fin 1) in
  (x, x_shift, x_scale).

Definition inv_identity_scaler (z x_shift x_scale : tensor float) : tensor float :=
  z.

(* ================================================================= *)
(** ** 3. TemporalNorm module *)

Module TemporalNorm.

(** What a call can fail with: the assertion of the constructor, and the
    read of a statistic no [transform] has stored yet. *)
Inductive error : Type :=
| InvalidConfiguration
| StatePrecondition.

Definition scaler_fn : Type :=
  tensor float -> tensor bool -> Z -> R ->
  tensor float * tensor float * tensor float.

Definition inverse_fn : Type :=
  tensor float -> tensor float -> tensor float -> tensor float.

Definition key_eqb (a b : option string) : bool :=
  match a, b with
  | None, None => true
  | Some s, Some t => String.eqb s t
  | _, _ => false
  end.

Fixpoint lookup {V} (k : option string) (d : list (option string * V))
  : option V :=
  match d with
  | [] => None
  | (k', v) :: d' => if key_eqb k k' then Some v else lookup k d'
  end.

(** The scalers are called by keyword, so the order in which
    [minmax_scaler] declares [eps] and [dim] does not matter. *)
Definition scalers : list (option string * scaler_fn) :=
  [ (None, identity_scaler);
    (Some "identity"%string, identity_scaler);
    (Some "standard"%string, std_scaler);
    (Some "robust"%string, robust_scaler);
    (Some "minmax"%string, fun x mask dim eps => minmax_scaler x mask eps dim);
    (Some "minmax1"%string, fun x mask dim eps => minmax1_scaler x mask eps dim);
    (Some "invariant"%string, invariant_scaler) ].

Definition inverse_scalers : list (option string * inverse_fn) :=
  [ (None, inv_identity_scaler);
    (Some "identity"%string, inv_identity_scaler);
    (Some "standard"%string, inv_std_scaler);
    (Some "robust"%string, inv_robust_scaler);
    (Some "minmax"%string, inv_minmax_scaler);
    (Some "minmax1"%string, inv_minmax1_scaler);
    (Some "invariant"%string, inv_invariant_scaler) ].

(** The instance.  [x_shift] and [x_scale] are attributes that exist only
    once [transform] has run: [None] is the absent attribute. *)
Record t : Type := mk {
  scaler : scaler_fn;
  inverse_scaler : inverse_fn;
  scaler_type : option string;
  dim : Z;
  eps : R;
  x_shift : option (tensor float);
  x_scale : option (tensor float)
}.

Definition init (scaler_type : option string) (dim : Z) (eps : R)
  : error + t :=
  match lookup scaler_type scalers, lookup scaler_type inverse_scalers with
  | Some f, Some g => inr (mk f g scaler_type dim eps None None)
  | _, _ => inl InvalidConfiguration
  end.

(** [transform] returns [z] and the instance with the statistics stored. *)
Definition transform (self : t) (x : tensor float) (mask : tensor bool)
  : tensor float * t :=
  let '(z, shift, scale) := scaler self x mask (dim self) (eps self) in
  (z, mk (scaler self) (inverse_scaler self) (scaler_type self) (dim self)
         (eps self) (Some shift) (Some scale)).

(** [inverse_transform(z, x_shift=None, x_scale=None)]: an argument left
    out is [None]. *)
Definition inverse_transform (self : t) (z : tensor float)
  (shift scale : option (tensor float)) : error + tensor float :=
  let shift' := match shift with Some s => Some s | None => x_shift self end in
  match shift' with
  | None => inl StatePrecondition
  | Some sh =>
    let scale' := match scale with Some s => Some s | None => x_scale self end in
    match scale' with
    | None => inl StatePrecondition
    | Some sc => inr (inverse_scaler self z sh sc)
    end
  end.

End TemporalNorm.

(** The three components of what a scaler returns. *)
Definition z_of {T} (r : T * T * T) : T := fst (fst r).
Definition shift_of {T} (r : T * T * T) : T := snd (fst r).
Definition scale_of {T} (r : T * T * T) : T := snd r.

(* ================================================================= *)
(** ** The module in binary32 arithmetic *)

Module F32.

(** IEEE 754 binary32: 24 bits of precision, exponents below 128.  The
    operations are those of the Standard Library's specification of
    floating-point arithmetic, rounding to nearest with ties to even. *)
Definition prec : Z := 24.
Definition emax : Z := 128.

Definition f32 : Type := spec_float.

Definition nan : f32 := S754_nan.
Definition zero : f32 := S754_zero false.

(** An integer as a binary32 number (rounded when it has more than 24
    significant bits), and the binary32 number nearest to a ratio
    [n / d], which is how a decimal literal such as [1e-6] arrives. *)
Definition of_Z (n : Z) : f32 := binary_normalize prec emax n 0 false.

Definition of_ratio (n : Z) (d : positive) : f32 :=
  match n with
  | Z0 => zero
  | Zpos p =>
    let '(m, e, l) := SFdiv_core_binary prec emax (Zpos p) 0 (Zpos d) 0 in
    binary_round_aux prec emax false m e l
  | Zneg p =>
    let '(m, e, l) := SFdiv_core_binary prec emax (Zpos p) 0 (Zpos d) 0 in
    binary_round_aux prec emax true m e l
  end.

Definition one : f32 := of_Z 1.
Definition two : f32 := of_Z 2.

Definition add : f32 -> f32 -> f32 := SFadd prec emax.
Definition sub : f32 -> f32 -> f32 := SFsub prec emax.
Definition mul : f32 -> f32 -> f32 := SFmul prec emax.
Definition div : f32 -> f32 -> f32 := SFdiv prec emax.
Definition sqrt : f32 -> f32 := SFsqrt prec emax.
Definition abs : f32 -> f32 := SFabs.

(** [a ** 2], which torch computes as [a * a]. *)
Definition sq (a : f32) : f32 := mul a a.

Definition is_nan (a : f32) : bool :=
  match a with S754_nan => true | _ => false end.

(** A number: neither NaN nor an infinity. *)
Definition is_finite (a : f32) : bool :=
  match a with S754_zero _ | S754_finite _ _ _ => true | _ => false end.

(** [a == 0] (true of both zeros) and [a > 0]. *)
Definition eq0 (a : f32) : bool := SFeqb a zero.
Definition gt0 (a : f32) : bool := SFltb zero a.

Definition of_bool (b : bool) : f32 := if b then one else zero.

(** The larger and the smaller of two entries; NaN if either is NaN. *)
Definition max (a b : f32) : f32 :=
  match SFcompare a b with
  | None => nan
  | Some Lt => b
  | Some _ => a
  end.

Definition min (a b : f32) : f32 :=
  match SFcompare a b with
  | None => nan
  | Some Gt => b
  | Some _ => a
  end.

Definition max_float : f32 := SFmax_float prec emax.

(** [torch.nan_to_num(a, nan=0.0)]: NaN becomes 0 and, as no other
    replacement is given, an infinity becomes the largest number of its
    sign. *)
Definition nan_to_num (a : f32) : f32 :=
  match a with
  | S754_nan => zero
  | S754_infinity false => max_float
  | S754_infinity true => SFopp max_float
  | _ => a
  end.

(** [nansum]: NaN counts as 0; the sum runs through the slice in order.
    (Torch may add in another order; the statements below that involve a
    sum take slices on which the order does not matter.) *)
Definition nansum (l : list f32) : f32 :=
  fold_left add (map (fun v => if is_nan v then zero else v) l) zero.

Definition count (l : list f32) : Z :=
  Z.of_nat (length (filter (fun v => negb (is_nan v)) l)).

(** [nanmean]: [nansum] over the number of entries that are not NaN. *)
Definition nanmean (l : list f32) : f32 := div (nansum l) (of_Z (count l)).

Fixpoint insert (a : f32) (l : list f32) : list f32 :=
  match l with
  | [] => [a]
  | b :: l' => if SFleb a b then a :: l else b :: insert a l'
  end.

Fixpoint sort (l : list f32) : list f32 :=
  match l with [] => [] | a :: l' => insert a (sort l') end.

(** [nanmedian]: the entry of rank [(n - 1) / 2] among the [n] entries
    that are not NaN. *)
Definition nanmedian (l : list f32) : f32 :=
  match filter (fun v => negb (is_nan v)) l with
  | [] => nan
  | v => nth ((length v - 1) / 2) (sort v) nan
  end.

Definition amax (l : list f32) : f32 :=
  match l with [] => nan | a :: l' => fold_left max l' a end.

Definition amin (l : list f32) : f32 :=
  match l with [] => nan | a :: l' => fold_left min l' a end.

(** *** 1. Auxiliary functions *)

Definition masked_fill (x : tensor f32) (m : tensor bool) (v : f32)
  : tensor f32 :=
  tzip (fun (a : f32) (b : bool) => if b then v else a) x m.

(** [x.float()] is the identity on a binary32 tensor. *)
Definition masked_median (x : tensor f32) (mask : tensor bool) (dim : Z)
  (keepdim : bool) : tensor f32 :=
  let x_nan := masked_fill x (tmap lt1 mask) nan in
  let x_median := reduce nanmedian x_nan (norm_dim (rank x_nan) dim) keepdim in
  tmap nan_to_num x_median.

Definition masked_mean (x : tensor f32) (mask : tensor bool) (dim : Z)
  (keepdim : bool) : tensor f32 :=
  let x_nan := masked_fill x (tmap lt1 mask) nan in
  let x_mean := reduce nanmean x_nan (norm_dim (rank x_nan) dim) keepdim in
  tmap nan_to_num x_mean.

(** *** 2. Scalers *)

(** [1e12] and [-1e12] as binary32 numbers (999999995904 in magnitude). *)
Definition sentinel : f32 := of_Z (10 ^ 12).
Definition neg_sentinel : f32 := of_Z (- 10 ^ 12).

Definition zero_to_one (v : f32) : f32 := if eq0 v then one else v.

Definition tadd := tzip add.
Definition tsub := tzip sub.
Definition tmul := tzip mul.
Definition tdiv := tzip div.

Definition minmax_scaler (x : tensor f32) (mask : tensor bool) (eps : f32)
  (dim : Z) : tensor f32 * tensor f32 * tensor f32 :=
  let max_mask := tmap (fun m => mul (of_bool (is0 m)) neg_sentinel) mask in
  let min_mask := tmap (fun m => mul (of_bool (is0 m)) sentinel) mask in
  let xa := tadd x max_mask in
  let xi := tadd x min_mask in
  let x_max := reduce amax xa (norm_dim (rank xa) dim) true in
  let x_min := reduce amin xi (norm_dim (rank xi) dim) true in
  let x_range := tsub x_max x_min in
  let x_range := tmap zero_to_one x_range in
  let x_range := tmap (fun v => add v eps) x_range in
  let z := tdiv (tsub x x_min) x_range in
  (z, x_min, x_range).

Definition inv_minmax_scaler (z x_min x_range : tensor f32) : tensor f32 :=
  tadd (tmul z x_range) x_min.

Definition minmax1_scaler (x : tensor f32) (mask : tensor bool) (eps : f32)
  (dim : Z) : tensor f32 * tensor f32 * tensor f32 :=
  let max_mask := tmap (fun m => mul (of_bool (is0 m)) neg_sentinel) mask in
  let min_mask := tmap (fun m => mul (of_bool (is0 m)) sentinel) mask in
  let xa := tadd x max_mask in
  let xi := tadd x min_mask in
  let x_max := reduce amax xa (norm_dim (rank xa) dim) true in
  let x_min := reduce amin xi (norm_dim (rank xi) dim) true in
  let x_range := tsub x_max x_min in
  let x_range := tmap zero_to_one x_range in
  let x_range := tmap (fun v => add v eps) x_range in
  let x' := tdiv (tsub x x_min) x_range in
  let z := tmap (fun v => sub (mul v two) one) x' in
  (z, x_min, x_range).

Definition inv_minmax1_scaler (z x_min x_range : tensor f32) : tensor f32 :=
  let z := tmap (fun v => div (add v one) two) z in
  tadd (tmul z x_range) x_min.

Definition std_scaler (x : tensor f32) (mask : tensor bool) (dim : Z)
  (eps : f32) : tensor f32 * tensor f32 * tensor f32 :=
  let x_means := masked_mean x mask dim true in
  let x_stds := tmap sqrt (masked_mean (tmap sq (tsub x x_means)) mask dim true) in
  let x_stds := tmap zero_to_one x_stds in
  let x_stds := tmap (fun v => add v eps) x_stds in
  let z := tdiv (tsub x x_means) x_stds in
  (z, x_means, x_stds).

Definition inv_std_scaler (z x_mean x_std : tensor f32) : tensor f32 :=
  tadd (tmul z x_std) x_mean.

(** [0.6744897501960817] as a binary32 number. *)
Definition mad_ratio : f32 := of_ratio 6744897501960817 10000000000000000.

Definition mad_or_aux (x_mad x_mad_aux : f32) : f32 :=
  add (mul x_mad (of_bool (gt0 x_mad))) (mul x_mad_aux (of_bool (eq0 x_mad))).

Definition robust_scaler (x : tensor f32) (mask : tensor bool) (dim : Z)
  (eps : f32) : tensor f32 * tensor f32 * tensor f32 :=
  let x_median := masked_median x mask dim true in
  let x_mad := masked_median (tmap abs (tsub x x_median)) mask dim true in
  let x_means := masked_mean x mask dim true in
  let x_stds := tmap sqrt (masked_mean (tmap sq (tsub x x_means)) mask dim true) in
  let x_mad_aux := tmap (fun v => mul v mad_ratio) x_stds in
  let x_mad := tzip mad_or_aux x_mad x_mad_aux in
  let x_mad := tmap zero_to_one x_mad in
  let x_mad := tmap (fun v => add v eps) x_mad in
  let z := tdiv (tsub x x_median) x_mad in
  (z, x_median, x_mad).

Definition inv_robust_scaler (z x_median x_mad : tensor f32) : tensor f32 :=
  tadd (tmul z x_mad) x_median.

(** [torch.arcsinh] and [torch.sinh] on binary32 tensors: library
    routines, whose rounding no standard fixes, so that binary32
    arithmetic alone does not say what they return.  They are a
    parameter of what calls them: whatever two functions the library
    provides. *)
Record library : Type := {
  arcsinh : f32 -> f32;
  sinh : f32 -> f32
}.

Definition invariant_scaler (lib : library) (x : tensor f32)
  (mask : tensor bool) (dim : Z) (eps : f32)
  : tensor f32 * tensor f32 * tensor f32 :=
  let x_median := masked_median x mask dim true in
  let x_mad := masked_median (tmap abs (tsub x x_median)) mask dim true in
  let x_means := masked_mean x mask dim true in
  let x_stds := tmap sqrt (masked_mean (tmap sq (tsub x x_means)) mask dim true) in
  let x_mad_aux := tmap (fun v => mul v mad_ratio) x_stds in
  let x_mad := tzip mad_or_aux x_mad x_mad_aux in
  let x_mad := tmap zero_to_one x_mad in
  let x_mad := tmap (fun v => add v eps) x_mad in
  let z := tmap (arcsinh lib) (tdiv (tsub x x_median) x_mad) in
  (z, x_median, x_mad).

Definition inv_invariant_scaler (lib : library) (z x_median x_mad : tensor f32)
  : tensor f32 :=
  tadd (tmul (tmap (sinh lib) z) x_mad) x_median.

Definition identity_scaler (x : tensor f32) (mask : tensor bool) (dim : Z)
  (eps : f32) : tensor f32 * tensor f32 * tensor f32 :=
  let shape := set_at (norm_dim (rank x) dim) 1%nat (shape x) in
  let x_shift := mk_tensor shape (fun _ => zero) in
  let x_scale := mk_tensor shape (fun _ => one) in
  (x, x_shift, x_scale).

Definition inv_identity_scaler (z x_shift x_scale : tensor f32) : tensor f32 :=
  z.

(** *** 3. TemporalNorm module *)

(** The facade, on binary32 tensors; the tables take the library that
    [invariant_scaler] and its inverse call. *)
Module TemporalNorm.

Inductive error : Type :=
| InvalidConfiguration
| StatePrecondition.

Definition scaler_fn : Type :=
  tensor f32 -> tensor bool -> Z -> f32 ->
  tensor f32 * tensor f32 * tensor f32.

Definition inverse_fn : Type :=
  tensor f32 -> tensor f32 -> tensor f32 -> tensor f32.

Fixpoint lookup {V} (k : option string) (d : list (option string * V))
  : option V :=
  match d with
  | [] => None
  | (k', v) :: d' =>
    if match k, k' with
       | None, None => true
       | Some s, Some t => String.eqb s t
       | _, _ => false
       end
    then Some v else lookup k d'
  end.

Definition scalers (lib : library) : list (option string * scaler_fn) :=
  [ (None, identity_scaler);
    (Some "identity"%string, identity_scaler);
    (Some "standard"%string, std_scaler);
    (Some "robust"%string, robust_scaler);
    (Some "minmax"%string, fun x mask dim eps => minmax_scaler x mask eps dim);
    (Some "minmax1"%string, fun x mask dim eps => minmax1_scaler x mask eps dim);
    (Some "invariant"%string, invariant_scaler lib) ].

Definition inverse_scalers (lib : library)
  : list (option string * inverse_fn) :=
  [ (None, inv_identity_scaler);
    (Some "identity"%string, inv_identity_scaler);
    (Some "standard"%string, inv_std_scaler);
    (Some "robust"%string, inv_robust_scaler);
    (Some "minmax"%string, inv_minmax_scaler);
    (Some "minmax1"%string, inv_minmax1_scaler);
    (Some "invariant"%string, inv_invariant_scaler lib) ].

Record t : Type := mk {
  scaler : scaler_fn;
  inverse_scaler : inverse_fn;
  scaler_type : option string;
  dim : Z;
  eps : f32;
  x_shift : option (tensor f32);
  x_scale : option (tensor f32)
}.

Definition init (lib : library) (scaler_type : option string) (dim : Z)
  (eps : f32) : error + t :=
  match lookup scaler_type (scalers lib),
        lookup scaler_type (inverse_scalers lib) with
  | Some f, Some g => inr (mk f g scaler_type dim eps None None)
  | _, _ => inl InvalidConfiguration
  end.

Definition transform (self : t) (x : tensor f32) (mask : tensor bool)
  : tensor f32 * t :=
  let '(z, shift, scale) := scaler self x mask (dim self) (eps self) in
  (z, mk (scaler self) (inverse_scaler self) (scaler_type self) (dim self)
         (eps self) (Some shift) (Some scale)).

Definition inverse_transform (self : t) (z : tensor f32)
  (shift scale : option (tensor f32)) : error + tensor f32 :=
  let shift' := match shift with Some s => Some s | None => x_shift self end in
  match shift' with
  | None => inl StatePrecondition
  | Some sh =>
    let scale' := match scale with Some s => Some s | None => x_scale self end in
    match scale' with
    | None => inl StatePrecondition
    | Some sc => inr (inverse_scaler self z sh sc)
    end
  end.

End TemporalNorm.

(** *** Binary32 numbers as real numbers *)















(** Small tensors the statements are tried on. *)
Definition vec (l : list f32) : tensor f32 := of_list nan l.

(** A library for the calls that never reach it. *)
Definition unused_library : library :=
  {| arcsinh := fun v => v; sinh := fun v => v |}.

End F32.

(* ================================================================= *)
(** ** Vocabulary of the statements *)

(** The entries of a slice at the positions the mask marks valid. *)
Fixpoint select {A} (xs : list A) (ms : list bool) : list A :=
  match xs, ms with
  | x :: xs', m :: ms' => if m then x :: select xs' ms' else select xs' ms'
  | _, _ => []
  end.

Fixpoint zip_with {A B C} (f : A -> B -> C) (l1 : list A) (l2 : list B)
  : list C :=
  match l1, l2 with
  | a :: l1', b :: l2' => f a b :: zip_with f l1' l2'
  | _, _ => []
  end.

(** The two reductions on the valid entries of one slice. *)
Definition mean1 (vs : list float) : float := nan_to_num 0 (nanmean vs).
Definition median1 (vs : list float) : float := nan_to_num 0 (nanmedian vs).

(** The statistics of one slice, as functions of its valid entries [vs]
    (for the min-max scalers: of all its entries [xs] and their mask
    [ms], because the sentinel is added to the invalid ones). *)
Definition std1 (vs : list float) : float :=
  Float.sqrt (mean1 (map (fun v => sq (Float.sub v (mean1 vs))) vs)).

Definition mad1 (vs : list float) : float :=
  median1 (map (fun v => Float.abs (Float.sub v (median1 vs))) vs).

Definition guard (eps : R) (v : float) : float :=
  Float.add (zero_to_one v) (Fin eps).

Definition robust_scale1 (vs : list float) (eps : R) : float :=
  guard eps (mad_or_aux (mad1 vs) (Float.mul (std1 vs) (Fin mad_ratio))).

Definition push (c : R) (m : bool) : float :=
  Float.mul (of_bool (is0 m)) (Fin c).

Definition max1 (xs : list float) (ms : list bool) : float :=
  amax (zip_with Float.add xs (map (push (- sentinel)) ms)).

Definition min1 (xs : list float) (ms : list bool) : float :=
  amin (zip_with Float.add xs (map (push sentinel) ms)).

Definition range1 (xs : list float) (ms : list bool) (eps : R) : float :=
  guard eps (Float.sub (max1 xs ms) (min1 xs ms)).

(** The mean, the median, the standard deviation and the median absolute
    deviation of a list of reals, with the value the masked reductions
    give an empty list (0). *)
Definition rmean (rs : list R) : R :=
  match rs with [] => 0 | _ => Rsum rs / INR (length rs) end.

Definition rmedian (rs : list R) : R :=
  match rs with [] => 0 | _ => nth ((length rs - 1) / 2) (sort rs) 0 end.

Definition rstd (rs : list R) : R :=
  R_sqrt.sqrt (rmean (map (fun r => (r - rmean rs) ^ 2) rs)).

Definition rmad (rs : list R) : R :=
  rmedian (map (fun r => Rabs (r - rmedian rs)) rs).

(** The guard of every dividing scaler: a zero becomes 1, then [eps] is
    added. *)
Definition rguard (eps r : R) : R := (if Req_dec_T r 0 then 1 else r) + eps.

(** The robust scale before the guard: the median absolute deviation, or
    the rescaled standard deviation where that is zero. *)
Definition rmad_or_aux (m a : R) : R := if Req_dec_T m 0 then a else m.

Definition rmaxl (l : list R) : R :=
  match l with [] => 0 | q :: l' => fold_left Rmax l' q end.

Definition rminl (l : list R) : R :=
  match l with [] => 0 | q :: l' => fold_left Rmin l' q end.

(** The entries of a slice after [x + (mask==0) * c]. *)
Definition pushed (c : R) (rs : list R) (ms : list bool) : list R :=
  zip_with (fun r m => r + (if is0 m then 1 else 0) * c) rs ms.

(** Every entry of [x] inside its shape is a finite number. *)
Definition finite (x : tensor float) : Prop :=
  forall idx, inb (shape x) idx -> is_finite (data x idx).

(** [dim] names a dimension of a tensor of shape [s], counted from the
    front or, when negative, from the end. *)
Definition dim_ok (s : list nat) (dim : Z) : Prop :=
  (- Z.of_nat (length s) <= dim < Z.of_nat (length s))%Z.

(** The slice of [mask] along [d] through [j] has a valid entry. *)
Definition has_valid (mask : tensor bool) (d : nat) (j : list nat) : Prop :=
  In true (slice mask d j).

(** The mask is not all-invalid along [d]: every slice has a valid entry. *)
Definition mask_ok (mask : tensor bool) (d : nat) : Prop :=
  forall j, inb (set_at d 1%nat (shape mask)) j -> has_valid mask d j.

(** The valid entries of the slice of [x] along [d] through [j]. *)
Definition valid_entries (x : tensor float) (mask : tensor bool) (d : nat)
  (j : list nat) : list float :=
  select (slice x d j) (slice mask d j).

(** Small tensors the statements are tried on. *)
Definition vec (l : list R) : tensor float := of_list NaN (map Fin l).
Definition bvec (l : list bool) : tensor bool := of_list false l.

(** A scale entry that is a number above 0 and at least [eps]. *)
Definition positive_scale (eps : R) (t : tensor float) (j : list nat) : Prop :=
  exists c, data t j = Fin c /\ 0 < c /\ eps <= c.

(** The names the constructor accepts. *)
Definition scaler_types : list (option string) :=
  [ None; Some "identity"%string; Some "standard"%string;
    Some "robust"%string; Some "minmax"%string; Some "minmax1"%string;
    Some "invariant"%string ].


(** [x] and [x'] hold the same entry wherever the mask is valid. *)
Definition agree_on_valid (x x' : tensor float) (mask : tensor bool) : Prop :=
  forall idx, inb (shape x) idx -> data mask idx = true ->
              data x idx = data x' idx.

(** Two results of a scaler with the same statistics, and the same output
    at every valid position. *)
Definition masked_invariant (r r' : tensor float * tensor float * tensor float)
  (mask : tensor bool) (s : list nat) (d : nat) : Prop :=
  shape (shift_of r) = shape (shift_of r')
  /\ shape (scale_of r) = shape (scale_of r')
  /\ (forall j, inb (set_at d 1%nat s) j ->
        data (shift_of r) j = data (shift_of r') j
        /\ data (scale_of r) j = data (scale_of r') j)
  /\ (forall idx, inb s idx -> data mask idx = true ->
        data (z_of r) idx = data (z_of r') idx).

(** Every entry of [x], valid or not, is a number of magnitude at most
    [b]. *)
Definition within (b : R) (x : tensor float) : Prop :=
  forall idx, inb (shape x) idx ->
              exists r, data x idx = Fin r /\ Rabs r <= b.

(** Every entry of [x], valid or not, is a number of magnitude at most
    half the sentinel. *)
Definition small (x : tensor float) : Prop :=
  forall idx, inb (shape x) idx ->
              exists r, data x idx = Fin r /\ Rabs r <= sentinel / 2.

(** The batch of the notebook: [x[b, t, c] = t * 10^c], plus 100 in the
    first batch entry, of shape [2, 36, 2]; the last 12 of the 36 time
    steps are masked out. *)
Definition np_x : tensor float :=
  mk_tensor [2; 36; 2]%nat
    (fun idx => match idx with
                | [b; t; c] =>
                  Fin (INR t * 10 ^ c + (if (b =? 0)%nat then 100 else 0))
                | _ => NaN
                end).

Definition np_mask : tensor bool :=
  mk_tensor [2; 36; 2]%nat
    (fun idx => match idx with
                | [b; t; c] => (t <? 24)%nat
                | _ => false
                end).

(** What every scaler returns: [z] of the shape of [x], the statistics of
    that shape with dimension [d] collapsed to size 1. *)
Definition shape_contract (r : tensor float * tensor float * tensor float)
  (s : list nat) (d : nat) : Prop :=
  shape (z_of r) = s
  /\ shape (shift_of r) = set_at d 1%nat s
  /\ shape (scale_of r) = set_at d 1%nat s.

(** Two results of a scaler that agree in shape and at every index. *)
Definition same_result (r r' : tensor float * tensor float * tensor float)
  (s : list nat) (d : nat) : Prop :=
  shape (z_of r) = shape (z_of r')
  /\ shape (shift_of r) = shape (shift_of r')
  /\ shape (scale_of r) = shape (scale_of r')
  /\ (forall j, inb (set_at d 1%nat s) j ->
        data (shift_of r) j = data (shift_of r') j
        /\ data (scale_of r) j = data (scale_of r') j)
  /\ (forall idx, inb s idx -> data (z_of r) idx = data (z_of r') idx).

(** Where the entries of [z] at [i1] and [i2] are numbers, they are in
    the order of the numbers [a] and [b]: [a <= b] gives [za <= zb]. *)
Definition ordered_at (z : tensor float) (i1 i2 : list nat) (a b : R) : Prop :=
  forall za zb, data z i1 = Fin za -> data z i2 = Fin zb -> a <= b -> za <= zb.

(* ================================================================= *)
(** ** Indices, broadcasting and slices *)

Section TensorFacts.

#[local] Arguments set_at : simpl never.

Lemma inb_length s idx : inb s idx -> length idx = length s.
Proof. apply Forall2_length. Qed.

Lemma set_at_0 {A} (a x : A) l : set_at 0 a (x :: l) = a :: l.
Proof. reflexivity. Qed.

Lemma set_at_S {A} d (a x : A) l : set_at (S d) a (x :: l) = x :: set_at d a l.
Proof. reflexivity. Qed.

Lemma set_at_length {A} d (a : A) l :
  (d < length l)%nat -> length (set_at d a l) = length l.
Proof.
  revert d; induction l as [|x l IH]; intros [|d] H; cbn in *; try lia.
  - reflexivity.
  - rewrite set_at_S; cbn. rewrite IH; lia.
Qed.

Lemma set_at_twice {A} d (a b : A) l :
  (d < length l)%nat -> set_at d a (set_at d b l) = set_at d a l.
Proof.
  revert d; induction l as [|x l IH]; intros [|d] H; cbn in *; try lia.
  - reflexivity.
  - rewrite !set_at_S. f_equal. apply IH; lia.
Qed.

Lemma set_at_nth {A} d (dflt : A) l :
  (d < length l)%nat -> set_at d (nth d l dflt) l = l.
Proof.
  revert d; induction l as [|x l IH]; intros [|d] H; cbn in *; try lia.
  - reflexivity.
  - rewrite set_at_S. f_equal. apply IH; lia.
Qed.

Lemma inb_nth s idx d :
  inb s idx -> (d < length s)%nat -> (nth d idx 0 < nth d s 0)%nat.
Proof.
  unfold inb; intros H; revert d.
  induction H as [|i n idx s Hi H IH]; intros [|d] Hd; cbn in *; try lia.
  apply IH; lia.
Qed.

Lemma inb_stat s idx d :
  inb s idx -> (d < length s)%nat ->
  inb (set_at d 1%nat s) (set_at d 0%nat idx).
Proof.
  unfold inb; intros H; revert d.
  induction H as [|i n idx s Hi H IH]; intros [|d] Hd; cbn in *; try lia.
  - rewrite !set_at_0. constructor; [lia | exact H].
  - rewrite !set_at_S. constructor; [exact Hi | apply IH; lia].
Qed.

Lemma bidx_same_length s idx :
  length idx = length s -> bidx s idx = map bcoord (combine s idx).
Proof.
  intros H; unfold bidx. rewrite H, Nat.sub_diag. reflexivity.
Qed.

Lemma bidx_inb s idx : inb s idx -> bidx s idx = idx.
Proof.
  intros H. rewrite bidx_same_length by (apply inb_length; exact H).
  induction H as [|i n idx s Hi H IH]; cbn; [reflexivity|].
  rewrite IH. f_equal. unfold bcoord; cbn.
  destruct (Nat.eqb_spec n 1); lia.
Qed.

Lemma bidx_stat s idx d :
  inb s idx -> (d < length s)%nat ->
  bidx (set_at d 1%nat s) idx = set_at d 0%nat idx.
Proof.
  intros H Hd.
  rewrite bidx_same_length
    by (rewrite set_at_length by exact Hd; apply inb_length; exact H).
  revert d Hd.
  induction H as [|i n idx s Hi H IH]; intros [|d] Hd; cbn in *; try lia.
  - rewrite !set_at_0; cbn. f_equal.
    fold (bidx s idx).
    rewrite <- (bidx_same_length s idx) by (apply (Forall2_length H)).
    apply bidx_inb; exact H.
  - rewrite !set_at_S; cbn. rewrite IH by lia. f_equal.
    unfold bcoord; cbn. destruct (Nat.eqb_spec n 1); lia.
Qed.

Lemma bshape_same s : bshape s s = s.
Proof.
  unfold bshape, pad. rewrite Nat.max_id, Nat.sub_diag; cbn.
  induction s as [|n s IH]; cbn; [reflexivity|].
  rewrite IH. f_equal. unfold bdim; cbn. destruct (n =? 1)%nat; reflexivity.
Qed.

Lemma bshape_stat s d :
  (d < length s)%nat -> bshape s (set_at d 1%nat s) = s.
Proof.
  intros Hd. unfold bshape, pad.
  rewrite set_at_length by exact Hd.
  rewrite Nat.max_id, Nat.sub_diag; cbn.
  revert d Hd; induction s as [|n s IH]; intros [|d] Hd; cbn in *; try lia.
  - rewrite set_at_0; cbn. f_equal.
    + unfold bdim; cbn. destruct (Nat.eqb_spec n 1); lia.
    + generalize (bshape_same s). unfold bshape, pad.
      rewrite Nat.max_id, Nat.sub_diag; cbn. auto.
  - rewrite set_at_S; cbn. rewrite IH by lia. f_equal.
    unfold bdim; cbn. destruct (n =? 1)%nat; reflexivity.
Qed.

Lemma inb_unstat s j d k :
  inb (set_at d 1%nat s) j -> (d < length s)%nat -> (k < nth d s 0)%nat ->
  inb s (set_at d k j).
Proof.
  unfold inb. revert j d.
  induction s as [|n s IH]; intros j [|d] H Hd Hk; cbn in *; try lia.
  - rewrite set_at_0 in H. inversion H; subst.
    rewrite set_at_0. constructor; assumption.
  - rewrite set_at_S in H. inversion H; subst.
    rewrite set_at_S. constructor; [assumption | apply IH; [assumption | lia | assumption]].
Qed.

Lemma stat_fix s j d :
  inb (set_at d 1%nat s) j -> (d < length s)%nat -> set_at d 0%nat j = j.
Proof.
  unfold inb. revert j d.
  induction s as [|n s IH]; intros j [|d] H Hd; cbn in *; try lia.
  - rewrite set_at_0 in H. inversion H; subst.
    rewrite set_at_0. f_equal. lia.
  - rewrite set_at_S in H. inversion H; subst.
    rewrite set_at_S. f_equal. apply IH; [assumption | lia].
Qed.

Lemma inb_stat_length s j d :
  inb (set_at d 1%nat s) j -> (d < length s)%nat -> length j = length s.
Proof.
  intros H Hd. rewrite (inb_length _ _ H). apply set_at_length, Hd.
Qed.

Lemma norm_dim_lt rk dim :
  (- Z.of_nat rk <= dim < Z.of_nat rk)%Z -> (norm_dim rk dim < rk)%nat.
Proof.
  intros H. unfold norm_dim. destruct (Z.ltb_spec dim 0); lia.
Qed.

End TensorFacts.

Section SliceFacts.

#[local] Arguments set_at : simpl never.

Context {A B C : Type}.

Lemma zip_with_map (f : A -> B -> C) {I} (g : I -> A) (h : I -> B) l :
  map (fun k => f (g k) (h k)) l = zip_with f (map g l) (map h l).
Proof. induction l; cbn; [reflexivity | f_equal; assumption]. Qed.

Lemma select_map (g : A -> B) xs ms :
  select (map g xs) ms = map g (select xs ms).
Proof.
  revert ms; induction xs as [|x xs IH]; intros [|[] ms]; cbn;
    try reflexivity; rewrite IH; reflexivity.
Qed.

Lemma select_In (xs : list A) ms v : In v (select xs ms) -> In v xs.
Proof.
  revert ms; induction xs as [|x xs IH]; intros [|[] ms]; cbn; try tauto.
  - intros [H | H]; [left; exact H | right; eapply IH; exact H].
  - intros H; right; eapply IH; exact H.
Qed.

Lemma slice_tmap (f : A -> B) (t : tensor A) d idx :
  slice (tmap f t) d idx = map f (slice t d idx).
Proof. unfold slice; cbn. rewrite map_map. reflexivity. Qed.

Lemma tzip_at (f : A -> B -> C) a b s idx :
  shape a = s -> shape b = s -> inb s idx ->
  data (tzip f a b) idx = f (data a idx) (data b idx).
Proof.
  intros Ha Hb Hi. cbn. rewrite Ha, Hb, bidx_inb by exact Hi. reflexivity.
Qed.

Lemma tzip_stat_at (f : A -> B -> C) a b s d idx :
  shape a = s -> shape b = set_at d 1%nat s -> (d < length s)%nat ->
  inb s idx ->
  data (tzip f a b) idx = f (data a idx) (data b (set_at d 0%nat idx)).
Proof.
  intros Ha Hb Hd Hi. cbn.
  rewrite Ha, Hb, bidx_inb, bidx_stat by assumption. reflexivity.
Qed.

Lemma shape_tzip_same (f : A -> B -> C) a b s :
  shape a = s -> shape b = s -> shape (tzip f a b) = s.
Proof. intros Ha Hb. cbn. rewrite Ha, Hb. apply bshape_same. Qed.

Lemma shape_tzip_stat (f : A -> B -> C) a b s d :
  shape a = s -> shape b = set_at d 1%nat s -> (d < length s)%nat ->
  shape (tzip f a b) = s.
Proof. intros Ha Hb Hd. cbn. rewrite Ha, Hb. apply bshape_stat, Hd. Qed.

Lemma slice_tzip (f : A -> B -> C) a b s d j :
  shape a = s -> shape b = s -> inb (set_at d 1%nat s) j ->
  (d < length s)%nat ->
  slice (tzip f a b) d j = zip_with f (slice a d j) (slice b d j).
Proof.
  intros Ha Hb Hj Hd. unfold slice.
  rewrite (shape_tzip_same f a b s Ha Hb), Ha, Hb.
  rewrite <- zip_with_map. apply map_ext_in.
  intros k Hk. apply in_seq in Hk.
  assert (Hk' : inb s (set_at d k j)) by (apply inb_unstat; [assumption .. | lia]).
  apply (tzip_at f a b s); assumption.
Qed.

Lemma slice_tzip_stat (f : A -> B -> C) a b s d j :
  shape a = s -> shape b = set_at d 1%nat s -> (d < length s)%nat ->
  inb (set_at d 1%nat s) j ->
  slice (tzip f a b) d j = map (fun v => f v (data b j)) (slice a d j).
Proof.
  intros Ha Hb Hd Hj. unfold slice.
  rewrite (shape_tzip_stat f a b s d Ha Hb Hd), Ha.
  rewrite map_map. apply map_ext_in.
  intros k Hk. apply in_seq in Hk.
  assert (Hk' : inb s (set_at d k j)) by (apply inb_unstat; [assumption .. | lia]).
  rewrite (tzip_stat_at f a b s d) by assumption.
  rewrite set_at_twice by (rewrite (inb_stat_length s j d Hj Hd); exact Hd).
  rewrite (stat_fix s j d Hj Hd). reflexivity.
Qed.

End SliceFacts.

(* ================================================================= *)
(** ** The masked reductions, slice by slice *)

Lemma finite_values_fill xs ms :
  finite_values
    (zip_with (fun (a : float) (b : bool) => if b then NaN else a) xs (map lt1 ms))
  = finite_values (select xs ms).
Proof.
  revert ms; induction xs as [|a xs IH]; intros [|[] ms]; cbn;
    try reflexivity.
  - destruct a; cbn; rewrite IH; reflexivity.
  - apply IH.
Qed.

Lemma nanmean_ext l l' :
  finite_values l = finite_values l' -> nanmean l = nanmean l'.
Proof. unfold nanmean. intros ->. reflexivity. Qed.

Lemma nanmedian_ext l l' :
  finite_values l = finite_values l' -> nanmedian l = nanmedian l'.
Proof. unfold nanmedian. intros ->. reflexivity. Qed.

Section MaskedAt.

#[local] Arguments set_at : simpl never.

(** [j] is an index of the reduced tensor: the slice of [x] through it is
    what the reduction reads. *)
Variables (x : tensor float) (mask : tensor bool).
Variables (s : list nat) (dim : Z) (d : nat) (j : list nat).
Hypothesis Hx : shape x = s.
Hypothesis Hm : shape mask = s.
Hypothesis Hd : d = norm_dim (length s) dim.
Hypothesis Hlt : (d < length s)%nat.
Hypothesis Hj : inb (set_at d 1%nat s) j.

Lemma masked_fill_shape : shape (masked_fill x (tmap lt1 mask) NaN) = s.
Proof. apply shape_tzip_same; [exact Hx | exact Hm]. Qed.

Lemma masked_fill_slice :
  finite_values (slice (masked_fill x (tmap lt1 mask) NaN) d j)
  = finite_values (select (slice x d j) (slice mask d j)).
Proof.
  unfold masked_fill.
  rewrite (slice_tzip _ x (tmap lt1 mask) s) by assumption.
  rewrite slice_tmap. apply finite_values_fill.
Qed.

Lemma masked_mean_shape keepdim :
  shape (masked_mean x mask dim keepdim)
  = if keepdim then set_at d 1%nat s else remove_at d s.
Proof.
  unfold masked_mean, rank. cbn [tmap reduce shape].
  rewrite masked_fill_shape, <- Hd. reflexivity.
Qed.

Lemma masked_median_shape keepdim :
  shape (masked_median x mask dim keepdim)
  = if keepdim then set_at d 1%nat s else remove_at d s.
Proof.
  unfold masked_median, rank. cbn [tmap reduce shape].
  rewrite masked_fill_shape, <- Hd. reflexivity.
Qed.

Lemma masked_mean_at :
  data (masked_mean x mask dim true) j
  = mean1 (select (slice x d j) (slice mask d j)).
Proof.
  unfold masked_mean, rank. rewrite masked_fill_shape, <- Hd.
  cbn [tmap reduce data].
  unfold mean1. f_equal. apply nanmean_ext, masked_fill_slice.
Qed.

Lemma masked_median_at :
  data (masked_median x mask dim true) j
  = median1 (select (slice x d j) (slice mask d j)).
Proof.
  unfold masked_median, rank. rewrite masked_fill_shape, <- Hd.
  cbn [tmap reduce data].
  unfold median1. f_equal. apply nanmedian_ext, masked_fill_slice.
Qed.

Lemma masked_mean_drop i :
  data (masked_mean x mask dim false) i
  = data (masked_mean x mask dim true) (insert_at d 0%nat i).
Proof.
  unfold masked_mean, rank. rewrite masked_fill_shape, <- Hd. reflexivity.
Qed.

Lemma masked_median_drop i :
  data (masked_median x mask dim false) i
  = data (masked_median x mask dim true) (insert_at d 0%nat i).
Proof.
  unfold masked_median, rank. rewrite masked_fill_shape, <- Hd. reflexivity.
Qed.

End MaskedAt.

(* ================================================================= *)
(** ** The scalers, slice by slice *)

Section ScalerAt.

#[local] Arguments set_at : simpl never.

Variables (x : tensor float) (mask : tensor bool).
Variables (s : list nat) (dim : Z) (d : nat) (j : list nat) (eps : R).
Hypothesis Hx : shape x = s.
Hypothesis Hm : shape mask = s.
Hypothesis Hd : d = norm_dim (length s) dim.
Hypothesis Hlt : (d < length s)%nat.
Hypothesis Hj : inb (set_at d 1%nat s) j.

Let xs := slice x d j.
Let ms := slice mask d j.
Let vs := select xs ms.

Lemma centred_shape (c : tensor float) :
  shape c = set_at d 1%nat s -> shape (tsub x c) = s.
Proof. intros Hc. apply (shape_tzip_stat _ x c s d); assumption. Qed.

Lemma centred_slice (g : float -> float) (c : tensor float) :
  shape c = set_at d 1%nat s ->
  select (slice (tmap g (tsub x c)) d j) ms
  = map (fun v => g (Float.sub v (data c j))) vs.
Proof.
  intros Hc. rewrite slice_tmap. unfold tsub.
  rewrite (slice_tzip_stat _ x c s d) by assumption.
  rewrite map_map. apply select_map.
Qed.

Lemma masked_std_shape : shape (masked_std x mask dim) = set_at d 1%nat s.
Proof.
  unfold masked_std. cbn [tmap shape].
  apply (masked_mean_shape _ mask s dim d) with (keepdim := true);
    [|exact Hm|exact Hd].
  cbn [tmap shape]. apply centred_shape.
  apply (masked_mean_shape x mask s dim d Hx Hm Hd true).
Qed.

Lemma masked_std_at : data (masked_std x mask dim) j = std1 vs.
Proof.
  unfold masked_std. cbn [tmap data].
  rewrite (masked_mean_at _ mask s dim d j); try assumption.
  - unfold std1. do 2 f_equal. fold ms.
    rewrite centred_slice
      by (apply (masked_mean_shape x mask s dim d Hx Hm Hd true)).
    rewrite (masked_mean_at x mask s dim d j) by assumption.
    reflexivity.
  - cbn [tmap shape]. apply centred_shape.
    apply (masked_mean_shape x mask s dim d Hx Hm Hd true).
Qed.

Lemma raw_mad_shape : shape (raw_mad x mask dim) = set_at d 1%nat s.
Proof.
  unfold raw_mad.
  apply (masked_median_shape _ mask s dim d) with (keepdim := true);
    [|exact Hm|exact Hd].
  cbn [tmap shape]. apply centred_shape.
  apply (masked_median_shape x mask s dim d Hx Hm Hd true).
Qed.

Lemma raw_mad_at : data (raw_mad x mask dim) j = mad1 vs.
Proof.
  unfold raw_mad.
  rewrite (masked_median_at _ mask s dim d j); try assumption.
  - unfold mad1. f_equal. fold ms.
    rewrite centred_slice
      by (apply (masked_median_shape x mask s dim d Hx Hm Hd true)).
    rewrite (masked_median_at x mask s dim d j) by assumption.
    reflexivity.
  - cbn [tmap shape]. apply centred_shape.
    apply (masked_median_shape x mask s dim d Hx Hm Hd true).
Qed.

Lemma ratio_shape (shift scale : tensor float) :
  shape shift = set_at d 1%nat s -> shape scale = set_at d 1%nat s ->
  shape (tdiv (tsub x shift) scale) = s.
Proof.
  intros H1 H2. apply (shape_tzip_stat _ _ scale s d); try assumption.
  apply centred_shape, H1.
Qed.

(** The entry of [z] at position [k] of the slice through [j]. *)
Lemma ratio_at (shift scale : tensor float) k :
  shape shift = set_at d 1%nat s -> shape scale = set_at d 1%nat s ->
  (k < nth d s 0)%nat ->
  data (tdiv (tsub x shift) scale) (set_at d k j)
  = Float.div (Float.sub (data x (set_at d k j)) (data shift j)) (data scale j).
Proof.
  intros H1 H2 Hk. unfold tdiv.
  assert (Hk' : inb s (set_at d k j)) by (apply inb_unstat; assumption).
  assert (E : set_at d 0%nat (set_at d k j) = j).
  { rewrite set_at_twice by (rewrite (inb_stat_length s j d Hj Hlt); exact Hlt).
    apply (stat_fix s j d Hj Hlt). }
  rewrite (tzip_stat_at _ _ scale s d); try assumption.
  - unfold tsub. rewrite (tzip_stat_at _ x shift s d) by assumption.
    rewrite E. reflexivity.
  - apply centred_shape, H1.
Qed.

(** *** standard *)

Lemma std_scaler_shapes :
  let r := std_scaler x mask dim eps in
  shape (z_of r) = s /\ shape (shift_of r) = set_at d 1%nat s
  /\ shape (scale_of r) = set_at d 1%nat s.
Proof.
  cbn zeta.
  assert (H1 : shape (masked_mean x mask dim true) = set_at d 1%nat s)
    by apply (masked_mean_shape x mask s dim d Hx Hm Hd true).
  assert (H2 : shape (scale_of (std_scaler x mask dim eps)) = set_at d 1%nat s)
    by (change (shape (masked_std x mask dim) = set_at d 1%nat s);
        apply masked_std_shape).
  split; [|split]; try assumption.
  apply ratio_shape; assumption.
Qed.

Lemma std_scaler_shift_at :
  data (shift_of (std_scaler x mask dim eps)) j = mean1 vs.
Proof. apply (masked_mean_at x mask s dim d j); assumption. Qed.

Lemma std_scaler_scale_at :
  data (scale_of (std_scaler x mask dim eps)) j = guard eps (std1 vs).
Proof.
  change (guard eps (data (masked_std x mask dim) j) = guard eps (std1 vs)).
  rewrite masked_std_at. reflexivity.
Qed.

Lemma std_scaler_z_at k :
  (k < nth d s 0)%nat ->
  data (z_of (std_scaler x mask dim eps)) (set_at d k j)
  = Float.div (Float.sub (data x (set_at d k j)) (mean1 vs)) (guard eps (std1 vs)).
Proof.
  intros Hk. rewrite <- std_scaler_shift_at, <- std_scaler_scale_at.
  apply ratio_at; [apply std_scaler_shapes .. | exact Hk].
Qed.

(** *** robust and invariant *)

Lemma robust_scaler_shapes :
  let r := robust_scaler x mask dim eps in
  shape (z_of r) = s /\ shape (shift_of r) = set_at d 1%nat s
  /\ shape (scale_of r) = set_at d 1%nat s.
Proof.
  cbn zeta.
  assert (H1 : shape (masked_median x mask dim true) = set_at d 1%nat s)
    by apply (masked_median_shape x mask s dim d Hx Hm Hd true).
  assert (H2 : shape (scale_of (robust_scaler x mask dim eps)) = set_at d 1%nat s).
  { change (shape (tzip mad_or_aux (raw_mad x mask dim)
              (tmap (fun v => Float.mul v (Fin mad_ratio)) (masked_std x mask dim)))
            = set_at d 1%nat s).
    apply shape_tzip_same; [apply raw_mad_shape | apply masked_std_shape]. }
  split; [|split]; try assumption.
  apply ratio_shape; assumption.
Qed.

Lemma robust_scaler_shift_at :
  data (shift_of (robust_scaler x mask dim eps)) j = median1 vs.
Proof. apply (masked_median_at x mask s dim d j); assumption. Qed.

Lemma robust_scaler_scale_at :
  data (scale_of (robust_scaler x mask dim eps)) j = robust_scale1 vs eps.
Proof.
  change (guard eps (data (tzip mad_or_aux (raw_mad x mask dim)
              (tmap (fun v => Float.mul v (Fin mad_ratio)) (masked_std x mask dim)))
            j) = robust_scale1 vs eps).
  rewrite (tzip_at _ _ _ (set_at d 1%nat s));
    [| apply raw_mad_shape | apply masked_std_shape | exact Hj].
  cbn [tmap data]. rewrite raw_mad_at, masked_std_at. reflexivity.
Qed.

Lemma robust_scaler_z_at k :
  (k < nth d s 0)%nat ->
  data (z_of (robust_scaler x mask dim eps)) (set_at d k j)
  = Float.div (Float.sub (data x (set_at d k j)) (median1 vs))
              (robust_scale1 vs eps).
Proof.
  intros Hk. rewrite <- robust_scaler_shift_at, <- robust_scaler_scale_at.
  apply ratio_at; [apply robust_scaler_shapes .. | exact Hk].
Qed.

(** *** minmax and minmax1 *)

Lemma pushed_slice (c : R) :
  slice (tadd x (tmap (fun m => Float.mul (of_bool (is0 m)) (Fin c)) mask)) d j
  = zip_with Float.add xs (map (push c) ms).
Proof.
  unfold tadd. rewrite (slice_tzip _ x _ s) by assumption.
  rewrite slice_tmap. reflexivity.
Qed.

Lemma pushed_shape (c : R) :
  shape (tadd x (tmap (fun m => Float.mul (of_bool (is0 m)) (Fin c)) mask)) = s.
Proof. apply shape_tzip_same; assumption. Qed.

Lemma minmax_scaler_shapes :
  let r := minmax_scaler x mask eps dim in
  shape (z_of r) = s /\ shape (shift_of r) = set_at d 1%nat s
  /\ shape (scale_of r) = set_at d 1%nat s.
Proof.
  cbn zeta.
  assert (H1 : shape (shift_of (minmax_scaler x mask eps dim)) = set_at d 1%nat s).
  { unfold minmax_scaler, shift_of, rank. cbn [fst snd reduce shape].
    rewrite !pushed_shape, <- Hd. reflexivity. }
  assert (H2 : shape (scale_of (minmax_scaler x mask eps dim)) = set_at d 1%nat s).
  { unfold minmax_scaler, scale_of, rank, tsub. cbn [fst snd tmap shape].
    apply shape_tzip_same; cbn [reduce shape];
      rewrite !pushed_shape, <- Hd; reflexivity. }
  split; [|split]; try assumption.
  apply ratio_shape; assumption.
Qed.

Lemma minmax_scaler_shift_at :
  data (shift_of (minmax_scaler x mask eps dim)) j = min1 xs ms.
Proof.
  unfold minmax_scaler, shift_of, rank. cbn [fst snd].
  rewrite !pushed_shape, <- Hd. cbn [reduce data].
  rewrite pushed_slice. reflexivity.
Qed.

Lemma minmax_scaler_scale_at :
  data (scale_of (minmax_scaler x mask eps dim)) j = range1 xs ms eps.
Proof.
  unfold minmax_scaler, scale_of, rank, tsub. cbn [fst snd tmap data].
  rewrite !pushed_shape, <- Hd.
  rewrite (tzip_at _ _ _ (set_at d 1%nat s));
    [| cbn [reduce shape]; rewrite pushed_shape; reflexivity ..
     | exact Hj ].
  cbn [reduce data].
  rewrite !pushed_slice. reflexivity.
Qed.

Lemma minmax_scaler_z_at k :
  (k < nth d s 0)%nat ->
  data (z_of (minmax_scaler x mask eps dim)) (set_at d k j)
  = Float.div (Float.sub (data x (set_at d k j)) (min1 xs ms))
              (range1 xs ms eps).
Proof.
  intros Hk. rewrite <- minmax_scaler_shift_at, <- minmax_scaler_scale_at.
  apply ratio_at; [apply minmax_scaler_shapes .. | exact Hk].
Qed.

End ScalerAt.

(** [invariant_scaler] and [minmax1_scaler] compute the statistics of
    [robust_scaler] and [minmax_scaler] and differ in [z] only. *)
Lemma invariant_scaler_stats x mask dim eps :
  shift_of (invariant_scaler x mask dim eps) = shift_of (robust_scaler x mask dim eps)
  /\ scale_of (invariant_scaler x mask dim eps) = scale_of (robust_scaler x mask dim eps)
  /\ z_of (invariant_scaler x mask dim eps)
     = tmap Float.arcsinh (z_of (robust_scaler x mask dim eps)).
Proof. repeat split. Qed.

Lemma minmax1_scaler_stats x mask eps dim :
  shift_of (minmax1_scaler x mask eps dim) = shift_of (minmax_scaler x mask eps dim)
  /\ scale_of (minmax1_scaler x mask eps dim) = scale_of (minmax_scaler x mask eps dim)
  /\ z_of (minmax1_scaler x mask eps dim)
     = tmap (fun v => Float.sub (Float.mul v (Fin 2)) (Fin 1))
            (z_of (minmax_scaler x mask eps dim)).
Proof. repeat split. Qed.

(* ================================================================= *)
(** ** The statistics of a slice as real numbers *)

Section RealStats.

Lemma finite_values_Fin rs : finite_values (map Fin rs) = rs.
Proof. induction rs; cbn; [reflexivity | f_equal; assumption]. Qed.

Lemma all_finite_Fin vs :
  Forall is_finite vs -> vs = map Fin (finite_values vs).
Proof.
  induction 1 as [|v vs [r ->] _ IH]; cbn; [reflexivity|].
  f_equal. exact IH.
Qed.

Lemma finite_values_map (f : float -> float) (g : R -> R) vs :
  (forall r, f (Fin r) = Fin (g r)) -> f NaN = NaN ->
  finite_values (map f vs) = map g (finite_values vs).
Proof.
  intros Hf Hn.
  induction vs as [|[r|] vs IH]; cbn; [reflexivity | |].
  - rewrite Hf; cbn. f_equal. exact IH.
  - rewrite Hn; cbn. exact IH.
Qed.

Lemma INR_length_cons {A} (a : A) l : INR (length (a :: l)) <> 0.
Proof. apply not_0_INR. cbn. lia. Qed.

Lemma mean1_real vs : mean1 vs = Fin (rmean (finite_values vs)).
Proof.
  unfold mean1, nanmean, rmean.
  destruct (finite_values vs) as [|r rs]; cbn [length Float.div].
  - destruct (Req_dec_T (INR 0) 0) as [_|H]; [reflexivity|].
    exfalso; apply H; reflexivity.
  - destruct (Req_dec_T (INR (S (length rs))) 0) as [H|_]; [|reflexivity].
    exfalso; exact (INR_length_cons r rs H).
Qed.

Lemma median1_real vs : median1 vs = Fin (rmedian (finite_values vs)).
Proof.
  unfold median1, nanmedian, rmedian.
  destruct (finite_values vs); reflexivity.
Qed.

Lemma Rsum_nonneg rs : Forall (fun r => 0 <= r) rs -> 0 <= Rsum rs.
Proof. induction 1; cbn; lra. Qed.

Lemma rmean_nonneg rs : Forall (fun r => 0 <= r) rs -> 0 <= rmean rs.
Proof.
  intros H. unfold rmean. destruct rs as [|r rs]; [lra|].
  apply Rmult_le_pos; [apply Rsum_nonneg, H|].
  apply Rlt_le, Rinv_0_lt_compat, lt_0_INR. cbn; lia.
Qed.

Lemma squares_nonneg (m : R) rs :
  Forall (fun r => 0 <= r) (map (fun r => (r - m) ^ 2) rs).
Proof.
  apply Forall_forall. intros y Hy. apply in_map_iff in Hy.
  destruct Hy as [r [<- _]]. apply pow2_ge_0.
Qed.

Lemma abs_nonneg (m : R) rs :
  Forall (fun r => 0 <= r) (map (fun r => Rabs (r - m)) rs).
Proof.
  apply Forall_forall. intros y Hy. apply in_map_iff in Hy.
  destruct Hy as [r [<- _]]. apply Rabs_pos.
Qed.

Lemma insert_perm a l : Permutation (insert a l) (a :: l).
Proof.
  induction l as [|b l IH]; cbn; [reflexivity|].
  destruct (Rle_dec a b); [reflexivity|].
  rewrite IH. apply perm_swap.
Qed.

Lemma sort_perm l : Permutation (sort l) l.
Proof.
  induction l as [|a l IH]; cbn; [reflexivity|].
  rewrite insert_perm. constructor. exact IH.
Qed.

Lemma sort_length l : length (sort l) = length l.
Proof. apply Permutation_length, sort_perm. Qed.

Lemma insert_sorted a l : Sorted Rle l -> Sorted Rle (insert a l).
Proof.
  induction 1 as [|b l Hs IH Hb]; cbn.
  - repeat constructor.
  - destruct (Rle_dec a b) as [Hab|Hab].
    + constructor; [constructor; assumption | constructor; exact Hab].
    + constructor; [exact IH|].
      assert (Hba : b <= a) by lra.
      destruct l as [|c l]; cbn.
      * constructor; exact Hba.
      * destruct (Rle_dec a c); constructor; [exact Hba|].
        inversion Hb; assumption.
Qed.

Lemma sort_sorted l : Sorted Rle (sort l).
Proof.
  induction l as [|a l IH]; cbn; [constructor | apply insert_sorted, IH].
Qed.

Lemma rmedian_In rs : rs <> [] -> In (rmedian rs) rs.
Proof.
  intros Hne. unfold rmedian. destruct rs as [|r rs]; [contradiction|].
  apply (Permutation_in _ (sort_perm (r :: rs))).
  apply nth_In. rewrite sort_length. cbn [length].
  assert ((S (length rs) - 1) / 2 <= S (length rs) - 1)%nat
    by (apply Nat.Div0.div_le_upper_bound; lia).
  lia.
Qed.

Lemma rmedian_nonneg rs : Forall (fun r => 0 <= r) rs -> 0 <= rmedian rs.
Proof.
  intros H. destruct rs as [|r rs]; [cbn; lra|].
  rewrite Forall_forall in H. apply H, rmedian_In. discriminate.
Qed.

Lemma rstd_nonneg rs : 0 <= rstd rs.
Proof. apply sqrt_pos. Qed.

Lemma rmad_nonneg rs : 0 <= rmad rs.
Proof. apply rmedian_nonneg, abs_nonneg. Qed.

Lemma std1_real vs : std1 vs = Fin (rstd (finite_values vs)).
Proof.
  unfold std1. rewrite (mean1_real vs), mean1_real.
  rewrite (finite_values_map _ (fun r => (r - rmean (finite_values vs)) ^ 2))
    by reflexivity.
  cbn [Float.sqrt].
  destruct (Rlt_dec _ 0) as [H|_]; [|reflexivity].
  exfalso. pose proof (rmean_nonneg _ (squares_nonneg (rmean (finite_values vs))
                                        (finite_values vs))). lra.
Qed.

Lemma mad1_real vs : mad1 vs = Fin (rmad (finite_values vs)).
Proof.
  unfold mad1. rewrite (median1_real vs), median1_real.
  rewrite (finite_values_map _ (fun r => Rabs (r - rmedian (finite_values vs))))
    by reflexivity.
  reflexivity.
Qed.

Lemma guard_real eps r : guard eps (Fin r) = Fin (rguard eps r).
Proof.
  unfold guard, zero_to_one, rguard; cbn.
  destruct (Req_dec_T r 0); reflexivity.
Qed.

Lemma rguard_pos eps r : 0 <= r -> eps < rguard eps r.
Proof. intros H. unfold rguard. destruct (Req_dec_T r 0); lra. Qed.

Lemma rguard_zero eps : rguard eps 0 = 1 + eps.
Proof. unfold rguard. destruct (Req_dec_T 0 0); [reflexivity | contradiction]. Qed.

Lemma rguard_nonzero eps r : r <> 0 -> rguard eps r = r + eps.
Proof. intros H. unfold rguard. destruct (Req_dec_T r 0); [contradiction | reflexivity]. Qed.

Lemma mad_or_aux_real m a :
  0 <= m -> mad_or_aux (Fin m) (Fin a) = Fin (rmad_or_aux m a).
Proof.
  intros Hm. unfold mad_or_aux, rmad_or_aux; cbn.
  destruct (Rlt_dec 0 m), (Req_dec_T m 0); f_equal; lra.
Qed.

Lemma mad_ratio_pos : 0 < mad_ratio.
Proof. unfold mad_ratio. lra. Qed.

Lemma robust_scale1_real vs eps :
  robust_scale1 vs eps
  = Fin (rguard eps (rmad_or_aux (rmad (finite_values vs))
                                 (rstd (finite_values vs) * mad_ratio))).
Proof.
  unfold robust_scale1. rewrite mad1_real, std1_real. cbn [Float.mul lift2].
  rewrite mad_or_aux_real by apply rmad_nonneg.
  apply guard_real.
Qed.

Lemma rmad_or_aux_nonneg vs :
  0 <= rmad_or_aux (rmad vs) (rstd vs * mad_ratio).
Proof.
  unfold rmad_or_aux. destruct (Req_dec_T _ 0).
  - apply Rmult_le_pos; [apply rstd_nonneg | apply Rlt_le, mad_ratio_pos].
  - apply rmad_nonneg.
Qed.

End RealStats.

(* ================================================================= *)
(** ** Extrema of a slice with the sentinel *)

Section Extrema.

Lemma fold_max_ge l q : q <= fold_left Rmax l q.
Proof.
  revert q; induction l as [|a l IH]; intros q; cbn; [lra|].
  eapply Rle_trans; [apply (Rmax_l q a) | apply IH].
Qed.

Lemma fold_max_ub l q y : In y l -> y <= fold_left Rmax l q.
Proof.
  revert q; induction l as [|a l IH]; intros q; cbn; [tauto|].
  intros [-> | H]; [|apply IH, H].
  eapply Rle_trans; [apply (Rmax_r q y) | apply fold_max_ge].
Qed.

Lemma fold_max_In l q : fold_left Rmax l q = q \/ In (fold_left Rmax l q) l.
Proof.
  revert q; induction l as [|a l IH]; intros q; cbn; [left; reflexivity|].
  destruct (IH (Rmax q a)) as [H | H]; [|right; right; exact H].
  rewrite H. unfold Rmax. destruct (Rle_dec q a); [right; left|left]; reflexivity.
Qed.

Lemma fold_min_le l q : fold_left Rmin l q <= q.
Proof.
  revert q; induction l as [|a l IH]; intros q; cbn; [lra|].
  eapply Rle_trans; [apply IH | apply Rmin_l].
Qed.

Lemma fold_min_lb l q y : In y l -> fold_left Rmin l q <= y.
Proof.
  revert q; induction l as [|a l IH]; intros q; cbn; [tauto|].
  intros [-> | H]; [|apply IH, H].
  eapply Rle_trans; [apply fold_min_le | apply Rmin_r].
Qed.

Lemma fold_min_In l q : fold_left Rmin l q = q \/ In (fold_left Rmin l q) l.
Proof.
  revert q; induction l as [|a l IH]; intros q; cbn; [left; reflexivity|].
  destruct (IH (Rmin q a)) as [H | H]; [|right; right; exact H].
  rewrite H. unfold Rmin. destruct (Rle_dec q a); [left|right; left]; reflexivity.
Qed.

Lemma rmaxl_ub l y : In y l -> y <= rmaxl l.
Proof.
  destruct l as [|q l]; cbn; [tauto|].
  intros [<- | H]; [apply fold_max_ge | apply fold_max_ub, H].
Qed.

Lemma rmaxl_In l : l <> [] -> In (rmaxl l) l.
Proof.
  destruct l as [|q l]; [congruence|]. intros _. cbn.
  destruct (fold_max_In l q) as [-> | H]; [left; reflexivity | right; exact H].
Qed.

Lemma rminl_lb l y : In y l -> rminl l <= y.
Proof.
  destruct l as [|q l]; cbn; [tauto|].
  intros [<- | H]; [apply fold_min_le | apply fold_min_lb, H].
Qed.

Lemma rminl_In l : l <> [] -> In (rminl l) l.
Proof.
  destruct l as [|q l]; [congruence|]. intros _. cbn.
  destruct (fold_min_In l q) as [-> | H]; [left; reflexivity | right; exact H].
Qed.

(** A maximum is determined by being an entry and an upper bound. *)
Lemma rmaxl_unique l m : In m l -> (forall y, In y l -> y <= m) -> rmaxl l = m.
Proof.
  intros Hin Hub.
  assert (Hne : l <> []) by (destruct l; [contradiction | discriminate]).
  apply Rle_antisym; [apply Hub, rmaxl_In, Hne | apply rmaxl_ub, Hin].
Qed.

Lemma rminl_unique l m : In m l -> (forall y, In y l -> m <= y) -> rminl l = m.
Proof.
  intros Hin Hlb.
  assert (Hne : l <> []) by (destruct l; [contradiction | discriminate]).
  apply Rle_antisym; [apply rminl_lb, Hin | apply Hlb, rminl_In, Hne].
Qed.

Lemma fold_max_Fin l q :
  fold_left Float.max (map Fin l) (Fin q) = Fin (fold_left Rmax l q).
Proof. revert q; induction l as [|a l IH]; intros q; cbn; [reflexivity | apply IH]. Qed.

Lemma fold_min_Fin l q :
  fold_left Float.min (map Fin l) (Fin q) = Fin (fold_left Rmin l q).
Proof. revert q; induction l as [|a l IH]; intros q; cbn; [reflexivity | apply IH]. Qed.

Lemma amax_real l : l <> [] -> amax (map Fin l) = Fin (rmaxl l).
Proof. destruct l as [|q l]; [congruence|]. intros _. apply fold_max_Fin. Qed.

Lemma amin_real l : l <> [] -> amin (map Fin l) = Fin (rminl l).
Proof. destruct l as [|q l]; [congruence|]. intros _. apply fold_min_Fin. Qed.

Lemma pushed_Fin c rs ms :
  zip_with Float.add (map Fin rs) (map (push c) ms) = map Fin (pushed c rs ms).
Proof.
  revert ms; induction rs as [|r rs IH]; intros [|m ms]; cbn; try reflexivity.
  f_equal. apply IH.
Qed.

(** A valid entry is not moved. *)
Lemma select_pushed c rs ms r :
  In r (select rs ms) -> In r (pushed c rs ms).
Proof.
  revert ms; induction rs as [|a rs IH]; intros [|[] ms]; cbn; try tauto.
  - intros [<- | H]; [left; ring | right; apply IH, H].
  - intros H; right; apply IH, H.
Qed.

(** An entry after the push is a valid entry, or an invalid one moved
    by [c]. *)
Lemma pushed_inv c rs ms q :
  In q (pushed c rs ms) ->
  In q (select rs ms) \/ exists r, In r (select rs (map negb ms)) /\ q = r + c.
Proof.
  revert ms; induction rs as [|a rs IH]; intros [|[] ms]; cbn; try tauto.
  - intros [<- | H]; [left; left; ring|].
    destruct (IH ms H) as [H' | H']; [left; right; exact H' | right; exact H'].
  - intros [<- | H].
    + right. exists a. split; [left; reflexivity | ring].
    + destruct (IH ms H) as [H' | [r [Hr ->]]]; [left; exact H'|].
      right. exists r. split; [right; exact Hr | reflexivity].
Qed.

(** With a valid entry in the slice the pushed maximum is at least, and
    the pushed minimum at most, every valid entry. *)
Lemma pushed_max_valid c rs ms r :
  In r (select rs ms) -> r <= rmaxl (pushed c rs ms).
Proof. intros H. apply rmaxl_ub, select_pushed, H. Qed.

Lemma pushed_min_valid c rs ms r :
  In r (select rs ms) -> rminl (pushed c rs ms) <= r.
Proof. intros H. apply rminl_lb, select_pushed, H. Qed.

Lemma pushed_nonempty c rs ms r : In r (select rs ms) -> pushed c rs ms <> [].
Proof.
  intros H E. apply (select_pushed c) in H. rewrite E in H. exact H.
Qed.

(** Where no invalid entry wins, the extrema are those of the valid
    entries. *)
Lemma pushed_max_select c rs ms :
  select rs ms <> [] ->
  (forall v, In v (select rs (map negb ms)) ->
             exists w, In w (select rs ms) /\ v + c <= w) ->
  rmaxl (pushed c rs ms) = rmaxl (select rs ms).
Proof.
  intros Hne Hc. apply rmaxl_unique.
  - apply select_pushed, rmaxl_In, Hne.
  - intros y Hy. destruct (pushed_inv _ _ _ _ Hy) as [H | [v [Hv ->]]].
    + apply rmaxl_ub, H.
    + destruct (Hc v Hv) as [w [Hw Hle]].
      eapply Rle_trans; [exact Hle | apply rmaxl_ub, Hw].
Qed.

Lemma pushed_min_select c rs ms :
  select rs ms <> [] ->
  (forall v, In v (select rs (map negb ms)) ->
             exists w, In w (select rs ms) /\ w <= v + c) ->
  rminl (pushed c rs ms) = rminl (select rs ms).
Proof.
  intros Hne Hc. apply rminl_unique.
  - apply select_pushed, rminl_In, Hne.
  - intros y Hy. destruct (pushed_inv _ _ _ _ Hy) as [H | [v [Hv ->]]].
    + apply rminl_lb, H.
    + destruct (Hc v Hv) as [w [Hw Hle]].
      eapply Rle_trans; [apply rminl_lb, Hw | exact Hle].
Qed.

End Extrema.

(* ================================================================= *)
(** ** Slices, valid entries and finite inputs *)

Section Bridge.

#[local] Arguments set_at : simpl never.

Lemma finite_slice x d j :
  finite x -> (d < length (shape x))%nat -> inb (set_at d 1%nat (shape x)) j ->
  Forall is_finite (slice x d j).
Proof.
  intros Hf Hd Hj. unfold slice. apply Forall_forall.
  intros v Hv. apply in_map_iff in Hv. destruct Hv as [k [<- Hk]].
  apply in_seq in Hk. apply Hf. apply inb_unstat; [assumption .. | lia].
Qed.

(** An entry of a slice read through the tensors. *)
Lemma select_slices {A} (f : nat -> A) (g : nat -> bool) l v :
  In v (select (map f l) (map g l)) <->
  exists k, In k l /\ g k = true /\ v = f k.
Proof.
  induction l as [|a l IH]; cbn.
  - split; [tauto | intros [k [[] _]]].
  - destruct (g a) eqn:Ga; cbn; rewrite IH; split.
    + intros [<- | [k [Hk [Hg ->]]]]; [exists a | exists k]; tauto.
    + intros [k [[<- | Hk] [Hg ->]]]; [left; reflexivity | right; exists k; tauto].
    + intros [k [Hk [Hg ->]]]; exists k; tauto.
    + intros [k [[<- | Hk] [Hg ->]]]; [congruence | exists k; tauto].
Qed.

Lemma valid_entries_In x mask d j v :
  nth d (shape x) 0%nat = nth d (shape mask) 0%nat ->
  In v (valid_entries x mask d j) <->
  exists k, (k < nth d (shape x) 0)%nat
            /\ data mask (set_at d k j) = true /\ v = data x (set_at d k j).
Proof.
  intros Hs. unfold valid_entries, slice. rewrite <- Hs.
  rewrite (select_slices (fun k => data x (set_at d k j))
                         (fun k => data mask (set_at d k j))).
  split; intros [k [Hk H]]; exists k; (split; [|exact H]).
  - apply in_seq in Hk; lia.
  - apply in_seq; lia.
Qed.

Lemma has_valid_entries x mask d j :
  nth d (shape x) 0%nat = nth d (shape mask) 0%nat ->
  has_valid mask d j -> valid_entries x mask d j <> [].
Proof.
  intros Hs H E. unfold has_valid, slice in H.
  apply in_map_iff in H. destruct H as [k [Hk Hin]]. apply in_seq in Hin.
  assert (Hv : In (data x (set_at d k j)) (valid_entries x mask d j)).
  { apply valid_entries_In; [exact Hs|]. exists k. repeat split; [lia | exact Hk]. }
  rewrite E in Hv. exact Hv.
Qed.

Lemma no_valid_entries x mask d j :
  ~ has_valid mask d j -> valid_entries x mask d j = [].
Proof.
  unfold has_valid, valid_entries. generalize (slice x d j) as xs.
  induction (slice mask d j) as [|m ms IH]; intros xs H.
  - destruct xs; reflexivity.
  - destruct xs as [|a xs]; [reflexivity|]. cbn in *.
    destruct m; [exfalso; apply H; left; reflexivity|].
    apply IH. intros H'. apply H. right. exact H'.
Qed.

Lemma inb_insert s i d :
  inb (remove_at d s) i -> (d < length s)%nat ->
  inb (set_at d 1%nat s) (insert_at d 0%nat i).
Proof.
  unfold inb. revert i d.
  induction s as [|n s IH]; intros i [|d] H Hd; cbn in *; try lia.
  - rewrite set_at_0. unfold insert_at; cbn. constructor; [lia | exact H].
  - unfold remove_at in H; cbn in H. inversion H; subst.
    rewrite set_at_S. unfold insert_at; cbn.
    constructor; [assumption|]. apply IH; [assumption | lia].
Qed.

End Bridge.

(* ================================================================= *)
(** ** Sorted lists of reals *)

Section SortedFacts.

Lemma sorted_strongly l : Sorted Rle l -> StronglySorted Rle l.
Proof.
  apply Sorted_StronglySorted. intros a b c. apply Rle_trans.
Qed.

(** Two increasing arrangements of the same entries are the same list. *)
Lemma sorted_perm_eq l1 l2 :
  Sorted Rle l1 -> Sorted Rle l2 -> Permutation l1 l2 -> l1 = l2.
Proof.
  intros H1 H2. apply sorted_strongly in H1. apply sorted_strongly in H2.
  revert l2 H2. induction H1 as [|a l1 Hs1 IH Ha]; intros l2 H2 Hp.
  - apply Permutation_nil in Hp. subst. reflexivity.
  - destruct l2 as [|b l2];
      [apply Permutation_sym, Permutation_nil in Hp; discriminate|].
    inversion H2 as [|? ? Hs2 Hb]; subst.
    assert (Hab : a = b).
    { assert (In a (b :: l2)) as [E | Hin]
        by (apply (Permutation_in _ Hp); left; reflexivity);
        [symmetry; exact E|].
      assert (In b (a :: l1)) as [E | Hin']
        by (apply (Permutation_in _ (Permutation_sym Hp)); left; reflexivity);
        [exact E|].
      rewrite Forall_forall in Ha, Hb.
      apply Rle_antisym; [apply Ha, Hin' | apply Hb, Hin]. }
    subst b. f_equal. apply IH; [exact Hs2|].
    eapply Permutation_cons_inv, Hp.
Qed.

Lemma sort_unique l l' : Sorted Rle l' -> Permutation l' l -> sort l = l'.
Proof.
  intros Hs Hp. apply sorted_perm_eq; [apply sort_sorted | exact Hs|].
  rewrite sort_perm. symmetry. exact Hp.
Qed.

Lemma strongly_sorted_nth l i k :
  StronglySorted Rle l -> (i <= k < length l)%nat -> nth i l 0 <= nth k l 0.
Proof.
  intros H; revert i k.
  induction H as [|a l Hs IH Ha]; intros i k Hik; cbn in Hik; [lia|].
  destruct i as [|i], k as [|k]; cbn; try lia.
  - lra.
  - rewrite Forall_forall in Ha. apply Ha, nth_In. lia.
  - apply IH. lia.
Qed.

Lemma half_of_even k : (0 < k)%nat -> ((2 * k - 1) / 2 = k - 1)%nat.
Proof.
  intros Hk. symmetry. apply (Nat.div_unique _ _ _ 1%nat); lia.
Qed.

End SortedFacts.

(* ================================================================= *)
(** ** The masked reductions *)

(** C5: [masked_mean] and [masked_median] return a tensor of the shape of
    [x] with [dim] collapsed to size 1 ([keepdim]) or removed; each of its
    entries is finite and is the mean, respectively the median, of the
    entries of its slice that are valid (and not NaN), and exactly 0 for
    a slice with no valid entry. *)
Theorem masked_reductions_contract :
  forall (x : tensor float) (mask : tensor bool) (dim : Z) (keepdim : bool),
    shape mask = shape x ->
    dim_ok (shape x) dim ->
    let d := norm_dim (length (shape x)) dim in
    let out_shape :=
      if keepdim then set_at d 1%nat (shape x) else remove_at d (shape x) in
    shape (masked_mean x mask dim keepdim) = out_shape
    /\ shape (masked_median x mask dim keepdim) = out_shape
    /\ (forall i, is_finite (data (masked_mean x mask dim keepdim) i)
                  /\ is_finite (data (masked_median x mask dim keepdim) i))
    /\ (forall i, inb out_shape i ->
          let j := if keepdim then i else insert_at d 0%nat i in
          let vs := finite_values (valid_entries x mask d j) in
          data (masked_mean x mask dim keepdim) i = Fin (rmean vs)
          /\ data (masked_median x mask dim keepdim) i = Fin (rmedian vs)
          /\ (~ has_valid mask d j ->
              data (masked_mean x mask dim keepdim) i = Fin 0
              /\ data (masked_median x mask dim keepdim) i = Fin 0)).
Proof.
  intros x mask dim keepdim Hm Hdim d out_shape.
  assert (Hlt : (d < length (shape x))%nat) by (apply norm_dim_lt, Hdim).
  split; [|split; [|split]].
  - apply (masked_mean_shape x mask (shape x) dim d); auto.
  - apply (masked_median_shape x mask (shape x) dim d); auto.
  - intros i. split; cbn; unfold is_finite, nan_to_num;
      match goal with |- context [match ?v with _ => _ end] => destruct v end;
      eexists; reflexivity.
  - intros i Hi j vs.
    assert (Hj : inb (set_at d 1%nat (shape x)) j).
    { subst j out_shape. destruct keepdim; [exact Hi | apply inb_insert; assumption]. }
    assert (E1 : data (masked_mean x mask dim keepdim) i
                 = data (masked_mean x mask dim true) j)
      by (subst j; destruct keepdim;
          [reflexivity | apply (masked_mean_drop x mask (shape x) dim d); auto]).
    assert (E2 : data (masked_median x mask dim keepdim) i
                 = data (masked_median x mask dim true) j)
      by (subst j; destruct keepdim;
          [reflexivity | apply (masked_median_drop x mask (shape x) dim d); auto]).
    rewrite E1, E2.
    rewrite (masked_mean_at x mask (shape x) dim d j) by auto.
    rewrite (masked_median_at x mask (shape x) dim d j) by auto.
    rewrite mean1_real, median1_real.
    fold (valid_entries x mask d j). fold vs.
    split; [reflexivity | split; [reflexivity|]].
    intros Hn. subst vs. rewrite (no_valid_entries x mask d j Hn).
    split; reflexivity.
Qed.

Lemma masked_reductions_contract_witness :
  shape (bvec [true; false; true]) = shape (vec [0; 7; 5])
  /\ dim_ok (shape (vec [0; 7; 5])) (-1)
  /\ shape (masked_mean (vec [0; 7; 5]) (bvec [true; false; true]) (-1) false) = [].
Proof.
  assert (H1 : shape (bvec [true; false; true]) = shape (vec [0; 7; 5]))
    by reflexivity.
  assert (H2 : dim_ok (shape (vec [0; 7; 5])) (-1))
    by (unfold dim_ok; cbn; lia).
  split; [exact H1 | split; [exact H2|]].
  exact (proj1 (masked_reductions_contract
                  (vec [0; 7; 5]) (bvec [true; false; true]) (-1) false H1 H2)).
Defined.

(** C9: in a slice with an even number [2k] of valid entries,
    [masked_median] returns the entry of rank [k] of their increasing
    arrangement, the lower of the two middle ones, and not their mean. *)
Theorem masked_median_even_lower :
  forall (x : tensor float) (mask : tensor bool) (dim : Z) (j : list nat)
         (rs sorted : list R) (k : nat),
    shape mask = shape x ->
    dim_ok (shape x) dim ->
    let d := norm_dim (length (shape x)) dim in
    inb (set_at d 1%nat (shape x)) j ->
    valid_entries x mask d j = map Fin rs ->
    length rs = (2 * k)%nat -> (0 < k)%nat ->
    Sorted Rle sorted -> Permutation sorted rs ->
    data (masked_median x mask dim true) j = Fin (nth (k - 1) sorted 0)
    /\ nth (k - 1) sorted 0 <= nth k sorted 0.
Proof.
  intros x mask dim j rs sorted k Hm Hdim d Hj Hv Hlen Hk Hs Hp.
  assert (Hlt : (d < length (shape x))%nat) by (apply norm_dim_lt, Hdim).
  split.
  - rewrite (masked_median_at x mask (shape x) dim d j) by auto.
    rewrite median1_real. fold (valid_entries x mask d j).
    rewrite Hv, finite_values_Fin. unfold rmedian.
    destruct rs as [|r rs']; [cbn in Hlen; lia|].
    rewrite Hlen, half_of_even by exact Hk.
    rewrite (sort_unique (r :: rs') sorted Hs Hp). reflexivity.
  - apply strongly_sorted_nth; [apply sorted_strongly, Hs|].
    rewrite (Permutation_length Hp), Hlen. lia.
Qed.

Lemma masked_median_even_lower_witness :
  data (masked_median (vec [3; 1; 8; 2; 9])
                      (bvec [true; true; false; true; true]) (-1) true) [0%nat]
  = Fin (nth (2 - 1) [1; 2; 3; 9] 0)
  /\ nth (2 - 1) [1; 2; 3; 9] 0 <= nth 2 [1; 2; 3; 9] 0.
Proof.
  apply (masked_median_even_lower
           (vec [3; 1; 8; 2; 9]) (bvec [true; true; false; true; true]) (-1)
           [0%nat] [3; 1; 2; 9] [1; 2; 3; 9] 2).
  - reflexivity.
  - unfold dim_ok; cbn; lia.
  - repeat constructor.
  - reflexivity.
  - reflexivity.
  - lia.
  - repeat constructor; lra.
  - apply perm_trans with [1; 3; 2; 9]; [apply perm_skip, perm_swap | apply perm_swap].
Defined.

(* ================================================================= *)
(** ** The raw scale of the robust scalers *)

Section Evaluate.

Lemma rmedian_sorted l l' :
  l <> [] -> Sorted Rle l' -> Permutation l' l ->
  rmedian l = nth ((length l - 1) / 2) l' 0.
Proof.
  intros Hne Hs Hp. unfold rmedian. destruct l as [|a l]; [contradiction|].
  rewrite (sort_unique (a :: l) l' Hs Hp). reflexivity.
Qed.

Lemma Rabs_of_nonpos a : a <= 0 -> Rabs a = - a.
Proof. intros H. unfold Rabs. destruct (Rcase_abs a); lra. Qed.

Lemma Rabs_of_nonneg a : 0 <= a -> Rabs a = a.
Proof. intros H. unfold Rabs. destruct (Rcase_abs a); lra. Qed.

End Evaluate.

(** The scale statistic of [robust_scaler] and [invariant_scaler] before
    the guards is, in every slice, the median of the absolute deviations
    of the valid entries from their median. *)
Lemma raw_mad_is_median_deviation :
  forall (x : tensor float) (mask : tensor bool) (dim : Z) (j : list nat),
    shape mask = shape x ->
    dim_ok (shape x) dim ->
    let d := norm_dim (length (shape x)) dim in
    inb (set_at d 1%nat (shape x)) j ->
    data (raw_mad x mask dim) j
    = Fin (rmad (finite_values (valid_entries x mask d j))).
Proof.
  intros x mask dim j Hm Hdim d Hj.
  assert (Hlt : (d < length (shape x))%nat) by (apply norm_dim_lt, Hdim).
  rewrite (raw_mad_at x mask (shape x) dim d j) by auto.
  apply mad1_real.
Qed.

(** C2, on the slice 0, 1, 5 with every entry valid: the raw scale of the
    robust scalers is 1, the median of the deviations 1, 0, 4 from the
    median 1, where the mean absolute deviation from the median, the
    masked mean of the same deviations, is 5/3. *)
Theorem raw_mad_differs_from_mean_deviation :
  let x := vec [0; 1; 5] in
  let mask := bvec [true; true; true] in
  data (raw_mad x mask (-1)) [0%nat] = Fin 1
  /\ data (masked_mean (tmap Float.abs (tsub x (masked_median x mask (-1) true)))
                       mask (-1) true) [0%nat] = Fin (5 / 3)
  /\ data (scale_of (robust_scaler x mask (-1) (1 / 1000000))) [0%nat]
     = Fin (1 + 1 / 1000000)
  /\ data (scale_of (invariant_scaler x mask (-1) (1 / 1000000))) [0%nat]
     = Fin (1 + 1 / 1000000).
Proof.
  intros x mask.
  assert (Hm : shape mask = [3%nat]) by reflexivity.
  assert (Hx : shape x = [3%nat]) by reflexivity.
  assert (Hd : 0%nat = norm_dim (length [3%nat]) (-1)) by reflexivity.
  assert (Hlt : (0 < length [3%nat])%nat) by (cbn; lia).
  assert (Hj : inb (set_at 0 1%nat [3%nat]) [0%nat]) by (repeat constructor).
  assert (Hvs : select (slice x 0 [0%nat]) (slice mask 0 [0%nat])
                = map Fin [0; 1; 5]) by reflexivity.
  assert (Hmed : rmedian [0; 1; 5] = 1).
  { rewrite (rmedian_sorted [0; 1; 5] [0; 1; 5]);
      [reflexivity | discriminate | repeat constructor; lra | reflexivity]. }
  assert (Hdev : map (fun r => Rabs (r - rmedian [0; 1; 5])) [0; 1; 5] = [1; 0; 4]).
  { rewrite Hmed. cbn [map].
    rewrite (Rabs_of_nonpos (0 - 1)), (Rabs_of_nonneg (1 - 1)),
            (Rabs_of_nonneg (5 - 1)) by lra.
    repeat f_equal; lra. }
  assert (Hmad : rmad [0; 1; 5] = 1).
  { unfold rmad. rewrite Hdev.
    rewrite (rmedian_sorted [1; 0; 4] [0; 1; 4]);
      [reflexivity | discriminate | repeat constructor; lra | apply perm_swap]. }
  split; [|split; [|split]].
  - rewrite (raw_mad_at x mask [3%nat] (-1) 0 [0%nat]) by assumption.
    rewrite mad1_real, Hvs, finite_values_Fin. f_equal. exact Hmad.
  - assert (Hc : shape (masked_median x mask (-1) true) = set_at 0 1%nat [3%nat])
      by apply (masked_median_shape x mask [3%nat] (-1) 0 Hx Hm Hd true).
    rewrite (masked_mean_at _ mask [3%nat] (-1) 0 [0%nat]);
      [| cbn [tmap shape]; apply (centred_shape x [3%nat] 0 Hx Hlt), Hc
       | assumption ..].
    rewrite (centred_slice x mask [3%nat] 0 [0%nat] Hx Hlt Hj _ _ Hc).
    rewrite (masked_median_at x mask [3%nat] (-1) 0 [0%nat]) by assumption.
    rewrite mean1_real, median1_real, Hvs, finite_values_Fin.
    rewrite (finite_values_map _ (fun r => Rabs (r - rmedian [0; 1; 5])))
      by reflexivity.
    rewrite finite_values_Fin, Hdev. f_equal. cbn. lra.
  - rewrite (robust_scaler_scale_at x mask [3%nat] (-1) 0 [0%nat]) by assumption.
    rewrite robust_scale1_real, Hvs, finite_values_Fin. f_equal.
    rewrite Hmad. unfold rmad_or_aux.
    destruct (Req_dec_T 1 0) as [H|_]; [lra|].
    apply rguard_nonzero. lra.
  - change (scale_of (invariant_scaler x mask (-1) (1 / 1000000)))
      with (scale_of (robust_scaler x mask (-1) (1 / 1000000))).
    rewrite (robust_scaler_scale_at x mask [3%nat] (-1) 0 [0%nat]) by assumption.
    rewrite robust_scale1_real, Hvs, finite_values_Fin. f_equal.
    rewrite Hmad. unfold rmad_or_aux.
    destruct (Req_dec_T 1 0) as [H|_]; [lra|].
    apply rguard_nonzero. lra.
Qed.

(* ================================================================= *)
(** ** The statistics every scaler returns *)

Section MinMaxReal.

(** The min-max statistics of a slice of finite entries [rs] that has a
    valid entry. *)
Lemma minmax_stats_real rs ms eps :
  select rs ms <> [] ->
  let mn := rminl (pushed sentinel rs ms) in
  let mx := rmaxl (pushed (- sentinel) rs ms) in
  min1 (map Fin rs) ms = Fin mn
  /\ max1 (map Fin rs) ms = Fin mx
  /\ (forall r, In r (select rs ms) -> mn <= r <= mx)
  /\ 0 <= mx - mn
  /\ range1 (map Fin rs) ms eps = Fin (rguard eps (mx - mn)).
Proof.
  intros Hne mn mx.
  assert (Hr : exists r, In r (select rs ms))
    by (destruct (select rs ms) as [|r l]; [contradiction | exists r; left; reflexivity]).
  destruct Hr as [r0 Hr0].
  assert (E1 : min1 (map Fin rs) ms = Fin mn).
  { unfold min1. rewrite pushed_Fin. apply amin_real.
    apply (pushed_nonempty _ _ _ r0 Hr0). }
  assert (E2 : max1 (map Fin rs) ms = Fin mx).
  { unfold max1. rewrite pushed_Fin. apply amax_real.
    apply (pushed_nonempty _ _ _ r0 Hr0). }
  assert (Hb : forall r, In r (select rs ms) -> mn <= r <= mx).
  { intros r Hr. split; [apply pushed_min_valid | apply pushed_max_valid]; exact Hr. }
  split; [exact E1 | split; [exact E2 | split; [exact Hb|]]].
  split; [pose proof (Hb r0 Hr0); lra|].
  unfold range1. rewrite E1, E2. cbn [Float.sub lift2]. apply guard_real.
Qed.

End MinMaxReal.

Section ScaleFacts.

#[local] Arguments set_at : simpl never.

Variables (x : tensor float) (mask : tensor bool) (dim : Z) (eps : R).
Variable j : list nat.
Hypothesis Hm : shape mask = shape x.
Hypothesis Hdim : dim_ok (shape x) dim.

Let d := norm_dim (length (shape x)) dim.

Hypothesis Hj : inb (set_at d 1%nat (shape x)) j.

Let vs := finite_values (valid_entries x mask d j).

Lemma d_lt : (d < length (shape x))%nat.
Proof. apply norm_dim_lt, Hdim. Qed.

Lemma std_stats_real :
  data (shift_of (std_scaler x mask dim eps)) j = Fin (rmean vs)
  /\ data (scale_of (std_scaler x mask dim eps)) j = Fin (rguard eps (rstd vs)).
Proof.
  split.
  - rewrite (std_scaler_shift_at x mask (shape x) dim d j eps);
      auto using d_lt.
    apply mean1_real.
  - rewrite (std_scaler_scale_at x mask (shape x) dim d j eps);
      auto using d_lt.
    rewrite std1_real. apply guard_real.
Qed.

Lemma robust_stats_real :
  data (shift_of (robust_scaler x mask dim eps)) j = Fin (rmedian vs)
  /\ data (scale_of (robust_scaler x mask dim eps)) j
     = Fin (rguard eps (rmad_or_aux (rmad vs) (rstd vs * mad_ratio))).
Proof.
  split.
  - rewrite (robust_scaler_shift_at x mask (shape x) dim d j eps);
      auto using d_lt.
    apply median1_real.
  - rewrite (robust_scaler_scale_at x mask (shape x) dim d j eps);
      auto using d_lt.
    apply robust_scale1_real.
Qed.

(** The slice through [j] as reals, when [x] is finite. *)
Lemma slice_reals :
  finite x -> slice x d j = map Fin (finite_values (slice x d j)).
Proof.
  intros Hf. apply all_finite_Fin, finite_slice; [exact Hf | apply d_lt | exact Hj].
Qed.

Lemma valid_reals :
  finite x ->
  valid_entries x mask d j
  = map Fin (select (finite_values (slice x d j)) (slice mask d j)).
Proof.
  intros Hf. unfold valid_entries. rewrite (slice_reals Hf) at 1.
  apply select_map.
Qed.

Lemma valid_reals_nonempty :
  finite x -> has_valid mask d j ->
  select (finite_values (slice x d j)) (slice mask d j) <> [].
Proof.
  intros Hf Hv E.
  apply (has_valid_entries x mask d j); [rewrite Hm; reflexivity | exact Hv|].
  rewrite (valid_reals Hf), E. reflexivity.
Qed.

Lemma minmax_stats :
  finite x -> has_valid mask d j ->
  let rs := finite_values (slice x d j) in
  let ms := slice mask d j in
  let mn := rminl (pushed sentinel rs ms) in
  let mx := rmaxl (pushed (- sentinel) rs ms) in
  data (shift_of (minmax_scaler x mask eps dim)) j = Fin mn
  /\ data (scale_of (minmax_scaler x mask eps dim)) j = Fin (rguard eps (mx - mn))
  /\ (forall r, In r (select rs ms) -> mn <= r <= mx)
  /\ 0 <= mx - mn.
Proof.
  intros Hf Hv rs ms mn mx.
  destruct (minmax_stats_real rs ms eps (valid_reals_nonempty Hf Hv))
    as (E1 & E2 & Hb & Hpos & E3).
  rewrite (minmax_scaler_shift_at x mask (shape x) dim d j eps);
    auto using d_lt.
  rewrite (minmax_scaler_scale_at x mask (shape x) dim d j eps);
    auto using d_lt.
  rewrite (slice_reals Hf). fold rs ms.
  repeat split; try assumption; apply Hb; assumption.
Qed.

End ScaleFacts.

Section Degenerate.

Lemma Rsum_const c rs :
  (forall r, In r rs -> r = c) -> Rsum rs = INR (length rs) * c.
Proof.
  induction rs as [|a rs IH]; intros H.
  - cbn. lra.
  - cbn [Rsum]. rewrite IH by (intros r Hr; apply H; right; exact Hr).
    rewrite (H a) by (left; reflexivity).
    cbn [length]. rewrite S_INR. lra.
Qed.

Lemma rmean_const c rs :
  rs <> [] -> (forall r, In r rs -> r = c) -> rmean rs = c.
Proof.
  intros Hne H. unfold rmean. destruct rs as [|a rs]; [contradiction|].
  rewrite (Rsum_const c) by exact H.
  field. apply INR_length_cons.
Qed.

Lemma rmean_zeros rs : (forall r, In r rs -> r = 0) -> rmean rs = 0.
Proof.
  intros H. destruct rs as [|a rs]; [reflexivity|].
  apply rmean_const; [discriminate | exact H].
Qed.

(** A slice whose valid entries are all equal has standard deviation 0. *)
Lemma rstd_const c rs : (forall r, In r rs -> r = c) -> rstd rs = 0.
Proof.
  intros H. unfold rstd. rewrite rmean_zeros; [apply sqrt_0|].
  intros y Hy. apply in_map_iff in Hy. destruct Hy as [r [<- Hr]].
  destruct rs as [|a rs]; [contradiction|].
  rewrite (rmean_const c) by (try discriminate; exact H).
  rewrite (H r Hr). lra.
Qed.

Lemma finite_values_In vs r : In r (finite_values vs) <-> In (Fin r) vs.
Proof.
  induction vs as [|[a|] vs IH]; cbn; [tauto | |].
  - rewrite IH. split; intros [E | H]; auto; left; congruence.
  - rewrite IH. split; [auto | intros [E | H]; [discriminate | exact H]].
Qed.

End Degenerate.

(* ================================================================= *)
(** ** The scale is never zero *)

(** C10, as the code has it: with [eps >= 0] every entry of the scale of
    the standard, robust and invariant scalers is above 0 and at least
    [eps], whatever the mask, all-invalid slices included; that of the
    min-max scalers is so in every slice of a finite input that has a
    valid entry; that of the identity scaler is 1. *)
Theorem scale_strictly_positive :
  forall (x : tensor float) (mask : tensor bool) (dim : Z) (eps : R)
         (j : list nat),
    shape mask = shape x ->
    dim_ok (shape x) dim ->
    0 <= eps ->
    let d := norm_dim (length (shape x)) dim in
    inb (set_at d 1%nat (shape x)) j ->
    positive_scale eps (scale_of (std_scaler x mask dim eps)) j
    /\ positive_scale eps (scale_of (robust_scaler x mask dim eps)) j
    /\ positive_scale eps (scale_of (invariant_scaler x mask dim eps)) j
    /\ (finite x -> has_valid mask d j ->
        positive_scale eps (scale_of (minmax_scaler x mask eps dim)) j
        /\ positive_scale eps (scale_of (minmax1_scaler x mask eps dim)) j)
    /\ data (scale_of (identity_scaler x mask dim eps)) j = Fin 1.
Proof.
  intros x mask dim eps j Hm Hdim Heps d Hj.
  assert (Hstd : positive_scale eps (scale_of (std_scaler x mask dim eps)) j).
  { eexists. split; [apply (std_stats_real x mask dim eps j Hm Hdim Hj)|].
    split; [eapply Rle_lt_trans; [exact Heps|] | apply Rlt_le];
      apply rguard_pos, rstd_nonneg. }
  assert (Hrob : positive_scale eps (scale_of (robust_scaler x mask dim eps)) j).
  { eexists. split; [apply (robust_stats_real x mask dim eps j Hm Hdim Hj)|].
    split; [eapply Rle_lt_trans; [exact Heps|] | apply Rlt_le];
      apply rguard_pos, rmad_or_aux_nonneg. }
  split; [exact Hstd | split; [exact Hrob | split; [exact Hrob | split]]].
  - intros Hf Hv.
    destruct (minmax_stats x mask dim eps j Hm Hdim Hj Hf Hv)
      as (_ & E & _ & Hpos).
    assert (Hmm : positive_scale eps (scale_of (minmax_scaler x mask eps dim)) j).
    { eexists. split; [exact E|].
      split; [eapply Rle_lt_trans; [exact Heps|] | apply Rlt_le];
        apply rguard_pos, Hpos. }
    split; exact Hmm.
  - reflexivity.
Qed.

Lemma scale_strictly_positive_witness :
  positive_scale (1 / 1000000)
    (scale_of (std_scaler (vec [2; 2; 9]) (bvec [true; true; false]) (-1)
                          (1 / 1000000))) [0%nat].
Proof.
  refine (proj1 (scale_strictly_positive
                   (vec [2; 2; 9]) (bvec [true; true; false]) (-1)
                   (1 / 1000000) [0%nat] _ _ _ _)).
  - reflexivity.
  - unfold dim_ok; cbn; lia.
  - lra.
  - repeat constructor.
Defined.

(** C10 as stated fails for the min-max scaler on an all-invalid slice:
    for the one-entry slice 0 with its entry invalid the maximum is
    [-sentinel], the minimum [sentinel], and the scale
    [-2 * sentinel + eps] is negative. *)
Lemma minmax_all_invalid_scale_negative :
  exists c,
    data (scale_of (minmax_scaler (vec [0]) (bvec [false]) (1 / 1000000) (-1)))
         [0%nat] = Fin c
    /\ c < 0.
Proof.
  exists (0 + 1 * - sentinel - (0 + 1 * sentinel) + 1 / 1000000).
  split; [|unfold sentinel; lra].
  cbn. unfold zero_to_one, eq0.
  destruct (Req_dec_T _ 0) as [H|_]; [unfold sentinel in H; lra|].
  reflexivity.
Qed.

(* ================================================================= *)
(** ** Degenerate slices *)

(** C4, as the code has it: the guard of the standard scaler looks at
    the masked standard deviation it computed.  In a slice where that
    is zero the scale is [1 + eps] and, with [eps >= 0] and a finite
    input, no entry of [z] in the slice is NaN; a slice with one valid
    entry is such a slice.  In a slice whose raw median deviation is
    zero the robust and invariant scalers return
    [std * 0.6744897501960817 + eps], where [std] is that masked standard
    deviation, and [1 + eps] when the product is zero. *)
Theorem degenerate_slice_scale :
  forall (x : tensor float) (mask : tensor bool) (dim : Z) (eps : R)
         (j : list nat) (sd : R),
    shape mask = shape x ->
    dim_ok (shape x) dim ->
    let d := norm_dim (length (shape x)) dim in
    inb (set_at d 1%nat (shape x)) j ->
    data (masked_std x mask dim) j = Fin sd ->
    (sd = 0 ->
       data (scale_of (std_scaler x mask dim eps)) j = Fin (1 + eps)
       /\ (0 <= eps -> finite x ->
           forall k, (k < nth d (shape x) 0)%nat ->
             data (z_of (std_scaler x mask dim eps)) (set_at d k j) <> NaN))
    /\ ((exists v, valid_entries x mask d j = [Fin v]) -> sd = 0)
    /\ (data (raw_mad x mask dim) j = Fin 0 ->
        (sd * mad_ratio <> 0 ->
           data (scale_of (robust_scaler x mask dim eps)) j
             = Fin (sd * mad_ratio + eps)
           /\ data (scale_of (invariant_scaler x mask dim eps)) j
             = Fin (sd * mad_ratio + eps))
        /\ (sd * mad_ratio = 0 ->
           data (scale_of (robust_scaler x mask dim eps)) j = Fin (1 + eps)
           /\ data (scale_of (invariant_scaler x mask dim eps)) j = Fin (1 + eps))).
Proof.
  intros x mask dim eps j sd Hm Hdim d Hj Hsd.
  assert (Hlt : (d < length (shape x))%nat) by (apply norm_dim_lt, Hdim).
  rewrite (masked_std_at x mask (shape x) dim d j) in Hsd by auto.
  rewrite std1_real in Hsd. injection Hsd as Hsd.
  fold (valid_entries x mask d j) in Hsd.
  split; [|split].
  - intros H0.
    assert (Hs : data (scale_of (std_scaler x mask dim eps)) j = Fin (1 + eps)).
    { rewrite (proj2 (std_stats_real x mask dim eps j Hm Hdim Hj)).
      fold d. rewrite Hsd, H0, rguard_zero. reflexivity. }
    split; [exact Hs|].
    intros Heps Hf k Hk.
    rewrite (std_scaler_z_at x mask (shape x) dim d j eps) by auto.
    rewrite <- (std_scaler_scale_at x mask (shape x) dim d j eps) by auto.
    rewrite Hs, mean1_real.
    destruct (Hf (set_at d k j)) as [r Hr];
      [apply inb_unstat; assumption|].
    rewrite Hr. cbn.
    destruct (Req_dec_T (1 + eps) 0) as [H|_]; [lra|].
    discriminate.
  - intros [v Hv]. rewrite <- Hsd, Hv. cbn [finite_values].
    apply (rstd_const v). intros r [<- | []]. reflexivity.
  - intros Hraw.
    assert (Hmad : rmad (finite_values (valid_entries x mask d j)) = 0).
    { rewrite (raw_mad_at x mask (shape x) dim d j) in Hraw by auto.
      rewrite mad1_real in Hraw. injection Hraw as Hraw. exact Hraw. }
    pose proof (proj2 (robust_stats_real x mask dim eps j Hm Hdim Hj)) as E.
    fold d in E. rewrite Hsd, Hmad in E. unfold rmad_or_aux in E.
    destruct (Req_dec_T 0 0) as [_|H]; [|contradiction].
    split; intros Hz.
    + rewrite rguard_nonzero in E by exact Hz. split; exact E.
    + rewrite Hz, rguard_zero in E. split; exact E.
Qed.

Lemma degenerate_slice_scale_witness :
  data (scale_of (std_scaler (vec [2; 2; 9]) (bvec [true; true; false]) (-1)
                             (1 / 1000000))) [0%nat]
  = Fin (1 + 1 / 1000000).
Proof.
  assert (Hj : inb (set_at 0 1%nat [3%nat]) [0%nat]) by (repeat constructor).
  assert (Hlt : (0 < length [3%nat])%nat) by (cbn; lia).
  refine (proj1 (proj1 (degenerate_slice_scale
                   (vec [2; 2; 9]) (bvec [true; true; false]) (-1)
                   (1 / 1000000) [0%nat] 0 _ _ _ _) eq_refl)).
  - reflexivity.
  - unfold dim_ok; cbn; lia.
  - exact Hj.
  - rewrite (masked_std_at (vec [2; 2; 9]) (bvec [true; true; false]) [3%nat]
               (-1) 0 [0%nat] eq_refl eq_refl eq_refl Hlt Hj).
    rewrite std1_real. f_equal.
    apply (rstd_const 2). cbn. intros r [<- | [<- | []]]; reflexivity.
Defined.

(** C4 as stated fails in binary32: the slice 7.7, 7.7, 7.7 (each entry
    valid, each the binary32 number [16148070 * 2^-21]) has all its
    valid entries equal, but the sum of the three rounds, the mean comes
    out one unit in the last place lower, the deviation is not zero and
    the guard does not fire: with [eps = 1e-6] the scale is
    [12990397 * 2^-43 = 1.4768e-6], not [1 + eps]. *)
Lemma constant_slice_scale_binary32 :
  data (shift_of (F32.std_scaler
                    (F32.vec [F32.of_ratio 77 10; F32.of_ratio 77 10;
                              F32.of_ratio 77 10])
                    (bvec [true; true; true]) (-1) (F32.of_ratio 1 1000000)))
       [0%nat] = S754_finite false 16148069 (-21)
  /\ F32.of_ratio 77 10 = S754_finite false 16148070 (-21)
  /\ data (scale_of (F32.std_scaler
                       (F32.vec [F32.of_ratio 77 10; F32.of_ratio 77 10;
                                 F32.of_ratio 77 10])
                       (bvec [true; true; true]) (-1) (F32.of_ratio 1 1000000)))
          [0%nat] = S754_finite false 12990397 (-43)
  /\ F32.add F32.one (F32.of_ratio 1 1000000) = S754_finite false 8388616 (-23)
  /\ data (scale_of (F32.std_scaler
                       (F32.vec [F32.of_ratio 77 10; F32.of_ratio 77 10;
                                 F32.of_ratio 77 10])
                       (bvec [true; true; true]) (-1) (F32.of_ratio 1 1000000)))
          [0%nat] <> F32.add F32.one (F32.of_ratio 1 1000000).
Proof.
  repeat split; try (vm_compute; reflexivity).
  vm_compute. discriminate.
Qed.

(* ================================================================= *)
(** ** An entry of [x], its slice and its statistics *)

Section AtIndex.

#[local] Arguments set_at : simpl never.

Variables (s : list nat) (d : nat) (idx : list nat).
Hypothesis Hlt : (d < length s)%nat.
Hypothesis Hi : inb s idx.

(** An index of [x] is position [nth d idx 0] of the slice through
    [set_at d 0 idx], the index of its statistics. *)
Lemma idx_split : set_at d (nth d idx 0%nat) (set_at d 0%nat idx) = idx.
Proof.
  rewrite set_at_twice by (rewrite (inb_length s idx Hi); exact Hlt).
  apply set_at_nth. rewrite (inb_length s idx Hi). exact Hlt.
Qed.

Lemma idx_pos : (nth d idx 0 < nth d s 0)%nat.
Proof. apply inb_nth; assumption. Qed.

Lemma idx_stat : inb (set_at d 1%nat s) (set_at d 0%nat idx).
Proof. apply inb_stat; assumption. Qed.

End AtIndex.

Section Inverse.

#[local] Arguments set_at : simpl never.

Lemma affine_shape (z shift scale : tensor float) s d :
  shape z = s -> shape shift = set_at d 1%nat s ->
  shape scale = set_at d 1%nat s -> (d < length s)%nat ->
  shape (tadd (tmul z scale) shift) = s.
Proof.
  intros Hz Hsh Hsc Hd.
  apply (shape_tzip_stat _ _ shift s d); [|exact Hsh|exact Hd].
  apply (shape_tzip_stat _ z scale s d); assumption.
Qed.

End Inverse.

(* ================================================================= *)
(** ** The shapes along the round trip *)

Section Roundtrip.

#[local] Arguments set_at : simpl never.

Variables (x : tensor float) (mask : tensor bool) (dim : Z) (eps : R).
Variable idx : list nat.
Hypothesis Hm : shape mask = shape x.
Hypothesis Hdim : dim_ok (shape x) dim.
Hypothesis Heps : 0 <= eps.
Hypothesis Hf : finite x.
Hypothesis Hi : inb (shape x) idx.

Let d := norm_dim (length (shape x)) dim.
Let j := set_at d 0%nat idx.
Let k := nth d idx 0%nat.

Lemma rt_lt : (d < length (shape x))%nat.
Proof. apply norm_dim_lt, Hdim. Qed.

Lemma rt_j : inb (set_at d 1%nat (shape x)) j.
Proof. apply idx_stat; [apply rt_lt | exact Hi]. Qed.

Lemma rt_k : (k < nth d (shape x) 0)%nat.
Proof. apply idx_pos; [apply rt_lt | exact Hi]. Qed.

Lemma std_roundtrip_shape :
  let r := std_scaler x mask dim eps in
  shape (inv_std_scaler (z_of r) (shift_of r) (scale_of r)) = shape x.
Proof.
  intros r.
  destruct (std_scaler_shapes x mask (shape x) dim d eps eq_refl Hm eq_refl rt_lt)
    as (Hz & Hsh & Hsc).
  apply (affine_shape _ _ _ (shape x) d); auto using rt_lt.
Qed.

Lemma robust_roundtrip_shape :
  let r := robust_scaler x mask dim eps in
  shape (inv_robust_scaler (z_of r) (shift_of r) (scale_of r)) = shape x.
Proof.
  intros r.
  destruct (robust_scaler_shapes x mask (shape x) dim d eps eq_refl Hm eq_refl rt_lt)
    as (Hz & Hsh & Hsc).
  apply (affine_shape _ _ _ (shape x) d); auto using rt_lt.
Qed.

Lemma invariant_roundtrip_shape :
  let r := invariant_scaler x mask dim eps in
  shape (inv_invariant_scaler (z_of r) (shift_of r) (scale_of r)) = shape x.
Proof.
  intros r.
  destruct (robust_scaler_shapes x mask (shape x) dim d eps eq_refl Hm eq_refl rt_lt)
    as (Hz & Hsh & Hsc).
  apply (affine_shape _ _ _ (shape x) d); auto using rt_lt.
Qed.

Lemma minmax_roundtrip_shape :
  let r := minmax_scaler x mask eps dim in
  shape (inv_minmax_scaler (z_of r) (shift_of r) (scale_of r)) = shape x.
Proof.
  intros r.
  destruct (minmax_scaler_shapes x mask (shape x) dim d eps eq_refl Hm eq_refl rt_lt)
    as (Hz & Hsh & Hsc).
  apply (affine_shape _ _ _ (shape x) d); auto using rt_lt.
Qed.

Lemma minmax1_roundtrip_shape :
  let r := minmax1_scaler x mask eps dim in
  shape (inv_minmax1_scaler (z_of r) (shift_of r) (scale_of r)) = shape x.
Proof.
  intros r.
  destruct (minmax_scaler_shapes x mask (shape x) dim d eps eq_refl Hm eq_refl rt_lt)
    as (Hz & Hsh & Hsc).
  apply (affine_shape _ _ _ (shape x) d); auto using rt_lt.
Qed.

Hypothesis Hv : has_valid mask d j.

Lemma minmax_z_at_stats :
  let r := minmax_scaler x mask eps dim in
  data (z_of r) (set_at d k j)
  = Float.div (Float.sub (data x (set_at d k j)) (data (shift_of r) j))
              (data (scale_of r) j).
Proof.
  intros r. unfold r.
  rewrite (minmax_scaler_z_at x mask (shape x) dim d j eps)
    by (auto using rt_lt, rt_j, rt_k).
  rewrite <- (minmax_scaler_shift_at x mask (shape x) dim d j eps)
    by (auto using rt_lt, rt_j).
  rewrite <- (minmax_scaler_scale_at x mask (shape x) dim d j eps)
    by (auto using rt_lt, rt_j).
  reflexivity.
Qed.

End Roundtrip.

(* ================================================================= *)
(** ** The facade *)

Import TemporalNorm.

Section Facade.

#[local] Arguments set_at : simpl never.

Lemma init_ok st dim eps :
  In st scaler_types ->
  exists f g, lookup st scalers = Some f /\ lookup st inverse_scalers = Some g
              /\ init st dim eps = inr (mk f g st dim eps None None).
Proof.
  intros H. cbn in H.
  repeat (destruct H as [<- | H];
          [do 2 eexists; repeat split; reflexivity|]).
  contradiction.
Qed.

(** What [transform] leaves in the instance. *)
Lemma transform_fields self x mask :
  let r := scaler self x mask (dim self) (eps self) in
  let s' := snd (transform self x mask) in
  fst (transform self x mask) = z_of r
  /\ scaler s' = scaler self /\ inverse_scaler s' = inverse_scaler self
  /\ dim s' = dim self /\ eps s' = eps self
  /\ x_shift s' = Some (shift_of r) /\ x_scale s' = Some (scale_of r).
Proof.
  unfold transform.
  destruct (scaler self x mask (dim self) (eps self)) as [[z sh] sc].
  cbn. repeat split.
Qed.

End Facade.

(** C8: on an instance fresh from the constructor [inverse_transform]
    without statistics fails with [StatePrecondition]; with both
    statistics supplied it succeeds on any instance and applies the
    inverse scaler to them; after a [transform] it succeeds without
    statistics and applies the inverse scaler to those this [transform]
    stored. *)
Theorem inverse_transform_statistics :
  forall (st : option string) (dim : Z) (eps : R) (self : t)
         (z : tensor float),
    init st dim eps = inr self ->
    inverse_transform self z None None = inl StatePrecondition
    /\ (forall (any : t) (shift scale : tensor float),
          inverse_transform any z (Some shift) (Some scale)
          = inr (inverse_scaler any z shift scale))
    /\ (forall (any : t) (x : tensor float) (mask : tensor bool),
          let r := scaler any x mask (TemporalNorm.dim any) (TemporalNorm.eps any) in
          inverse_transform (snd (transform any x mask)) z None None
          = inr (inverse_scaler any z (shift_of r) (scale_of r))).
Proof.
  intros st dim eps self z Hinit.
  split; [|split].
  - unfold init in Hinit.
    destruct (lookup st scalers), (lookup st inverse_scalers);
      try discriminate.
    injection Hinit as <-. reflexivity.
  - intros any shift scale. reflexivity.
  - intros any x mask r.
    destruct (transform_fields any x mask) as (_ & _ & Eg & _ & _ & Esh & Esc).
    unfold inverse_transform. rewrite Esh, Esc, Eg. reflexivity.
Qed.

(** The small tensors [vec] and [bvec] satisfy what the statements ask. *)
Section Examples.

Lemma vec_finite l : finite (vec l).
Proof.
  intros idx Hi. cbn in *.
  inversion Hi as [|i n l1 l2 Hlt Hnil]; subst. cbn.
  rewrite length_map in Hlt.
  exists (nth i l 0).
  rewrite (nth_indep _ NaN (Fin 0)) by (rewrite length_map; exact Hlt).
  apply (map_nth Fin).
Qed.

Lemma vec_within b l :
  (forall r, In r l -> Rabs r <= b) -> within b (vec l).
Proof.
  intros H idx Hi. cbn in *.
  inversion Hi as [|i n l1 l2 Hlt Hnil]; subst. cbn.
  rewrite length_map in Hlt.
  exists (nth i l 0). split.
  - rewrite (nth_indep _ NaN (Fin 0)) by (rewrite length_map; exact Hlt).
    apply (map_nth Fin).
  - apply H, nth_In, Hlt.
Qed.

Lemma thousand_le_1e38 : 1000 <= 10 ^ 38.
Proof.
  replace 1000 with (10 ^ 3) by (cbn; lra).
  apply Rle_pow; [lra | lia].
Qed.

End Examples.

Section SmallExamples.

Lemma vec_small l :
  (forall r, In r l -> Rabs r <= sentinel / 2) -> small (vec l).
Proof.
  intros H idx Hi. cbn in *.
  inversion Hi as [|i n l1 l2 Hlt Hnil]; subst. cbn.
  rewrite length_map in Hlt.
  exists (nth i l 0). split.
  - rewrite (nth_indep _ NaN (Fin 0)) by (rewrite length_map; exact Hlt).
    apply (map_nth Fin).
  - apply H, nth_In, Hlt.
Qed.

End SmallExamples.

Lemma inverse_transform_statistics_witness :
  inverse_transform
    (mk robust_scaler inv_robust_scaler (Some "robust"%string) (-1)
        (1 / 1000000) None None)
    (vec [0; 1]) None None
  = inl StatePrecondition.
Proof.
  exact (proj1 (inverse_transform_statistics
                  (Some "robust"%string) (-1) (1 / 1000000)
                  (mk robust_scaler inv_robust_scaler (Some "robust"%string)
                      (-1) (1 / 1000000) None None)
                  (vec [0; 1]) eq_refl)).
Defined.

(* ================================================================= *)
(** ** Range of the min-max scalers *)

Section Range.

Lemma ratio_bounds eps mn mx r :
  0 <= eps -> mn <= r <= mx ->
  0 < rguard eps (mx - mn)
  /\ 0 <= (r - mn) / rguard eps (mx - mn) <= 1.
Proof.
  intros Heps Hr.
  assert (Hc : 0 < rguard eps (mx - mn))
    by (pose proof (rguard_pos eps (mx - mn)); lra).
  split; [exact Hc|].
  assert (Hle : r - mn <= rguard eps (mx - mn))
    by (unfold rguard; destruct (Req_dec_T (mx - mn) 0); lra).
  set (c := rguard eps (mx - mn)) in *.
  assert (Hi : 0 < / c) by (apply Rinv_0_lt_compat, Hc).
  assert (Hci : c * / c = 1) by (field; lra).
  unfold Rdiv. split; nra.
Qed.

End Range.

(** C6, as the code has it: at every valid position of an input whose
    entries are numbers of magnitude at most [1e38], with [eps >= 0], the
    output of the min-max scaler lies in [0, 1] and that of the minmax1
    scaler in [-1, 1].  (A valid position makes its slice not
    all-invalid.  The bound keeps [max - min] inside the binary32 range:
    beyond it the range overflows.) *)
Theorem minmax_range_bounds :
  forall (x : tensor float) (mask : tensor bool) (dim : Z) (eps : R)
         (idx : list nat),
    shape mask = shape x ->
    dim_ok (shape x) dim ->
    0 <= eps ->
    within (10 ^ 38) x ->
    inb (shape x) idx ->
    data mask idx = true ->
    (exists z, data (z_of (minmax_scaler x mask eps dim)) idx = Fin z
               /\ 0 <= z <= 1)
    /\ (exists z, data (z_of (minmax1_scaler x mask eps dim)) idx = Fin z
                  /\ -1 <= z <= 1).
Proof.
  intros x mask dim eps idx Hm Hdim Heps Hw Hi Hvalid.
  assert (Hf : finite x).
  { intros i Hin. destruct (Hw i Hin) as [r [Hr _]]. exists r. exact Hr. }
  set (d := norm_dim (length (shape x)) dim).
  assert (Hlt : (d < length (shape x))%nat) by (apply norm_dim_lt, Hdim).
  set (j := set_at d 0%nat idx).
  set (k := nth d idx 0%nat).
  assert (Hj : inb (set_at d 1%nat (shape x)) j) by (apply idx_stat; assumption).
  assert (Hk : (k < nth d (shape x) 0)%nat) by (apply idx_pos; assumption).
  assert (Hidx : set_at d k j = idx) by (apply (idx_split (shape x)); assumption).
  assert (Hv : has_valid mask d j).
  { unfold has_valid, slice. apply in_map_iff. exists k.
    split; [rewrite Hidx; exact Hvalid | apply in_seq; rewrite Hm; lia]. }
  destruct (minmax_stats x mask dim eps j Hm Hdim Hj Hf Hv)
    as (Em & Ec & Hb & Hpos).
  destruct (Hf idx Hi) as [r Hr].
  assert (Hin : In r (select (finite_values (slice x d j)) (slice mask d j))).
  { assert (H : In (Fin r) (valid_entries x mask d j)).
    { apply valid_entries_In; [rewrite Hm; reflexivity|].
      exists k. rewrite Hidx. repeat split; [exact Hk | exact Hvalid | symmetry; exact Hr]. }
    pose proof (valid_reals x mask dim j Hdim Hj Hf) as Ev.
    fold d in Ev. rewrite Ev in H.
    apply in_map_iff in H. destruct H as [r' [E H]].
    injection E as ->. exact H. }
  subst k j d.
  destruct (ratio_bounds eps _ _ r Heps (Hb r Hin)) as [Hc Hz].
  pose proof (minmax_z_at_stats x mask dim eps idx Hm Hdim Hi) as Ez.
  cbn zeta in Ez. rewrite Hidx in Ez.
  rewrite Em, Ec, Hr in Ez. cbn [Float.div Float.sub lift2] in Ez.
  destruct (Req_dec_T _ 0) as [H|_] in Ez; [lra|].
  split.
  - eexists. split; [exact Ez | exact Hz].
  - change (data (z_of (minmax1_scaler x mask eps dim)) idx)
      with (Float.sub (Float.mul (data (z_of (minmax_scaler x mask eps dim)) idx)
                                 (Fin 2)) (Fin 1)).
    rewrite Ez. cbn [Float.sub Float.mul lift2].
    eexists. split; [reflexivity | lra].
Qed.

Lemma minmax_range_bounds_witness :
  (exists z, data (z_of (minmax_scaler (vec [3; 7; 100])
                           (bvec [true; true; false]) (1 / 1000000) (-1)))
                  [1%nat] = Fin z /\ 0 <= z <= 1)
  /\ (exists z, data (z_of (minmax1_scaler (vec [3; 7; 100])
                              (bvec [true; true; false]) (1 / 1000000) (-1)))
                     [1%nat] = Fin z /\ -1 <= z <= 1).
Proof.
  apply (minmax_range_bounds (vec [3; 7; 100]) (bvec [true; true; false])
                             (-1) (1 / 1000000) [1%nat]).
  - reflexivity.
  - unfold dim_ok; cbn; lia.
  - lra.
  - apply vec_within. intros r Hr.
    pose proof thousand_le_1e38 as Hb.
    destruct Hr as [<- | [<- | [<- | []]]]; rewrite Rabs_pos_eq by lra; lra.
  - repeat constructor.
  - reflexivity.
Defined.

(** C6 as stated fails in binary32: on the slice 3e38, -3e38, 0, every
    entry a number and valid, [max - min] overflows to an infinity, the
    scale is that infinity, and the first entry of [z] is
    [infinity / infinity], which is NaN and lies in no interval. *)
Lemma minmax_overflow_binary32 :
  Forall (fun v => F32.is_finite v = true)
         [F32.of_Z (3 * 10 ^ 38); F32.of_Z (- 3 * 10 ^ 38); F32.zero]
  /\ data (bvec [true; true; true]) [0%nat] = true
  /\ data (scale_of (F32.minmax_scaler
                       (F32.vec [F32.of_Z (3 * 10 ^ 38);
                                 F32.of_Z (- 3 * 10 ^ 38); F32.zero])
                       (bvec [true; true; true]) (F32.of_ratio 1 1000000) (-1)))
          [0%nat] = S754_infinity false
  /\ data (z_of (F32.minmax_scaler
                   (F32.vec [F32.of_Z (3 * 10 ^ 38);
                             F32.of_Z (- 3 * 10 ^ 38); F32.zero])
                   (bvec [true; true; true]) (F32.of_ratio 1 1000000) (-1)))
          [0%nat] = F32.nan
  /\ data (z_of (F32.minmax1_scaler
                   (F32.vec [F32.of_Z (3 * 10 ^ 38);
                             F32.of_Z (- 3 * 10 ^ 38); F32.zero])
                   (bvec [true; true; true]) (F32.of_ratio 1 1000000) (-1)))
          [0%nat] = F32.nan.
Proof.
  repeat split; try (vm_compute; reflexivity).
  repeat constructor.
Qed.

(* ================================================================= *)
(** ** Entries at invalid positions *)

Section SmallFacts.

#[local] Arguments set_at : simpl never.

Variables (x : tensor float) (mask : tensor bool) (dim : Z) (eps : R).
Variable j : list nat.
Hypothesis Hm : shape mask = shape x.
Hypothesis Hdim : dim_ok (shape x) dim.

Let d := norm_dim (length (shape x)) dim.

Hypothesis Hj : inb (set_at d 1%nat (shape x)) j.
Hypothesis Hs : small x.
Hypothesis Hv : has_valid mask d j.

Lemma small_finite : finite x.
Proof. intros idx Hi. destruct (Hs idx Hi) as [r [E _]]. exists r. exact E. Qed.

Lemma small_slice r :
  In r (finite_values (slice x d j)) -> Rabs r <= sentinel / 2.
Proof.
  intros H. apply finite_values_In in H. unfold slice in H.
  apply in_map_iff in H. destruct H as [k [E Hk]]. apply in_seq in Hk.
  destruct (Hs (set_at d k j)) as [r' [E' Hr']].
  - apply inb_unstat; [exact Hj | apply norm_dim_lt, Hdim | lia].
  - fold d in E. rewrite E' in E. injection E as <-. exact Hr'.
Qed.

(** With small entries no invalid one wins: the statistics of the
    min-max scalers are the extrema of the valid entries. *)
Lemma minmax_stats_small :
  let V := finite_values (valid_entries x mask d j) in
  data (shift_of (minmax_scaler x mask eps dim)) j = Fin (rminl V)
  /\ data (scale_of (minmax_scaler x mask eps dim)) j
     = Fin (rguard eps (rmaxl V - rminl V)).
Proof.
  intros V.
  pose proof small_finite as Hf.
  destruct (minmax_stats x mask dim eps j Hm Hdim Hj Hf Hv) as (Em & Ec & _ & _).
  pose proof (valid_reals_nonempty x mask dim j Hm Hdim Hj Hf Hv) as Hne.
  assert (EV : V = select (finite_values (slice x d j)) (slice mask d j)).
  { unfold V. unfold d. rewrite (valid_reals x mask dim j Hdim Hj Hf).
    apply finite_values_Fin. }
  fold d in Em, Ec, Hne.
  assert (Hw : exists w, In w (select (finite_values (slice x d j)) (slice mask d j))).
  { destruct (select (finite_values (slice x d j)) (slice mask d j)) as [|w l];
      [contradiction | exists w; left; reflexivity]. }
  destruct Hw as [w Hw].
  assert (Hwb : Rabs w <= sentinel / 2) by (eapply small_slice, select_In, Hw).
  assert (Hmin : rminl (pushed sentinel (finite_values (slice x d j)) (slice mask d j))
                 = rminl V).
  { rewrite EV. apply pushed_min_select; [exact Hne|].
    intros v Hin. exists w. split; [exact Hw|].
    assert (Rabs v <= sentinel / 2) by (eapply small_slice, select_In, Hin).
    unfold Rabs in *. destruct (Rcase_abs v), (Rcase_abs w); lra. }
  assert (Hmax : rmaxl (pushed (- sentinel) (finite_values (slice x d j)) (slice mask d j))
                 = rmaxl V).
  { rewrite EV. apply pushed_max_select; [exact Hne|].
    intros v Hin. exists w. split; [exact Hw|].
    assert (Rabs v <= sentinel / 2) by (eapply small_slice, select_In, Hin).
    unfold Rabs in *. destruct (Rcase_abs v), (Rcase_abs w); lra. }
  rewrite Hmin in Em, Ec. rewrite Hmax in Ec.
  split; assumption.
Qed.

End SmallFacts.

Section Invariance.

#[local] Arguments set_at : simpl never.

Variables (x x' : tensor float) (mask : tensor bool) (dim : Z) (eps : R).
Hypothesis Hx' : shape x' = shape x.
Hypothesis Hm : shape mask = shape x.
Hypothesis Hdim : dim_ok (shape x) dim.
Hypothesis Hagree : agree_on_valid x x' mask.

Let d := norm_dim (length (shape x)) dim.

Lemma inv_lt : (d < length (shape x))%nat.
Proof. apply norm_dim_lt, Hdim. Qed.

Lemma inv_Hm' : shape mask = shape x'.
Proof. rewrite Hx'. exact Hm. Qed.

Lemma inv_Hdim' : dim_ok (shape x') dim.
Proof. rewrite Hx'. exact Hdim. Qed.

Lemma valid_entries_agree j :
  inb (set_at d 1%nat (shape x)) j ->
  valid_entries x mask d j = valid_entries x' mask d j.
Proof.
  intros Hj. unfold valid_entries, slice. rewrite Hx', <- Hm.
  assert (H : forall k, In k (seq 0 (nth d (shape mask) 0%nat)) ->
            data mask (set_at d k j) = true ->
            data x (set_at d k j) = data x' (set_at d k j)).
  { intros k Hk Hv. apply in_seq in Hk. apply Hagree; [|exact Hv].
    apply inb_unstat; [exact Hj | apply inv_lt | rewrite <- Hm; lia]. }
  induction (seq 0 (nth d (shape mask) 0%nat)) as [|k l IH]; [reflexivity|].
  cbn. destruct (data mask (set_at d k j)) eqn:E.
  - rewrite (H k) by (try (left; reflexivity); exact E).
    f_equal. apply IH. intros; apply H; [right|]; assumption.
  - apply IH. intros; apply H; [right|]; assumption.
Qed.

Lemma identity_invariant :
  masked_invariant (identity_scaler x mask dim eps)
                   (identity_scaler x' mask dim eps) mask (shape x) d.
Proof.
  unfold masked_invariant, identity_scaler, rank. cbn [z_of shift_of scale_of fst snd].
  rewrite Hx'. repeat split.
  intros idx Hi Hv. apply Hagree; assumption.
Qed.

Lemma std_invariant :
  masked_invariant (std_scaler x mask dim eps)
                   (std_scaler x' mask dim eps) mask (shape x) d.
Proof.
  destruct (std_scaler_shapes x mask (shape x) dim d eps eq_refl Hm eq_refl inv_lt)
    as (_ & S1 & S2).
  destruct (std_scaler_shapes x' mask (shape x) dim d eps Hx' Hm eq_refl inv_lt)
    as (_ & S1' & S2').
  assert (Hstat : forall j, inb (set_at d 1%nat (shape x)) j ->
    data (shift_of (std_scaler x mask dim eps)) j
      = data (shift_of (std_scaler x' mask dim eps)) j
    /\ data (scale_of (std_scaler x mask dim eps)) j
      = data (scale_of (std_scaler x' mask dim eps)) j).
  { intros j Hj.
    rewrite (std_scaler_shift_at x mask (shape x) dim d j eps),
            (std_scaler_scale_at x mask (shape x) dim d j eps),
            (std_scaler_shift_at x' mask (shape x) dim d j eps),
            (std_scaler_scale_at x' mask (shape x) dim d j eps);
      auto using inv_lt.
    fold (valid_entries x mask d j) (valid_entries x' mask d j).
    rewrite (valid_entries_agree j Hj). split; reflexivity. }
  unfold masked_invariant.
  split; [congruence | split; [congruence | split; [exact Hstat|]]].
  intros idx Hi Hv.
  pose proof (idx_stat (shape x) d idx inv_lt Hi) as Hj.
  pose proof (idx_pos (shape x) d idx inv_lt Hi) as Hk.
  pose proof (idx_split (shape x) d idx inv_lt Hi) as E.
  rewrite <- E.
  rewrite (std_scaler_z_at x mask (shape x) dim d _ eps),
          (std_scaler_z_at x' mask (shape x) dim d _ eps);
    auto using inv_lt.
  rewrite <- (std_scaler_shift_at x mask (shape x) dim d _ eps),
          <- (std_scaler_scale_at x mask (shape x) dim d _ eps),
          <- (std_scaler_shift_at x' mask (shape x) dim d _ eps),
          <- (std_scaler_scale_at x' mask (shape x) dim d _ eps);
    auto using inv_lt.
  destruct (Hstat _ Hj) as [-> ->]. rewrite E.
  rewrite (Hagree idx Hi Hv). reflexivity.
Qed.

Lemma robust_invariant :
  masked_invariant (robust_scaler x mask dim eps)
                   (robust_scaler x' mask dim eps) mask (shape x) d.
Proof.
  destruct (robust_scaler_shapes x mask (shape x) dim d eps eq_refl Hm eq_refl inv_lt)
    as (_ & S1 & S2).
  destruct (robust_scaler_shapes x' mask (shape x) dim d eps Hx' Hm eq_refl inv_lt)
    as (_ & S1' & S2').
  assert (Hstat : forall j, inb (set_at d 1%nat (shape x)) j ->
    data (shift_of (robust_scaler x mask dim eps)) j
      = data (shift_of (robust_scaler x' mask dim eps)) j
    /\ data (scale_of (robust_scaler x mask dim eps)) j
      = data (scale_of (robust_scaler x' mask dim eps)) j).
  { intros j Hj.
    rewrite (robust_scaler_shift_at x mask (shape x) dim d j eps),
            (robust_scaler_scale_at x mask (shape x) dim d j eps),
            (robust_scaler_shift_at x' mask (shape x) dim d j eps),
            (robust_scaler_scale_at x' mask (shape x) dim d j eps);
      auto using inv_lt.
    fold (valid_entries x mask d j) (valid_entries x' mask d j).
    rewrite (valid_entries_agree j Hj). split; reflexivity. }
  unfold masked_invariant.
  split; [congruence | split; [congruence | split; [exact Hstat|]]].
  intros idx Hi Hv.
  pose proof (idx_stat (shape x) d idx inv_lt Hi) as Hj.
  pose proof (idx_pos (shape x) d idx inv_lt Hi) as Hk.
  pose proof (idx_split (shape x) d idx inv_lt Hi) as E.
  rewrite <- E.
  rewrite (robust_scaler_z_at x mask (shape x) dim d _ eps),
          (robust_scaler_z_at x' mask (shape x) dim d _ eps);
    auto using inv_lt.
  rewrite <- (robust_scaler_shift_at x mask (shape x) dim d _ eps),
          <- (robust_scaler_scale_at x mask (shape x) dim d _ eps),
          <- (robust_scaler_shift_at x' mask (shape x) dim d _ eps),
          <- (robust_scaler_scale_at x' mask (shape x) dim d _ eps);
    auto using inv_lt.
  destruct (Hstat _ Hj) as [-> ->]. rewrite E.
  rewrite (Hagree idx Hi Hv). reflexivity.
Qed.

Lemma invariant_invariant :
  masked_invariant (invariant_scaler x mask dim eps)
                   (invariant_scaler x' mask dim eps) mask (shape x) d.
Proof.
  destruct robust_invariant as (S1 & S2 & Hstat & Hz).
  unfold masked_invariant.
  split; [exact S1 | split; [exact S2 | split; [exact Hstat|]]].
  intros idx Hi Hv.
  change (Float.arcsinh (data (z_of (robust_scaler x mask dim eps)) idx)
          = Float.arcsinh (data (z_of (robust_scaler x' mask dim eps)) idx)).
  rewrite (Hz idx Hi Hv). reflexivity.
Qed.

Hypothesis Hs : small x.
Hypothesis Hs' : small x'.
Hypothesis Hmask : mask_ok mask d.

Lemma minmax_invariant :
  masked_invariant (minmax_scaler x mask eps dim)
                   (minmax_scaler x' mask eps dim) mask (shape x) d.
Proof.
  destruct (minmax_scaler_shapes x mask (shape x) dim d eps eq_refl Hm eq_refl inv_lt)
    as (_ & S1 & S2).
  destruct (minmax_scaler_shapes x' mask (shape x) dim d eps Hx' Hm eq_refl inv_lt)
    as (_ & S1' & S2').
  assert (Hstat : forall j, inb (set_at d 1%nat (shape x)) j ->
    data (shift_of (minmax_scaler x mask eps dim)) j
      = data (shift_of (minmax_scaler x' mask eps dim)) j
    /\ data (scale_of (minmax_scaler x mask eps dim)) j
      = data (scale_of (minmax_scaler x' mask eps dim)) j).
  { intros j Hj.
    assert (Hv : has_valid mask d j) by (apply Hmask; rewrite Hm; exact Hj).
    destruct (minmax_stats_small x mask dim eps j Hm Hdim Hj Hs Hv) as [E1 E2].
    assert (Hj' : inb (set_at (norm_dim (length (shape x')) dim) 1%nat (shape x')) j)
      by (rewrite Hx'; exact Hj).
    assert (Hv' : has_valid mask (norm_dim (length (shape x')) dim) j)
      by (rewrite Hx'; exact Hv).
    destruct (minmax_stats_small x' mask dim eps j inv_Hm' inv_Hdim' Hj' Hs' Hv')
      as [E1' E2'].
    rewrite Hx' in E1', E2'. fold d in E1, E2, E1', E2'.
    rewrite <- (valid_entries_agree j Hj) in E1', E2'.
    rewrite E1, E2, E1', E2'. split; reflexivity. }
  unfold masked_invariant.
  split; [congruence | split; [congruence | split; [exact Hstat|]]].
  intros idx Hi Hv.
  pose proof (idx_stat (shape x) d idx inv_lt Hi) as Hj.
  pose proof (idx_pos (shape x) d idx inv_lt Hi) as Hk.
  pose proof (idx_split (shape x) d idx inv_lt Hi) as E.
  rewrite <- E.
  rewrite (minmax_scaler_z_at x mask (shape x) dim d _ eps),
          (minmax_scaler_z_at x' mask (shape x) dim d _ eps);
    auto using inv_lt.
  rewrite <- (minmax_scaler_shift_at x mask (shape x) dim d _ eps),
          <- (minmax_scaler_scale_at x mask (shape x) dim d _ eps),
          <- (minmax_scaler_shift_at x' mask (shape x) dim d _ eps),
          <- (minmax_scaler_scale_at x' mask (shape x) dim d _ eps);
    auto using inv_lt.
  destruct (Hstat _ Hj) as [-> ->]. rewrite E.
  rewrite (Hagree idx Hi Hv). reflexivity.
Qed.

Lemma minmax1_invariant :
  masked_invariant (minmax1_scaler x mask eps dim)
                   (minmax1_scaler x' mask eps dim) mask (shape x) d.
Proof.
  destruct minmax_invariant as (S1 & S2 & Hstat & Hz).
  unfold masked_invariant.
  split; [exact S1 | split; [exact S2 | split; [exact Hstat|]]].
  intros idx Hi Hv.
  change (Float.sub (Float.mul (data (z_of (minmax_scaler x mask eps dim)) idx)
                               (Fin 2)) (Fin 1)
          = Float.sub (Float.mul (data (z_of (minmax_scaler x' mask eps dim)) idx)
                                 (Fin 2)) (Fin 1)).
  rewrite (Hz idx Hi Hv). reflexivity.
Qed.

End Invariance.

(** C3, as the code has it: when [x] and [x'] agree at every valid
    position, the identity, standard, robust and invariant scalers return
    the same statistics for both and the same output at every valid
    position; the min-max scalers do so when, in addition, every slice
    has a valid entry and every entry of [x] and of [x'], invalid ones
    included, has magnitude at most half the sentinel. *)
Theorem masked_entry_invariance :
  forall (x x' : tensor float) (mask : tensor bool) (dim : Z) (eps : R),
    shape x' = shape x ->
    shape mask = shape x ->
    dim_ok (shape x) dim ->
    agree_on_valid x x' mask ->
    let d := norm_dim (length (shape x)) dim in
    masked_invariant (identity_scaler x mask dim eps)
                     (identity_scaler x' mask dim eps) mask (shape x) d
    /\ masked_invariant (std_scaler x mask dim eps)
                        (std_scaler x' mask dim eps) mask (shape x) d
    /\ masked_invariant (robust_scaler x mask dim eps)
                        (robust_scaler x' mask dim eps) mask (shape x) d
    /\ masked_invariant (invariant_scaler x mask dim eps)
                        (invariant_scaler x' mask dim eps) mask (shape x) d
    /\ (small x -> small x' -> mask_ok mask d ->
        masked_invariant (minmax_scaler x mask eps dim)
                         (minmax_scaler x' mask eps dim) mask (shape x) d
        /\ masked_invariant (minmax1_scaler x mask eps dim)
                            (minmax1_scaler x' mask eps dim) mask (shape x) d).
Proof.
  intros x x' mask dim eps Hx' Hm Hdim Hagree d.
  split; [apply identity_invariant; assumption|].
  split; [apply std_invariant; assumption|].
  split; [apply robust_invariant; assumption|].
  split; [apply invariant_invariant; assumption|].
  intros Hs Hs' Hmask.
  split; [apply minmax_invariant | apply minmax1_invariant]; assumption.
Qed.

Section InvarianceExamples.

Lemma agree_first_two a b c c' :
  agree_on_valid (vec [a; b; c]) (vec [a; b; c']) (bvec [true; true; false]).
Proof.
  intros idx _. cbn.
  destruct (hd 0%nat idx) as [|[|[|n]]]; cbn; try discriminate; reflexivity.
Qed.

End InvarianceExamples.

Lemma masked_entry_invariance_witness :
  masked_invariant
    (std_scaler (vec [0; 1; 7]) (bvec [true; true; false]) (-1) (1 / 1000000))
    (std_scaler (vec [0; 1; 9]) (bvec [true; true; false]) (-1) (1 / 1000000))
    (bvec [true; true; false]) (shape (vec [0; 1; 7])) 0.
Proof.
  refine (proj1 (proj2 (masked_entry_invariance
            (vec [0; 1; 7]) (vec [0; 1; 9]) (bvec [true; true; false])
            (-1) (1 / 1000000) _ _ _ _))).
  - reflexivity.
  - reflexivity.
  - unfold dim_ok; cbn; lia.
  - apply agree_first_two.
Defined.

(** C3 as stated fails for the min-max scaler: the slices 0, 1, -3e12 and
    0, 1, 0 with the third entry invalid agree at the valid positions,
    but the first has the minimum -3e12 + 1e12, taken at the invalid
    entry, and the second the minimum 0. *)
Lemma minmax_invalid_entry_changes_shift :
  let x := vec [0; 1; -3000000000000] in
  let x' := vec [0; 1; 0] in
  let mask := bvec [true; true; false] in
  agree_on_valid x x' mask
  /\ finite x /\ finite x'
  /\ ~ masked_invariant (minmax_scaler x mask (1 / 1000000) (-1))
                        (minmax_scaler x' mask (1 / 1000000) (-1))
                        mask (shape x) 0.
Proof.
  intros x x' mask.
  split; [apply agree_first_two|].
  split; [apply vec_finite|]. split; [apply vec_finite|].
  intros (_ & _ & Hstat & _).
  assert (Hj : inb (set_at 0 1%nat (shape x)) [0%nat]) by (repeat constructor).
  destruct (Hstat [0%nat] Hj) as [E _].
  assert (Hd : 0%nat = norm_dim (length [3%nat]) (-1)) by reflexivity.
  assert (Hlt : (0 < length [3%nat])%nat) by (cbn; lia).
  rewrite (minmax_scaler_shift_at x mask [3%nat] (-1) 0 [0%nat]) in E
    by (try assumption; reflexivity).
  rewrite (minmax_scaler_shift_at x' mask [3%nat] (-1) 0 [0%nat]) in E
    by (try assumption; reflexivity).
  change (slice x 0 [0%nat]) with [Fin 0; Fin 1; Fin (-3000000000000)] in E.
  change (slice x' 0 [0%nat]) with [Fin 0; Fin 1; Fin 0] in E.
  change (slice mask 0 [0%nat]) with [true; true; false] in E.
  unfold min1 in E.
  cbn [map zip_with push is0 negb of_bool Float.mul Float.add lift2 amin
       fold_left Float.min] in E.
  injection E as E. unfold sentinel in E.
  rewrite !(Rmin_left (0 + 0 * 1000000000000)) in E by lra.
  rewrite Rmin_right in E by lra.
  rewrite Rmin_left in E by lra.
  lra.
Qed.

(* ================================================================= *)
(** ** The functions on small inputs *)

Section SmallInputs.

Let eps6 : R := 1 / 1000000.

(** The side conditions of the slice lemmas on a concrete tensor. *)
Ltac side := first [reflexivity | assumption | (cbn; lia) | (repeat constructor)].

(** The mean of 0, 7, 5 with the 7 masked out is 5/2. *)
Example masked_mean_skips_invalid :
  data (masked_mean (vec [0; 7; 5]) (bvec [true; false; true]) (-1) true)
       [0%nat] = Fin (5 / 2).
Proof.
  rewrite (masked_mean_at _ _ [3%nat] (-1) 0 [0%nat]) by side.
  rewrite mean1_real.
  change (finite_values
            (select (slice (vec [0; 7; 5]) 0 [0%nat])
                    (slice (bvec [true; false; true]) 0 [0%nat])))
    with [0; 5].
  f_equal. cbn. lra.
Qed.

(** With [keepdim] off the dimension is removed and the same mean is read
    at the empty index. *)
Example masked_mean_drops_dim :
  shape (masked_mean (vec [0; 7; 5]) (bvec [true; false; true]) (-1) false) = []
  /\ data (masked_mean (vec [0; 7; 5]) (bvec [true; false; true]) (-1) false) []
     = Fin (5 / 2).
Proof.
  split; [reflexivity|].
  rewrite (masked_mean_drop _ _ [3%nat] (-1) 0) by reflexivity.
  apply masked_mean_skips_invalid.
Qed.

(** A slice with no valid entry has median 0. *)
Example masked_median_all_invalid :
  data (masked_median (vec [3; 4]) (bvec [false; false]) (-1) true) [0%nat]
  = Fin 0.
Proof.
  rewrite (masked_median_at _ _ [2%nat] (-1) 0 [0%nat]) by side.
  reflexivity.
Qed.

(** The median of 3, 1, 2, 9 (the 8 is masked out) is 2, the lower of
    the middle entries 2 and 3. *)
Example masked_median_lower_middle :
  data (masked_median (vec [3; 1; 8; 2; 9])
                      (bvec [true; true; false; true; true]) (-1) true) [0%nat]
  = Fin 2.
Proof.
  rewrite (masked_median_at _ _ [5%nat] (-1) 0 [0%nat]) by side.
  rewrite median1_real.
  change (finite_values
            (select (slice (vec [3; 1; 8; 2; 9]) 0 [0%nat])
                    (slice (bvec [true; true; false; true; true]) 0 [0%nat])))
    with [3; 1; 2; 9].
  f_equal.
  rewrite (rmedian_sorted [3; 1; 2; 9] [1; 2; 3; 9]);
    [reflexivity | discriminate | repeat constructor; lra|].
  apply perm_trans with [1; 3; 2; 9]; [apply perm_skip, perm_swap | apply perm_swap].
Qed.

(** The min-max scaler on 3, 7, 100 with the 100 masked out: shift 3,
    scale 4 + eps, and the masked entry is scaled with them all the
    same. *)
Example minmax_scaler_small :
  let r := minmax_scaler (vec [3; 7; 100]) (bvec [true; true; false]) eps6 (-1) in
  data (shift_of r) [0%nat] = Fin 3
  /\ data (scale_of r) [0%nat] = Fin (4 + eps6)
  /\ data (z_of r) [2%nat] = Fin ((100 - 3) / (4 + eps6)).
Proof.
  intros r.
  assert (Hj : inb (set_at 0 1%nat [3%nat]) [0%nat]) by (repeat constructor).
  assert (Hlt : (0 < length [3%nat])%nat) by (cbn; lia).
  assert (Hmin : min1 (slice (vec [3; 7; 100]) 0 [0%nat])
                      (slice (bvec [true; true; false]) 0 [0%nat]) = Fin 3).
  { unfold min1.
    change (slice (vec [3; 7; 100]) 0 [0%nat]) with [Fin 3; Fin 7; Fin 100].
    change (slice (bvec [true; true; false]) 0 [0%nat]) with [true; true; false].
    cbn [map zip_with push is0 negb of_bool Float.mul Float.add lift2 amin
         fold_left Float.min].
    f_equal. unfold sentinel.
    rewrite (Rmin_left (3 + 0 * 1000000000000)) by lra.
    rewrite Rmin_left by lra. lra. }
  assert (Hmax : max1 (slice (vec [3; 7; 100]) 0 [0%nat])
                      (slice (bvec [true; true; false]) 0 [0%nat]) = Fin 7).
  { unfold max1.
    change (slice (vec [3; 7; 100]) 0 [0%nat]) with [Fin 3; Fin 7; Fin 100].
    change (slice (bvec [true; true; false]) 0 [0%nat]) with [true; true; false].
    cbn [map zip_with push is0 negb of_bool Float.mul Float.add lift2 amax
         fold_left Float.max].
    f_equal. unfold sentinel.
    rewrite (Rmax_right (3 + 0 * - 1000000000000)) by lra.
    rewrite Rmax_left by lra. lra. }
  assert (Hsc : data (scale_of r) [0%nat] = Fin (4 + eps6)).
  { unfold r.
    rewrite (minmax_scaler_scale_at _ _ [3%nat] (-1) 0 [0%nat])
      by side.
    unfold range1. rewrite Hmin, Hmax. cbn [Float.sub lift2].
    rewrite guard_real. f_equal. rewrite rguard_nonzero by lra. lra. }
  assert (Hsh : data (shift_of r) [0%nat] = Fin 3).
  { unfold r.
    rewrite (minmax_scaler_shift_at _ _ [3%nat] (-1) 0 [0%nat])
      by side.
    exact Hmin. }
  split; [exact Hsh | split; [exact Hsc|]].
  change [2%nat] with (set_at 0 2%nat [0%nat]).
  unfold r.
  rewrite (minmax_scaler_z_at _ _ [3%nat] (-1) 0 [0%nat])
    by side.
  unfold range1. rewrite Hmin, Hmax.
  change (data (vec [3; 7; 100]) (set_at 0 2%nat [0%nat])) with (Fin 100).
  cbn [Float.sub lift2]. rewrite guard_real, rguard_nonzero by lra.
  cbn [Float.div].
  destruct (Req_dec_T (7 - 3 + eps6) 0) as [H|_]; [unfold eps6 in H; lra|].
  f_equal. f_equal. lra.
Qed.

(** An unknown name is refused by the constructor. *)
Example init_unknown_name :
  init (Some "median"%string) (-1) eps6 = inl InvalidConfiguration.
Proof. reflexivity. Qed.

End SmallInputs.

(* ================================================================= *)
(** ** The constructor and the cached statistics *)

Section Registry.

Lemma key_eqb_eq a b : key_eqb a b = true <-> a = b.
Proof.
  destruct a as [s|], b as [t|]; cbn; try (split; congruence).
  rewrite String.eqb_eq. split; congruence.
Qed.

Lemma lookup_Some_key {V} k (d : list (option string * V)) v :
  lookup k d = Some v -> In k (map fst d).
Proof.
  induction d as [|[k' v'] d IH]; cbn; [discriminate|].
  destruct (key_eqb k k') eqn:E.
  - intros _. left. symmetry. apply key_eqb_eq, E.
  - intros H. right. apply IH, H.
Qed.

End Registry.

(** X1: the constructor accepts exactly the seven names of the two
    tables ([None] among them): for these it returns an instance holding
    the scaler and the inverse scaler entered under the name, the
    configuration, and no statistics; for every other name it fails with
    [InvalidConfiguration]. *)
Theorem init_accepts_exactly :
  forall (st : option string) (dim : Z) (eps : R),
    (In st scaler_types <->
     exists f g,
       lookup st scalers = Some f /\ lookup st inverse_scalers = Some g
       /\ init st dim eps = inr (mk f g st dim eps None None))
    /\ (~ In st scaler_types <-> init st dim eps = inl InvalidConfiguration).
Proof.
  intros st dim eps.
  assert (Hin : forall f, lookup st scalers = Some f -> In st scaler_types)
    by (intros f Hf; exact (lookup_Some_key st scalers f Hf)).
  split; split.
  - apply init_ok.
  - intros (f & g & Hf & _ & _). exact (Hin f Hf).
  - intros Hn. unfold init.
    destruct (lookup st scalers) as [f|] eqn:Hf; [|reflexivity].
    exfalso. exact (Hn (Hin f eq_refl)).
  - intros Hi Hst. destruct (init_ok st dim eps Hst) as (f & g & _ & _ & E).
    rewrite E in Hi. discriminate.
Qed.

(** X2: each statistic of [inverse_transform] is resolved on its own: a
    fresh instance fails with [StatePrecondition] as soon as one of the
    two is left out; after a [transform] a supplied shift goes with the
    stored scale and a supplied scale with the stored shift. *)
Theorem inverse_transform_partial_statistics :
  forall (st : option string) (dim : Z) (eps : R) (self : t)
         (z given : tensor float) (x : tensor float) (mask : tensor bool),
    init st dim eps = inr self ->
    inverse_transform self z (Some given) None = inl StatePrecondition
    /\ inverse_transform self z None (Some given) = inl StatePrecondition
    /\ let r := scaler self x mask dim eps in
       let self' := snd (transform self x mask) in
       inverse_transform self' z (Some given) None
         = inr (inverse_scaler self z given (scale_of r))
       /\ inverse_transform self' z None (Some given)
         = inr (inverse_scaler self z (shift_of r) given).
Proof.
  intros st dim eps self z given x mask Hinit.
  unfold init in Hinit.
  destruct (lookup st scalers) as [f|], (lookup st inverse_scalers) as [g|];
    try discriminate.
  injection Hinit as <-.
  split; [reflexivity | split; [reflexivity|]].
  cbn zeta.
  destruct (transform_fields (mk f g st dim eps None None) x mask)
    as (_ & _ & Eg & _ & _ & Esh & Esc).
  cbn [scaler inverse_scaler TemporalNorm.dim TemporalNorm.eps] in *.
  unfold inverse_transform. rewrite Esh, Esc, Eg. split; reflexivity.
Qed.

Lemma inverse_transform_partial_statistics_witness :
  inverse_transform
    (mk std_scaler inv_std_scaler (Some "standard"%string) (-1) (1 / 1000000)
        None None)
    (vec [0; 1]) (Some (vec [5])) None
  = inl StatePrecondition.
Proof.
  exact (proj1 (inverse_transform_partial_statistics
                  (Some "standard"%string) (-1) (1 / 1000000)
                  (mk std_scaler inv_std_scaler (Some "standard"%string) (-1)
                      (1 / 1000000) None None)
                  (vec [0; 1]) (vec [5]) (vec [0; 1]) (bvec [true; true])
                  eq_refl)).
Defined.

(* ================================================================= *)
(** ** The entries of [z] as real numbers *)

Section ZReal.

#[local] Arguments set_at : simpl never.

Variables (x : tensor float) (mask : tensor bool) (dim : Z) (eps : R).
Variables (j : list nat) (k : nat) (r : R).
Hypothesis Hm : shape mask = shape x.
Hypothesis Hdim : dim_ok (shape x) dim.
Hypothesis Heps : 0 <= eps.

Let d := norm_dim (length (shape x)) dim.

Hypothesis Hj : inb (set_at d 1%nat (shape x)) j.
Hypothesis Hk : (k < nth d (shape x) 0)%nat.
Hypothesis Hr : data x (set_at d k j) = Fin r.

Let vs := finite_values (valid_entries x mask d j).

Lemma zr_lt : (d < length (shape x))%nat.
Proof. apply norm_dim_lt, Hdim. Qed.

Lemma div_real a m c :
  c <> 0 -> Float.div (Float.sub (Fin a) (Fin m)) (Fin c) = Fin ((a - m) / c).
Proof.
  intros Hc. cbn. destruct (Req_dec_T c 0); [contradiction | reflexivity].
Qed.

Lemma std_scale_pos : 0 < rguard eps (rstd vs).
Proof. pose proof (rguard_pos eps _ (rstd_nonneg vs)). lra. Qed.

Lemma robust_scale_pos :
  0 < rguard eps (rmad_or_aux (rmad vs) (rstd vs * mad_ratio)).
Proof. pose proof (rguard_pos eps _ (rmad_or_aux_nonneg vs)). lra. Qed.

Lemma std_z_real :
  data (z_of (std_scaler x mask dim eps)) (set_at d k j)
  = Fin ((r - rmean vs) / rguard eps (rstd vs)).
Proof.
  rewrite (std_scaler_z_at x mask (shape x) dim d j eps)
    by (auto using zr_lt).
  fold (valid_entries x mask d j).
  rewrite Hr, mean1_real, std1_real, guard_real.
  apply div_real. pose proof std_scale_pos. fold vs. lra.
Qed.

Lemma robust_z_real :
  data (z_of (robust_scaler x mask dim eps)) (set_at d k j)
  = Fin ((r - rmedian vs)
         / rguard eps (rmad_or_aux (rmad vs) (rstd vs * mad_ratio))).
Proof.
  rewrite (robust_scaler_z_at x mask (shape x) dim d j eps)
    by (auto using zr_lt).
  fold (valid_entries x mask d j).
  rewrite Hr, median1_real, robust_scale1_real.
  apply div_real. pose proof robust_scale_pos. fold vs. lra.
Qed.

Lemma invariant_z_real :
  data (z_of (invariant_scaler x mask dim eps)) (set_at d k j)
  = Fin (Rpower.arcsinh
           ((r - rmedian vs)
            / rguard eps (rmad_or_aux (rmad vs) (rstd vs * mad_ratio)))).
Proof.
  change (data (z_of (invariant_scaler x mask dim eps)) (set_at d k j))
    with (Float.arcsinh (data (z_of (robust_scaler x mask dim eps)) (set_at d k j))).
  rewrite robust_z_real. reflexivity.
Qed.

Hypothesis Hf : finite x.
Hypothesis Hv : has_valid mask d j.

Let rs := finite_values (slice x d j).
Let ms := slice mask d j.
Let mn := rminl (pushed sentinel rs ms).
Let mx := rmaxl (pushed (- sentinel) rs ms).

Lemma minmax_scale_pos : 0 < rguard eps (mx - mn).
Proof.
  destruct (minmax_stats x mask dim eps j Hm Hdim Hj Hf Hv) as (_ & _ & _ & Hpos).
  pose proof (rguard_pos eps _ Hpos). unfold mx, mn, rs, ms, d. lra.
Qed.

Lemma minmax_z_real :
  data (z_of (minmax_scaler x mask eps dim)) (set_at d k j)
  = Fin ((r - mn) / rguard eps (mx - mn)).
Proof.
  destruct (minmax_stats x mask dim eps j Hm Hdim Hj Hf Hv) as (Em & Ec & _ & _).
  rewrite (minmax_scaler_z_at x mask (shape x) dim d j eps)
    by (auto using zr_lt).
  rewrite <- (minmax_scaler_shift_at x mask (shape x) dim d j eps),
          <- (minmax_scaler_scale_at x mask (shape x) dim d j eps)
    by (auto using zr_lt).
  rewrite Em, Ec, Hr.
  apply div_real. pose proof minmax_scale_pos. unfold mx, mn, rs, ms, d in *. lra.
Qed.

Lemma minmax1_z_real :
  data (z_of (minmax1_scaler x mask eps dim)) (set_at d k j)
  = Fin ((r - mn) / rguard eps (mx - mn) * 2 - 1).
Proof.
  change (data (z_of (minmax1_scaler x mask eps dim)) (set_at d k j))
    with (Float.sub (Float.mul (data (z_of (minmax_scaler x mask eps dim))
                                     (set_at d k j)) (Fin 2)) (Fin 1)).
  rewrite minmax_z_real. reflexivity.
Qed.

End ZReal.

(* ================================================================= *)
(** ** Shapes, finiteness and order *)

(** X4: every scaler returns [z] of the shape of [x] and a shift and a
    scale of that shape with [dim] collapsed to size 1, and every inverse
    scaler applied to them returns a tensor of the shape of [x]. *)
Theorem scaler_shape_contract :
  forall (x : tensor float) (mask : tensor bool) (dim : Z) (eps : R),
    shape mask = shape x ->
    dim_ok (shape x) dim ->
    let d := norm_dim (length (shape x)) dim in
    let back (g : inverse_fn) (r : tensor float * tensor float * tensor float) :=
      shape (g (z_of r) (shift_of r) (scale_of r)) = shape x in
    (shape_contract (identity_scaler x mask dim eps) (shape x) d
     /\ back inv_identity_scaler (identity_scaler x mask dim eps))
    /\ (shape_contract (std_scaler x mask dim eps) (shape x) d
        /\ back inv_std_scaler (std_scaler x mask dim eps))
    /\ (shape_contract (robust_scaler x mask dim eps) (shape x) d
        /\ back inv_robust_scaler (robust_scaler x mask dim eps))
    /\ (shape_contract (invariant_scaler x mask dim eps) (shape x) d
        /\ back inv_invariant_scaler (invariant_scaler x mask dim eps))
    /\ (shape_contract (minmax_scaler x mask eps dim) (shape x) d
        /\ back inv_minmax_scaler (minmax_scaler x mask eps dim))
    /\ (shape_contract (minmax1_scaler x mask eps dim) (shape x) d
        /\ back inv_minmax1_scaler (minmax1_scaler x mask eps dim)).
Proof.
  intros x mask dim eps Hm Hdim d back.
  assert (Hlt : (d < length (shape x))%nat) by (apply norm_dim_lt, Hdim).
  pose proof (std_scaler_shapes x mask (shape x) dim d eps eq_refl Hm eq_refl Hlt) as S1.
  pose proof (robust_scaler_shapes x mask (shape x) dim d eps eq_refl Hm eq_refl Hlt) as S2.
  pose proof (minmax_scaler_shapes x mask (shape x) dim d eps eq_refl Hm eq_refl Hlt) as S3.
  unfold back, shape_contract.
  repeat split; try (apply S1); try (apply S2); try (apply S3).
  - apply std_roundtrip_shape; assumption.
  - apply robust_roundtrip_shape; assumption.
  - apply invariant_roundtrip_shape; assumption.
  - apply minmax_roundtrip_shape; assumption.
  - apply minmax1_roundtrip_shape; assumption.
Qed.

Lemma scaler_shape_contract_witness :
  shape_contract (robust_scaler np_x np_mask 1 (1 / 1000000)) [2; 36; 2]%nat 1
  /\ shape (scale_of (robust_scaler np_x np_mask 1 (1 / 1000000))) = [2; 1; 2]%nat.
Proof.
  assert (H : shape_contract (robust_scaler np_x np_mask 1 (1 / 1000000))
                             [2; 36; 2]%nat 1).
  { refine (proj1 (proj1 (proj2 (proj2 (scaler_shape_contract
              np_x np_mask 1 (1 / 1000000) _ _))))).
    - reflexivity.
    - unfold dim_ok; cbn; lia. }
  split; [exact H | exact (proj2 (proj2 H))].
Defined.

Section AtEntry.

#[local] Arguments set_at : simpl never.

Variables (x : tensor float) (dim : Z) (idx : list nat).
Hypothesis Hdim : dim_ok (shape x) dim.
Hypothesis Hi : inb (shape x) idx.

Let d := norm_dim (length (shape x)) dim.

Lemma entry_j : inb (set_at d 1%nat (shape x)) (set_at d 0%nat idx).
Proof. apply idx_stat; [apply norm_dim_lt, Hdim | exact Hi]. Qed.

Lemma entry_k : (nth d idx 0 < nth d (shape x) 0)%nat.
Proof. apply idx_pos; [apply norm_dim_lt, Hdim | exact Hi]. Qed.

Lemma entry_idx : set_at d (nth d idx 0%nat) (set_at d 0%nat idx) = idx.
Proof. apply (idx_split (shape x)); [apply norm_dim_lt, Hdim | exact Hi]. Qed.

End AtEntry.

(** X5: on an input whose entries are numbers of magnitude at most half
    the sentinel, and with [eps >= 0], no scaler produces a NaN: no entry
    of [z] of the standard, robust and invariant scalers is NaN, whatever
    the mask, and neither is an entry of [z] of the min-max scalers in a
    slice that has a valid entry. *)
Theorem scaler_outputs_not_nan :
  forall (x : tensor float) (mask : tensor bool) (dim : Z) (eps : R)
         (idx : list nat),
    shape mask = shape x ->
    dim_ok (shape x) dim ->
    0 <= eps ->
    small x ->
    inb (shape x) idx ->
    let d := norm_dim (length (shape x)) dim in
    data (z_of (std_scaler x mask dim eps)) idx <> NaN
    /\ data (z_of (robust_scaler x mask dim eps)) idx <> NaN
    /\ data (z_of (invariant_scaler x mask dim eps)) idx <> NaN
    /\ (has_valid mask d (set_at d 0%nat idx) ->
        data (z_of (minmax_scaler x mask eps dim)) idx <> NaN
        /\ data (z_of (minmax1_scaler x mask eps dim)) idx <> NaN).
Proof.
  intros x mask dim eps idx Hm Hdim Heps Hs Hi d.
  pose proof (small_finite x Hs) as Hf.
  pose proof (entry_j x dim idx Hdim Hi) as Hj.
  pose proof (entry_k x dim idx Hdim Hi) as Hk.
  pose proof (entry_idx x dim idx Hdim Hi) as E.
  destruct (Hf idx Hi) as [r Hr].
  assert (Hr' : data x (set_at (norm_dim (length (shape x)) dim)
                          (nth (norm_dim (length (shape x)) dim) idx 0%nat)
                          (set_at (norm_dim (length (shape x)) dim) 0%nat idx))
                = Fin r) by (rewrite E; exact Hr).
  pose proof (std_z_real x mask dim eps _ _ r Hm Hdim Heps Hj Hk Hr') as Z1.
  pose proof (robust_z_real x mask dim eps _ _ r Hm Hdim Heps Hj Hk Hr') as Z2.
  pose proof (invariant_z_real x mask dim eps _ _ r Hm Hdim Heps Hj Hk Hr') as Z3.
  rewrite E in Z1, Z2, Z3.
  split; [rewrite Z1; discriminate|].
  split; [rewrite Z2; discriminate|].
  split; [rewrite Z3; discriminate|].
  intros Hv.
  pose proof (minmax_z_real x mask dim eps _ _ r Hm Hdim Heps Hj Hk Hr' Hf Hv) as Z4.
  pose proof (minmax1_z_real x mask dim eps _ _ r Hm Hdim Heps Hj Hk Hr' Hf Hv) as Z5.
  rewrite E in Z4, Z5.
  split; [rewrite Z4 | rewrite Z5]; discriminate.
Qed.

Lemma scaler_outputs_not_nan_witness :
  data (z_of (minmax_scaler (vec [4; 9; 1]) (bvec [true; false; true])
                            (1 / 1000000) (-1))) [1%nat] <> NaN.
Proof.
  refine (proj1 (proj2 (proj2 (proj2 (scaler_outputs_not_nan
            (vec [4; 9; 1]) (bvec [true; false; true]) (-1) (1 / 1000000)
            [1%nat] _ _ _ _ _))) _)).
  - reflexivity.
  - unfold dim_ok; cbn; lia.
  - lra.
  - apply vec_small. unfold sentinel.
    intros r [<- | [<- | [<- | []]]]; rewrite Rabs_pos_eq; lra.
  - repeat constructor.
  - unfold has_valid. cbn. left. reflexivity.
Defined.

Section Monotone.

Lemma ratio_mono m c a b :
  0 < c -> a <= b -> (a - m) / c <= (b - m) / c.
Proof.
  intros Hc H. assert (Hi : 0 < / c) by (apply Rinv_0_lt_compat, Hc).
  unfold Rdiv. nra.
Qed.

End Monotone.

(** X8: the standard, robust and min-max scalers keep the order of the
    entries of a slice, valid or not: of two entries [a <= b] of one
    slice, the output at the place of [a] is at most the output at the
    place of [b] (for the min-max scalers in a slice of a finite input
    that has a valid entry).  Two distinct entries may come out equal:
    only the weak order is kept. *)
Theorem scalers_preserve_order :
  forall (x : tensor float) (mask : tensor bool) (dim : Z) (eps : R)
         (j : list nat) (k1 k2 : nat) (a b : R),
    shape mask = shape x ->
    dim_ok (shape x) dim ->
    0 <= eps ->
    let d := norm_dim (length (shape x)) dim in
    inb (set_at d 1%nat (shape x)) j ->
    (k1 < nth d (shape x) 0)%nat ->
    (k2 < nth d (shape x) 0)%nat ->
    data x (set_at d k1 j) = Fin a ->
    data x (set_at d k2 j) = Fin b ->
    let i1 := set_at d k1 j in
    let i2 := set_at d k2 j in
    ordered_at (z_of (std_scaler x mask dim eps)) i1 i2 a b
    /\ ordered_at (z_of (robust_scaler x mask dim eps)) i1 i2 a b
    /\ (finite x -> has_valid mask d j ->
        ordered_at (z_of (minmax_scaler x mask eps dim)) i1 i2 a b
        /\ ordered_at (z_of (minmax1_scaler x mask eps dim)) i1 i2 a b).
Proof.
  intros x mask dim eps j k1 k2 a b Hm Hdim Heps d Hj Hk1 Hk2 Ha Hb i1 i2.
  unfold ordered_at.
  split; [|split].
  - intros za zb Ea Eb Hab. unfold i1, d in Ea. unfold i2, d in Eb.
    rewrite (std_z_real x mask dim eps j k1 a) in Ea by assumption.
    rewrite (std_z_real x mask dim eps j k2 b) in Eb by assumption.
    injection Ea as <-. injection Eb as <-.
    apply ratio_mono; [apply std_scale_pos, Heps | exact Hab].
  - intros za zb Ea Eb Hab. unfold i1, d in Ea. unfold i2, d in Eb.
    rewrite (robust_z_real x mask dim eps j k1 a) in Ea by assumption.
    rewrite (robust_z_real x mask dim eps j k2 b) in Eb by assumption.
    injection Ea as <-. injection Eb as <-.
    apply ratio_mono; [apply robust_scale_pos, Heps | exact Hab].
  - intros Hf Hv.
    pose proof (minmax_scale_pos x mask dim eps j Hm Hdim Heps Hj Hf Hv) as Hc.
    split.
    + intros za zb Ea Eb Hab. unfold i1, d in Ea. unfold i2, d in Eb.
      rewrite (minmax_z_real x mask dim eps j k1 a) in Ea by assumption.
      rewrite (minmax_z_real x mask dim eps j k2 b) in Eb by assumption.
      injection Ea as <-. injection Eb as <-.
      apply ratio_mono; [exact Hc | exact Hab].
    + intros za zb Ea Eb Hab. unfold i1, d in Ea. unfold i2, d in Eb.
      rewrite (minmax1_z_real x mask dim eps j k1 a) in Ea by assumption.
      rewrite (minmax1_z_real x mask dim eps j k2 b) in Eb by assumption.
      injection Ea as <-. injection Eb as <-.
      pose proof (ratio_mono
        (rminl (pushed sentinel (finite_values (slice x d j)) (slice mask d j)))
        _ a b Hc Hab) as Hle.
      lra.
Qed.

Lemma scalers_preserve_order_witness :
  ordered_at (z_of (std_scaler (vec [4; 9; 1]) (bvec [true; false; true]) (-1)
                               (1 / 1000000)))
             [2%nat] [1%nat] 1 9.
Proof.
  refine (proj1 (scalers_preserve_order
            (vec [4; 9; 1]) (bvec [true; false; true]) (-1) (1 / 1000000)
            [0%nat] 2 1 1 9 _ _ _ _ _ _ _ _)).
  - reflexivity.
  - unfold dim_ok; cbn; lia.
  - lra.
  - repeat constructor.
  - cbn; lia.
  - cbn; lia.
  - reflexivity.
  - reflexivity.
Defined.

(* ================================================================= *)
(** ** Slices without a valid entry, and slices that are not degenerate *)

(** X12: in a slice with no valid entry the standard, robust and
    invariant scalers fall back to shift 0 and scale [1 + eps], so that
    (with [eps >= 0]) a finite entry [r] of the slice becomes
    [r / (1 + eps)], and its [arcsinh] for the invariant scaler. *)
Theorem all_invalid_slice_statistics :
  forall (x : tensor float) (mask : tensor bool) (dim : Z) (eps : R)
         (j : list nat),
    shape mask = shape x ->
    dim_ok (shape x) dim ->
    0 <= eps ->
    let d := norm_dim (length (shape x)) dim in
    inb (set_at d 1%nat (shape x)) j ->
    ~ has_valid mask d j ->
    (data (shift_of (std_scaler x mask dim eps)) j = Fin 0
     /\ data (scale_of (std_scaler x mask dim eps)) j = Fin (1 + eps))
    /\ (data (shift_of (robust_scaler x mask dim eps)) j = Fin 0
        /\ data (scale_of (robust_scaler x mask dim eps)) j = Fin (1 + eps))
    /\ (data (shift_of (invariant_scaler x mask dim eps)) j = Fin 0
        /\ data (scale_of (invariant_scaler x mask dim eps)) j = Fin (1 + eps))
    /\ forall k r, (k < nth d (shape x) 0)%nat ->
         data x (set_at d k j) = Fin r ->
         data (z_of (std_scaler x mask dim eps)) (set_at d k j)
           = Fin (r / (1 + eps))
         /\ data (z_of (robust_scaler x mask dim eps)) (set_at d k j)
           = Fin (r / (1 + eps))
         /\ data (z_of (invariant_scaler x mask dim eps)) (set_at d k j)
           = Fin (Rpower.arcsinh (r / (1 + eps))).
Proof.
  intros x mask dim eps j Hm Hdim Heps d Hj Hn.
  pose proof (no_valid_entries x mask d j Hn) as Hvs.
  assert (Hstd : rguard eps (rstd []) = 1 + eps).
  { unfold rstd. cbn. rewrite sqrt_0. apply rguard_zero. }
  assert (Hrob : rguard eps (rmad_or_aux (rmad []) (rstd [] * mad_ratio)) = 1 + eps).
  { unfold rmad_or_aux, rmad, rstd. cbn. rewrite sqrt_0.
    destruct (Req_dec_T 0 0) as [_|H]; [|contradiction].
    replace (0 * mad_ratio) with 0 by ring. apply rguard_zero. }
  destruct (std_stats_real x mask dim eps j Hm Hdim Hj) as [E1 E2].
  destruct (robust_stats_real x mask dim eps j Hm Hdim Hj) as [E3 E4].
  fold d in E1, E2, E3, E4. rewrite Hvs in E1, E2, E3, E4.
  cbn [finite_values] in E1, E2, E3, E4. rewrite Hstd in E2. rewrite Hrob in E4.
  split; [split; assumption|]. split; [split; assumption|].
  split; [split; assumption|].
  intros k r Hk Hr.
  pose proof (std_z_real x mask dim eps j k r Hm Hdim Heps Hj Hk Hr) as Z1.
  pose proof (robust_z_real x mask dim eps j k r Hm Hdim Heps Hj Hk Hr) as Z2.
  pose proof (invariant_z_real x mask dim eps j k r Hm Hdim Heps Hj Hk Hr) as Z3.
  fold d in Z1, Z2, Z3. rewrite Hvs in Z1, Z2, Z3.
  cbn [finite_values] in Z1, Z2, Z3.
  rewrite Hstd in Z1. rewrite Hrob in Z2, Z3.
  change (rmean []) with 0 in Z1. change (rmedian []) with 0 in Z2, Z3.
  rewrite Rminus_0_r in Z1, Z2, Z3.
  split; [exact Z1 | split; [exact Z2 | exact Z3]].
Qed.

Lemma all_invalid_slice_statistics_witness :
  data (shift_of (std_scaler (vec [4; 9]) (bvec [false; false]) (-1)
                             (1 / 1000000))) [0%nat] = Fin 0
  /\ data (scale_of (std_scaler (vec [4; 9]) (bvec [false; false]) (-1)
                                (1 / 1000000))) [0%nat]
     = Fin (1 + 1 / 1000000).
Proof.
  refine (proj1 (all_invalid_slice_statistics
            (vec [4; 9]) (bvec [false; false]) (-1) (1 / 1000000) [0%nat]
            _ _ _ _ _)).
  - reflexivity.
  - unfold dim_ok; cbn; lia.
  - lra.
  - repeat constructor.
  - unfold has_valid. cbn. intros [H | [H | H]]; try discriminate; exact H.
Defined.

(** X13: where the raw statistic of a slice is not zero the guard adds
    [eps] and nothing else: the standard scale is the masked standard
    deviation plus [eps], the robust and invariant scale the masked
    median deviation plus [eps]. *)
Theorem nondegenerate_scale :
  forall (x : tensor float) (mask : tensor bool) (dim : Z) (eps : R)
         (j : list nat) (sd mad : R),
    shape mask = shape x ->
    dim_ok (shape x) dim ->
    let d := norm_dim (length (shape x)) dim in
    inb (set_at d 1%nat (shape x)) j ->
    data (masked_std x mask dim) j = Fin sd ->
    data (raw_mad x mask dim) j = Fin mad ->
    (sd <> 0 ->
       data (scale_of (std_scaler x mask dim eps)) j = Fin (sd + eps))
    /\ (mad <> 0 ->
          data (scale_of (robust_scaler x mask dim eps)) j = Fin (mad + eps)
          /\ data (scale_of (invariant_scaler x mask dim eps)) j
             = Fin (mad + eps)).
Proof.
  intros x mask dim eps j sd mad Hm Hdim d Hj Hsd Hmad.
  assert (Hlt : (d < length (shape x))%nat) by (apply norm_dim_lt, Hdim).
  rewrite (masked_std_at x mask (shape x) dim d j) in Hsd by auto.
  rewrite (raw_mad_at x mask (shape x) dim d j) in Hmad by auto.
  rewrite std1_real in Hsd. rewrite mad1_real in Hmad.
  injection Hsd as Hsd. injection Hmad as Hmad.
  destruct (std_stats_real x mask dim eps j Hm Hdim Hj) as [_ E2].
  destruct (robust_stats_real x mask dim eps j Hm Hdim Hj) as [_ E4].
  fold d in E2, E4. fold (valid_entries x mask d j) in Hsd, Hmad.
  rewrite Hsd in E2. rewrite Hmad in E4.
  split.
  - intros H. rewrite rguard_nonzero in E2 by exact H. exact E2.
  - intros H. unfold rmad_or_aux in E4.
    destruct (Req_dec_T mad 0) as [H0|_]; [contradiction|].
    rewrite rguard_nonzero in E4 by exact H. split; exact E4.
Qed.

Lemma nondegenerate_scale_witness :
  (rstd [0; 1; 5] <> 0 ->
     data (scale_of (std_scaler (vec [0; 1; 5]) (bvec [true; true; true]) (-1)
                                (1 / 1000000))) [0%nat]
     = Fin (rstd [0; 1; 5] + 1 / 1000000))
  /\ (rmad [0; 1; 5] <> 0 ->
        data (scale_of (robust_scaler (vec [0; 1; 5]) (bvec [true; true; true])
                                      (-1) (1 / 1000000))) [0%nat]
        = Fin (rmad [0; 1; 5] + 1 / 1000000)
        /\ data (scale_of (invariant_scaler (vec [0; 1; 5])
                             (bvec [true; true; true]) (-1) (1 / 1000000)))
                [0%nat]
           = Fin (rmad [0; 1; 5] + 1 / 1000000)).
Proof.
  assert (Hj : inb (set_at 0 1%nat [3%nat]) [0%nat]) by (repeat constructor).
  assert (Hlt : (0 < length [3%nat])%nat) by (cbn; lia).
  apply (nondegenerate_scale (vec [0; 1; 5]) (bvec [true; true; true]) (-1)
                             (1 / 1000000) [0%nat]).
  - reflexivity.
  - unfold dim_ok; cbn; lia.
  - exact Hj.
  - rewrite (masked_std_at (vec [0; 1; 5]) (bvec [true; true; true]) [3%nat] (-1) 0
               [0%nat] eq_refl eq_refl eq_refl Hlt Hj).
    apply std1_real.
  - rewrite (raw_mad_at (vec [0; 1; 5]) (bvec [true; true; true]) [3%nat] (-1) 0
               [0%nat] eq_refl eq_refl eq_refl Hlt Hj).
    apply mad1_real.
Defined.

(* ================================================================= *)
(** ** A dimension counted from the end *)

Section DimEquiv.

#[local] Arguments set_at : simpl never.

Variables (x : tensor float) (mask : tensor bool) (dim dim' : Z) (eps : R).
Hypothesis Hm : shape mask = shape x.
Hypothesis Hdim : dim_ok (shape x) dim.
Hypothesis Heq :
  norm_dim (length (shape x)) dim' = norm_dim (length (shape x)) dim.

Let d := norm_dim (length (shape x)) dim.

Lemma de_lt : (d < length (shape x))%nat.
Proof. apply norm_dim_lt, Hdim. Qed.

Lemma de_d' : d = norm_dim (length (shape x)) dim'.
Proof. symmetry. exact Heq. Qed.

Lemma masked_mean_dim j :
  inb (set_at d 1%nat (shape x)) j ->
  data (masked_mean x mask dim true) j = data (masked_mean x mask dim' true) j.
Proof.
  intros Hj.
  rewrite (masked_mean_at x mask (shape x) dim d j),
          (masked_mean_at x mask (shape x) dim' d j);
    auto using de_lt, de_d'.
Qed.

Lemma masked_median_dim j :
  inb (set_at d 1%nat (shape x)) j ->
  data (masked_median x mask dim true) j = data (masked_median x mask dim' true) j.
Proof.
  intros Hj.
  rewrite (masked_median_at x mask (shape x) dim d j),
          (masked_median_at x mask (shape x) dim' d j);
    auto using de_lt, de_d'.
Qed.

Lemma identity_dim :
  same_result (identity_scaler x mask dim eps) (identity_scaler x mask dim' eps)
              (shape x) d.
Proof.
  unfold same_result, identity_scaler, rank.
  cbn [z_of shift_of scale_of fst snd]. rewrite Heq. repeat split.
Qed.

Lemma std_dim :
  same_result (std_scaler x mask dim eps) (std_scaler x mask dim' eps)
              (shape x) d.
Proof.
  destruct (std_scaler_shapes x mask (shape x) dim d eps eq_refl Hm eq_refl de_lt)
    as (S0 & S1 & S2).
  destruct (std_scaler_shapes x mask (shape x) dim' d eps eq_refl Hm de_d' de_lt)
    as (S0' & S1' & S2').
  unfold same_result.
  split; [congruence | split; [congruence | split; [congruence | split]]].
  - intros j Hj.
    rewrite (std_scaler_shift_at x mask (shape x) dim d j eps),
            (std_scaler_scale_at x mask (shape x) dim d j eps),
            (std_scaler_shift_at x mask (shape x) dim' d j eps),
            (std_scaler_scale_at x mask (shape x) dim' d j eps);
      auto using de_lt, de_d'.
  - intros idx Hi.
    pose proof (idx_stat (shape x) d idx de_lt Hi) as Hj.
    pose proof (idx_pos (shape x) d idx de_lt Hi) as Hk.
    rewrite <- (idx_split (shape x) d idx de_lt Hi).
    rewrite (std_scaler_z_at x mask (shape x) dim d _ eps),
            (std_scaler_z_at x mask (shape x) dim' d _ eps);
      auto using de_lt, de_d'.
Qed.

Lemma robust_dim :
  same_result (robust_scaler x mask dim eps) (robust_scaler x mask dim' eps)
              (shape x) d.
Proof.
  destruct (robust_scaler_shapes x mask (shape x) dim d eps eq_refl Hm eq_refl de_lt)
    as (S0 & S1 & S2).
  destruct (robust_scaler_shapes x mask (shape x) dim' d eps eq_refl Hm de_d' de_lt)
    as (S0' & S1' & S2').
  unfold same_result.
  split; [congruence | split; [congruence | split; [congruence | split]]].
  - intros j Hj.
    rewrite (robust_scaler_shift_at x mask (shape x) dim d j eps),
            (robust_scaler_scale_at x mask (shape x) dim d j eps),
            (robust_scaler_shift_at x mask (shape x) dim' d j eps),
            (robust_scaler_scale_at x mask (shape x) dim' d j eps);
      auto using de_lt, de_d'.
  - intros idx Hi.
    pose proof (idx_stat (shape x) d idx de_lt Hi) as Hj.
    pose proof (idx_pos (shape x) d idx de_lt Hi) as Hk.
    rewrite <- (idx_split (shape x) d idx de_lt Hi).
    rewrite (robust_scaler_z_at x mask (shape x) dim d _ eps),
            (robust_scaler_z_at x mask (shape x) dim' d _ eps);
      auto using de_lt, de_d'.
Qed.

Lemma invariant_dim :
  same_result (invariant_scaler x mask dim eps) (invariant_scaler x mask dim' eps)
              (shape x) d.
Proof.
  destruct robust_dim as (S0 & S1 & S2 & Hstat & Hz).
  unfold same_result.
  split; [exact S0 | split; [exact S1 | split; [exact S2 | split; [exact Hstat|]]]].
  intros idx Hi.
  change (Float.arcsinh (data (z_of (robust_scaler x mask dim eps)) idx)
          = Float.arcsinh (data (z_of (robust_scaler x mask dim' eps)) idx)).
  rewrite (Hz idx Hi). reflexivity.
Qed.

Lemma minmax_dim :
  same_result (minmax_scaler x mask eps dim) (minmax_scaler x mask eps dim')
              (shape x) d.
Proof.
  destruct (minmax_scaler_shapes x mask (shape x) dim d eps eq_refl Hm eq_refl de_lt)
    as (S0 & S1 & S2).
  destruct (minmax_scaler_shapes x mask (shape x) dim' d eps eq_refl Hm de_d' de_lt)
    as (S0' & S1' & S2').
  unfold same_result.
  split; [congruence | split; [congruence | split; [congruence | split]]].
  - intros j Hj.
    rewrite (minmax_scaler_shift_at x mask (shape x) dim d j eps),
            (minmax_scaler_scale_at x mask (shape x) dim d j eps),
            (minmax_scaler_shift_at x mask (shape x) dim' d j eps),
            (minmax_scaler_scale_at x mask (shape x) dim' d j eps);
      auto using de_lt, de_d'.
  - intros idx Hi.
    pose proof (idx_stat (shape x) d idx de_lt Hi) as Hj.
    pose proof (idx_pos (shape x) d idx de_lt Hi) as Hk.
    rewrite <- (idx_split (shape x) d idx de_lt Hi).
    rewrite (minmax_scaler_z_at x mask (shape x) dim d _ eps),
            (minmax_scaler_z_at x mask (shape x) dim' d _ eps);
      auto using de_lt, de_d'.
Qed.

Lemma minmax1_dim :
  same_result (minmax1_scaler x mask eps dim) (minmax1_scaler x mask eps dim')
              (shape x) d.
Proof.
  destruct minmax_dim as (S0 & S1 & S2 & Hstat & Hz).
  unfold same_result.
  split; [exact S0 | split; [exact S1 | split; [exact S2 | split; [exact Hstat|]]]].
  intros idx Hi.
  change (Float.sub (Float.mul (data (z_of (minmax_scaler x mask eps dim)) idx)
                               (Fin 2)) (Fin 1)
          = Float.sub (Float.mul (data (z_of (minmax_scaler x mask eps dim')) idx)
                                 (Fin 2)) (Fin 1)).
  rewrite (Hz idx Hi). reflexivity.
Qed.

End DimEquiv.

(** X16: a dimension may be counted from the front or from the end: for
    [0 <= dim < rank] the masked reductions and the six scalers return
    with [dim - rank] tensors of the same shapes and the same entries as
    with [dim]. *)
Theorem negative_dim_equivalence :
  forall (x : tensor float) (mask : tensor bool) (dim : Z) (eps : R),
    shape mask = shape x ->
    (0 <= dim < Z.of_nat (length (shape x)))%Z ->
    let dim' := (dim - Z.of_nat (length (shape x)))%Z in
    let d := Z.to_nat dim in
    (forall j, inb (set_at d 1%nat (shape x)) j ->
       data (masked_mean x mask dim true) j = data (masked_mean x mask dim' true) j
       /\ data (masked_median x mask dim true) j
          = data (masked_median x mask dim' true) j)
    /\ same_result (identity_scaler x mask dim eps)
                   (identity_scaler x mask dim' eps) (shape x) d
    /\ same_result (std_scaler x mask dim eps)
                   (std_scaler x mask dim' eps) (shape x) d
    /\ same_result (robust_scaler x mask dim eps)
                   (robust_scaler x mask dim' eps) (shape x) d
    /\ same_result (invariant_scaler x mask dim eps)
                   (invariant_scaler x mask dim' eps) (shape x) d
    /\ same_result (minmax_scaler x mask eps dim)
                   (minmax_scaler x mask eps dim') (shape x) d
    /\ same_result (minmax1_scaler x mask eps dim)
                   (minmax1_scaler x mask eps dim') (shape x) d.
Proof.
  intros x mask dim eps Hm Hd dim' d.
  assert (Hdim : dim_ok (shape x) dim) by (unfold dim_ok; lia).
  assert (Ed : norm_dim (length (shape x)) dim = d).
  { unfold norm_dim, d. destruct (Z.ltb_spec dim 0); [lia | reflexivity]. }
  assert (Heq : norm_dim (length (shape x)) dim' = norm_dim (length (shape x)) dim).
  { rewrite Ed. unfold norm_dim, dim', d.
    destruct (Z.ltb_spec (dim - Z.of_nat (length (shape x))) 0); [f_equal; lia | lia]. }
  rewrite <- Ed.
  split; [intros j Hj; split;
          [apply masked_mean_dim | apply masked_median_dim]; assumption|].
  split; [apply identity_dim; assumption|].
  split; [apply std_dim; assumption|].
  split; [apply robust_dim; assumption|].
  split; [apply invariant_dim; assumption|].
  split; [apply minmax_dim | apply minmax1_dim]; assumption.
Qed.

Lemma negative_dim_equivalence_witness :
  same_result (std_scaler np_x np_mask 1 (1 / 1000000))
              (std_scaler np_x np_mask (1 - Z.of_nat (length (shape np_x)))
                          (1 / 1000000))
              (shape np_x) (Z.to_nat 1).
Proof.
  refine (proj1 (proj2 (proj2 (negative_dim_equivalence
            np_x np_mask 1 (1 / 1000000) _ _)))).
  - reflexivity.
  - cbn; lia.
Defined.

(* ================================================================= *)
(** ** What the masked mean and median are *)

Section MeanMedian.

(** The entry of rank [k] of an increasing list splits it. *)
Lemma sorted_split s k :
  StronglySorted Rle s -> (k < length s)%nat ->
  exists lo hi,
    s = lo ++ nth k s 0 :: hi /\ length lo = k
    /\ Forall (fun y => y <= nth k s 0) lo
    /\ Forall (fun y => nth k s 0 <= y) hi.
Proof.
  intros Hs Hk.
  destruct (nth_split s 0 Hk) as (lo & hi & E & Hlo).
  exists lo, hi. split; [exact E | split; [exact Hlo|]].
  assert (Hlen : length s = (k + S (length hi))%nat).
  { rewrite E at 1. rewrite length_app. cbn. lia. }
  split; apply Forall_forall; intros y Hy;
    destruct (In_nth _ _ 0 Hy) as (i & Hi & <-).
  - replace (nth i lo 0) with (nth i s 0)
      by (rewrite E at 1; apply app_nth1; exact Hi).
    apply strongly_sorted_nth; [exact Hs | lia].
  - replace (nth i hi 0) with (nth (k + S i) s 0).
    + apply strongly_sorted_nth; [exact Hs | lia].
    + rewrite E at 1. rewrite app_nth2 by lia.
      replace (k + S i - length lo)%nat with (S i) by lia. reflexivity.
Qed.

Lemma upper_half n : (0 < n)%nat -> (n - 1 - (n - 1) / 2 = n / 2)%nat.
Proof.
  intros Hn.
  pose proof (Nat.div_mod_eq (n - 1) 2) as E.
  pose proof (Nat.mod_upper_bound (n - 1) 2) as Hr.
  assert (Hq : (n / 2 = (n - 1) / 2 + (n - 1) mod 2)%nat).
  { destruct (Nat.eq_dec ((n - 1) mod 2) 0) as [H0|H1].
    - rewrite H0. symmetry.
      apply (Nat.div_unique n 2 ((n - 1) / 2 + 0) 1); lia.
    - assert (H : ((n - 1) mod 2 = 1)%nat) by lia. rewrite H. symmetry.
      apply (Nat.div_unique n 2 ((n - 1) / 2 + 1) 0); lia. }
  lia.
Qed.

Lemma rmedian_splits rs :
  rs <> [] ->
  exists lo hi,
    Permutation rs (lo ++ rmedian rs :: hi)
    /\ Forall (fun y => y <= rmedian rs) lo
    /\ Forall (fun y => rmedian rs <= y) hi
    /\ length lo = ((length rs - 1) / 2)%nat
    /\ length hi = (length rs / 2)%nat.
Proof.
  intros Hne. unfold rmedian. destruct rs as [|a rs]; [contradiction|].
  set (l := a :: rs). set (k := ((length l - 1) / 2)%nat).
  assert (Hk : (k < length (sort l))%nat).
  { rewrite sort_length. unfold k, l. cbn [length].
    assert ((S (length rs) - 1) / 2 <= S (length rs) - 1)%nat
      by (apply Nat.Div0.div_le_upper_bound; lia).
    lia. }
  destruct (sorted_split (sort l) k (sorted_strongly _ (sort_sorted l)) Hk)
    as (lo & hi & E & Hlo & Hle & Hge).
  exists lo, hi.
  split; [rewrite <- E; symmetry; apply sort_perm|].
  split; [exact Hle | split; [exact Hge | split; [exact Hlo|]]].
  assert (Hlen : length (sort l) = (length lo + S (length hi))%nat)
    by (rewrite E at 1; rewrite length_app; reflexivity).
  rewrite sort_length in Hlen.
  rewrite <- (upper_half (length l)) by (unfold l; cbn; lia).
  fold k. lia.
Qed.

Lemma sort_perm_eq l l' : Permutation l l' -> sort l = sort l'.
Proof.
  intros H. apply sort_unique; [apply sort_sorted|].
  rewrite sort_perm. symmetry. exact H.
Qed.

Lemma rmedian_perm l l' : Permutation l l' -> rmedian l = rmedian l'.
Proof.
  intros H. unfold rmedian.
  destruct l as [|a l], l' as [|a' l'].
  - reflexivity.
  - apply Permutation_nil in H. discriminate.
  - apply Permutation_sym, Permutation_nil in H. discriminate.
  - rewrite (sort_perm_eq _ _ H), (Permutation_length H). reflexivity.
Qed.

Lemma rmad_perm l l' : Permutation l l' -> rmad l = rmad l'.
Proof.
  intros H. unfold rmad. rewrite (rmedian_perm _ _ H).
  apply rmedian_perm, Permutation_map, H.
Qed.

End MeanMedian.

(** X10: in a slice whose valid entries are finite and not none, the
    masked median is one of the valid entries, and so it lies between any
    two bounds of the valid entries. *)
Theorem masked_median_bounded :
  forall (x : tensor float) (mask : tensor bool) (dim : Z) (j : list nat)
         (rs : list R) (lo hi : R),
    shape mask = shape x ->
    dim_ok (shape x) dim ->
    let d := norm_dim (length (shape x)) dim in
    inb (set_at d 1%nat (shape x)) j ->
    valid_entries x mask d j = map Fin rs ->
    rs <> [] ->
    (forall r, In r rs -> lo <= r <= hi) ->
    exists median,
      data (masked_median x mask dim true) j = Fin median
      /\ In median rs
      /\ lo <= median <= hi.
Proof.
  intros x mask dim j rs lo hi Hm Hdim d Hj Hv Hne Hb.
  assert (Hlt : (d < length (shape x))%nat) by (apply norm_dim_lt, Hdim).
  exists (rmedian rs).
  rewrite (masked_median_at x mask (shape x) dim d j) by auto.
  fold (valid_entries x mask d j).
  rewrite median1_real, Hv, finite_values_Fin.
  pose proof (rmedian_In rs Hne) as Hin.
  split; [reflexivity | split; [exact Hin | apply Hb, Hin]].
Qed.

Lemma masked_median_bounded_witness :
  exists median,
    data (masked_median (vec [3; 1; 8; 2; 9])
            (bvec [true; true; false; true; true]) (-1) true) [0%nat]
    = Fin median
    /\ In median [3; 1; 2; 9]
    /\ 1 <= median <= 9.
Proof.
  apply (masked_median_bounded
           (vec [3; 1; 8; 2; 9]) (bvec [true; true; false; true; true]) (-1)
           [0%nat] [3; 1; 2; 9] 1 9).
  - reflexivity.
  - unfold dim_ok; cbn; lia.
  - repeat constructor.
  - reflexivity.
  - discriminate.
  - cbn. intros r [<- | [<- | [<- | [<- | []]]]]; lra.
Defined.

(** X9: the masked median splits the valid entries of its slice: the [n]
    finite valid entries are, in some order, [(n - 1) / 2] entries that
    are at most the median, the median itself, and [n / 2] entries that
    are at least the median. *)
Theorem masked_median_splits :
  forall (x : tensor float) (mask : tensor bool) (dim : Z) (j : list nat)
         (rs : list R),
    shape mask = shape x ->
    dim_ok (shape x) dim ->
    let d := norm_dim (length (shape x)) dim in
    inb (set_at d 1%nat (shape x)) j ->
    valid_entries x mask d j = map Fin rs ->
    rs <> [] ->
    exists median lo hi,
      data (masked_median x mask dim true) j = Fin median
      /\ Permutation rs (lo ++ median :: hi)
      /\ Forall (fun y => y <= median) lo
      /\ Forall (fun y => median <= y) hi
      /\ length lo = ((length rs - 1) / 2)%nat
      /\ length hi = (length rs / 2)%nat.
Proof.
  intros x mask dim j rs Hm Hdim d Hj Hv Hne.
  assert (Hlt : (d < length (shape x))%nat) by (apply norm_dim_lt, Hdim).
  destruct (rmedian_splits rs Hne) as (lo & hi & H).
  exists (rmedian rs), lo, hi.
  split; [|exact H].
  rewrite (masked_median_at x mask (shape x) dim d j) by auto.
  fold (valid_entries x mask d j).
  rewrite median1_real, Hv, finite_values_Fin. reflexivity.
Qed.

Lemma masked_median_splits_witness :
  exists median lo hi,
    data (masked_median (vec [3; 1; 8; 2; 9])
            (bvec [true; true; false; true; true]) (-1) true) [0%nat]
    = Fin median
    /\ Permutation [3; 1; 2; 9] (lo ++ median :: hi)
    /\ Forall (fun y => y <= median) lo
    /\ Forall (fun y => median <= y) hi
    /\ length lo = ((length [3; 1; 2; 9] - 1) / 2)%nat
    /\ length hi = (length [3; 1; 2; 9] / 2)%nat.
Proof.
  apply (masked_median_splits
           (vec [3; 1; 8; 2; 9]) (bvec [true; true; false; true; true]) (-1)
           [0%nat] [3; 1; 2; 9]).
  - reflexivity.
  - unfold dim_ok; cbn; lia.
  - repeat constructor.
  - reflexivity.
  - discriminate.
Defined.

(** X11: the statistics that are taken by rank depend on the valid
    entries of a slice as a multiset only: two slices, of any two inputs,
    whose valid entries are the same numbers in some order have the same
    masked median, the same median of the absolute deviations from it,
    and the same shift under the robust scaler. *)
Theorem rank_statistics_depend_on_multiset :
  forall (x x' : tensor float) (mask mask' : tensor bool) (dim dim' : Z)
         (eps : R) (j j' : list nat),
    shape mask = shape x -> shape mask' = shape x' ->
    dim_ok (shape x) dim -> dim_ok (shape x') dim' ->
    let d := norm_dim (length (shape x)) dim in
    let d' := norm_dim (length (shape x')) dim' in
    inb (set_at d 1%nat (shape x)) j ->
    inb (set_at d' 1%nat (shape x')) j' ->
    Permutation (finite_values (valid_entries x mask d j))
                (finite_values (valid_entries x' mask' d' j')) ->
    data (masked_median x mask dim true) j
    = data (masked_median x' mask' dim' true) j'
    /\ data (raw_mad x mask dim) j = data (raw_mad x' mask' dim') j'
    /\ data (shift_of (robust_scaler x mask dim eps)) j
       = data (shift_of (robust_scaler x' mask' dim' eps)) j'.
Proof.
  intros x x' mask mask' dim dim' eps j j' Hm Hm' Hdim Hdim' d d' Hj Hj' Hp.
  assert (Hlt : (d < length (shape x))%nat) by (apply norm_dim_lt, Hdim).
  assert (Hlt' : (d' < length (shape x'))%nat) by (apply norm_dim_lt, Hdim').
  destruct (robust_stats_real x mask dim eps j Hm Hdim Hj) as [E3 _].
  destruct (robust_stats_real x' mask' dim' eps j' Hm' Hdim' Hj') as [E3' _].
  rewrite (masked_median_at x mask (shape x) dim d j) by auto.
  rewrite (masked_median_at x' mask' (shape x') dim' d' j') by auto.
  rewrite (raw_mad_at x mask (shape x) dim d j) by auto.
  rewrite (raw_mad_at x' mask' (shape x') dim' d' j') by auto.
  rewrite E3, E3'.
  fold d d' (valid_entries x mask d j) (valid_entries x' mask' d' j').
  rewrite !median1_real, !mad1_real.
  rewrite (rmedian_perm _ _ Hp), (rmad_perm _ _ Hp).
  repeat split.
Qed.

Lemma rank_statistics_depend_on_multiset_witness :
  data (masked_median (vec [2; 3; 7; 1]) (bvec [true; true; false; true])
                      (-1) true) [0%nat]
  = data (masked_median (vec [3; 1; 2]) (bvec [true; true; true]) 0 true)
         [0%nat].
Proof.
  refine (proj1 (rank_statistics_depend_on_multiset
            (vec [2; 3; 7; 1]) (vec [3; 1; 2]) (bvec [true; true; false; true])
            (bvec [true; true; true]) (-1) 0 (1 / 1000000) [0%nat] [0%nat]
            _ _ _ _ _ _ _)).
  - reflexivity.
  - reflexivity.
  - unfold dim_ok; cbn; lia.
  - unfold dim_ok; cbn; lia.
  - repeat constructor.
  - repeat constructor.
  - apply (Permutation_cons_append [3; 1] 2).
Defined.

(* ================================================================= *)
(** ** The statistics of the output *)

Section Rescaled.

Lemma sorted_map g l :
  (forall a b, a <= b -> g a <= g b) -> Sorted Rle l -> Sorted Rle (map g l).
Proof.
  intros Hg. induction 1 as [|a l Hs IH Ha]; cbn; [constructor|].
  constructor; [exact IH|].
  destruct Ha as [|b l Hab]; cbn; constructor. apply Hg, Hab.
Qed.

(** A non-decreasing function of the entries goes through the median. *)
Lemma rmedian_map g rs :
  (forall a b, a <= b -> g a <= g b) -> rs <> [] ->
  rmedian (map g rs) = g (rmedian rs).
Proof.
  intros Hg Hne. destruct rs as [|a rs]; [contradiction|].
  unfold rmedian. cbn [map].
  rewrite <- (map_cons g), length_map.
  rewrite (sort_unique (map g (a :: rs)) (map g (sort (a :: rs))))
    by (try (apply sorted_map; [exact Hg | apply sort_sorted]);
        apply Permutation_map, sort_perm).
  rewrite (nth_indep _ 0 (g 0)).
  - apply map_nth.
  - rewrite length_map, sort_length. cbn [length].
    assert ((S (length rs) - 1) / 2 <= S (length rs) - 1)%nat
      by (apply Nat.Div0.div_le_upper_bound; lia).
    lia.
Qed.

Lemma centred_mono m c a b : 0 < c -> a <= b -> (a - m) / c <= (b - m) / c.
Proof. intros Hc H. apply (ratio_mono m c a b Hc H). Qed.

Lemma rmedian_centred c rs :
  0 < c -> rmedian (map (fun r => (r - rmedian rs) / c) rs) = 0.
Proof.
  intros Hc. destruct rs as [|a rs]; [reflexivity|].
  rewrite (rmedian_map (fun r => (r - rmedian (a :: rs)) / c))
    by (try discriminate; intros; apply centred_mono; assumption).
  field. lra.
Qed.

Lemma rmad_centred c rs :
  0 < c -> rmad (map (fun r => (r - rmedian rs) / c) rs) = rmad rs / c.
Proof.
  intros Hc. unfold rmad at 1.
  rewrite rmedian_centred by exact Hc. rewrite map_map.
  rewrite (map_ext _ (fun r => Rabs (r - rmedian rs) / c)).
  - rewrite <- (map_map (fun r => Rabs (r - rmedian rs)) (fun y => y / c)).
    destruct rs as [|a rs]; [cbn; unfold Rdiv; ring|].
    rewrite (rmedian_map (fun y => y / c)); [reflexivity | | discriminate].
    intros u v Huv. pose proof (centred_mono 0 c u v Hc Huv) as H.
    rewrite !Rminus_0_r in H. exact H.
  - intros r. rewrite Rminus_0_r. unfold Rdiv.
    rewrite Rabs_mult, (Rabs_right (/ c)); [reflexivity|].
    apply Rle_ge, Rlt_le, Rinv_0_lt_compat, Hc.
Qed.

Lemma rmedian_arcsinh_centred c rs :
  0 < c ->
  rmedian (map (fun r => Rpower.arcsinh ((r - rmedian rs) / c)) rs) = 0.
Proof.
  intros Hc. destruct rs as [|a rs]; [reflexivity|].
  rewrite (rmedian_map (fun r => Rpower.arcsinh ((r - rmedian (a :: rs)) / c)))
    by (try discriminate; intros; apply arcsinh_le, centred_mono; assumption).
  replace ((rmedian (a :: rs) - rmedian (a :: rs)) / c) with 0 by (field; lra).
  apply arcsinh_0.
Qed.

End Rescaled.

Section OutputEntries.

#[local] Arguments set_at : simpl never.

Variables (x : tensor float) (mask : tensor bool) (dim : Z) (j : list nat).
Hypothesis Hm : shape mask = shape x.
Hypothesis Hdim : dim_ok (shape x) dim.

Let d := norm_dim (length (shape x)) dim.

Hypothesis Hj : inb (set_at d 1%nat (shape x)) j.

Lemma oe_lt : (d < length (shape x))%nat.
Proof. apply norm_dim_lt, Hdim. Qed.

(** The valid entries of [(x - shift) / scale] are those of [x], centred
    and scaled. *)
Lemma ratio_valid_entries (shift scale : tensor float) :
  shape shift = set_at d 1%nat (shape x) ->
  shape scale = set_at d 1%nat (shape x) ->
  valid_entries (tdiv (tsub x shift) scale) mask d j
  = map (fun v => Float.div (Float.sub v (data shift j)) (data scale j))
        (valid_entries x mask d j).
Proof.
  intros Hsh Hsc. unfold valid_entries, tdiv.
  rewrite (slice_tzip_stat _ (tsub x shift) scale (shape x) d);
    [| apply (centred_shape x (shape x) d eq_refl oe_lt), Hsh
     | exact Hsc | apply oe_lt | exact Hj].
  unfold tsub.
  rewrite (slice_tzip_stat _ x shift (shape x) d)
    by (auto using oe_lt).
  rewrite map_map. apply select_map.
Qed.

End OutputEntries.

(** X7: the robust and the invariant scaler centre on the median: over
    the valid entries of each slice their output has masked median 0, and
    the output of the robust scaler has raw median deviation that of the
    input over the returned scale. *)
Theorem robust_scaler_centres_median :
  forall (x : tensor float) (mask : tensor bool) (dim : Z) (eps : R)
         (j : list nat),
    shape mask = shape x ->
    dim_ok (shape x) dim ->
    0 <= eps ->
    let d := norm_dim (length (shape x)) dim in
    inb (set_at d 1%nat (shape x)) j ->
    let z := z_of (robust_scaler x mask dim eps) in
    let zi := z_of (invariant_scaler x mask dim eps) in
    exists mad c,
      data (raw_mad x mask dim) j = Fin mad
      /\ data (scale_of (robust_scaler x mask dim eps)) j = Fin c
      /\ data (masked_median z mask dim true) j = Fin 0
      /\ data (raw_mad z mask dim) j = Fin (mad / c)
      /\ data (masked_median zi mask dim true) j = Fin 0.
Proof.
  intros x mask dim eps j Hm Hdim Heps d Hj z zi.
  assert (Hlt : (d < length (shape x))%nat) by (apply norm_dim_lt, Hdim).
  destruct (robust_scaler_shapes x mask (shape x) dim d eps eq_refl Hm eq_refl Hlt)
    as (Hz & Hsh & Hsc).
  destruct (robust_stats_real x mask dim eps j Hm Hdim Hj) as [Em Ec].
  fold d in Em, Ec.
  set (vs := finite_values (valid_entries x mask d j)) in *.
  pose proof (robust_scale_pos x mask dim eps j Heps) as Hc. fold d vs in Hc.
  set (c := rguard eps (rmad_or_aux (rmad vs) (rstd vs * mad_ratio))) in *.
  exists (rmad vs), c.
  assert (Hve : valid_entries z mask d j
                = map (fun v => Float.div (Float.sub v (Fin (rmedian vs))) (Fin c))
                      (valid_entries x mask d j)).
  { unfold z. rewrite <- Em, <- Ec.
    apply (ratio_valid_entries x mask dim j Hdim Hj); assumption. }
  assert (Hfv : finite_values (valid_entries z mask d j)
                = map (fun r => (r - rmedian vs) / c) vs).
  { rewrite Hve. apply finite_values_map;
      [intros r; apply div_real; lra | reflexivity]. }
  assert (Hfi : finite_values (valid_entries zi mask d j)
                = map (fun r => Rpower.arcsinh ((r - rmedian vs) / c)) vs).
  { unfold valid_entries.
    change (slice zi d j) with (slice (tmap Float.arcsinh z) d j).
    rewrite slice_tmap, select_map. fold (valid_entries z mask d j).
    rewrite Hve, map_map.
    apply finite_values_map; [|reflexivity].
    intros r. rewrite div_real by lra. reflexivity. }
  split; [rewrite (raw_mad_at x mask (shape x) dim d j) by auto;
          apply mad1_real|].
  split; [exact Ec|].
  split; [|split].
  - rewrite (masked_median_at z mask (shape x) dim d j) by auto.
    fold (valid_entries z mask d j).
    rewrite median1_real, Hfv. f_equal. apply rmedian_centred, Hc.
  - rewrite (raw_mad_at z mask (shape x) dim d j) by auto.
    fold (valid_entries z mask d j).
    rewrite mad1_real, Hfv. f_equal. apply rmad_centred, Hc.
  - rewrite (masked_median_at zi mask (shape x) dim d j) by auto.
    fold (valid_entries zi mask d j).
    rewrite median1_real, Hfi. f_equal. apply rmedian_arcsinh_centred, Hc.
Qed.

Lemma robust_scaler_centres_median_witness :
  exists mad c,
    data (raw_mad np_x np_mask 1) [0; 0; 0]%nat = Fin mad
    /\ data (scale_of (robust_scaler np_x np_mask 1 (1 / 1000000))) [0; 0; 0]%nat
       = Fin c
    /\ data (masked_median (z_of (robust_scaler np_x np_mask 1 (1 / 1000000)))
                           np_mask 1 true) [0; 0; 0]%nat = Fin 0
    /\ data (raw_mad (z_of (robust_scaler np_x np_mask 1 (1 / 1000000)))
                     np_mask 1) [0; 0; 0]%nat = Fin (mad / c)
    /\ data (masked_median (z_of (invariant_scaler np_x np_mask 1 (1 / 1000000)))
                           np_mask 1 true) [0; 0; 0]%nat = Fin 0.
Proof.
  apply (robust_scaler_centres_median np_x np_mask 1 (1 / 1000000) [0; 0; 0]%nat).
  - reflexivity.
  - unfold dim_ok; cbn; lia.
  - lra.
  - repeat constructor.
Defined.

(* ================================================================= *)
(** ** The bounds of the min-max scalers are attained *)

(** X14: in a slice with a valid entry of an input whose entries are all
    small against the sentinel, the shift of the min-max scalers is the
    least valid entry [mn] and their scale is the guarded distance to the
    greatest valid entry [mx]; both are taken at valid positions, where
    the min-max output is 0 and [(mx - mn) / scale] and the minmax1
    output at the least entry is -1. *)
Theorem minmax_attains_bounds :
  forall (x : tensor float) (mask : tensor bool) (dim : Z) (eps : R)
         (j : list nat),
    shape mask = shape x ->
    dim_ok (shape x) dim ->
    0 <= eps ->
    let d := norm_dim (length (shape x)) dim in
    inb (set_at d 1%nat (shape x)) j ->
    small x ->
    has_valid mask d j ->
    let r := minmax_scaler x mask eps dim in
    let n := nth d (shape x) 0%nat in
    exists mn mx kmin kmax,
      data (shift_of r) j = Fin mn
      /\ data (scale_of r) j = Fin (rguard eps (mx - mn))
      /\ (forall k v, (k < n)%nat -> data mask (set_at d k j) = true ->
            data x (set_at d k j) = Fin v -> mn <= v <= mx)
      /\ ((kmin < n)%nat /\ data mask (set_at d kmin j) = true
          /\ data x (set_at d kmin j) = Fin mn)
      /\ ((kmax < n)%nat /\ data mask (set_at d kmax j) = true
          /\ data x (set_at d kmax j) = Fin mx)
      /\ data (z_of r) (set_at d kmin j) = Fin 0
      /\ data (z_of r) (set_at d kmax j) = Fin ((mx - mn) / rguard eps (mx - mn))
      /\ data (z_of (minmax1_scaler x mask eps dim)) (set_at d kmin j) = Fin (-1).
Proof.
  intros x mask dim eps j Hm Hdim Heps d Hj Hs Hv r n.
  assert (Hlt : (d < length (shape x))%nat) by (apply norm_dim_lt, Hdim).
  pose proof (small_finite x Hs) as Hf.
  destruct (minmax_stats_small x mask dim eps j Hm Hdim Hj Hs Hv) as [Em Ec].
  fold d in Em, Ec.
  set (V := finite_values (valid_entries x mask d j)) in *.
  assert (HV : V <> []).
  { unfold V, d. rewrite (valid_reals x mask dim j Hdim Hj Hf), finite_values_Fin.
    apply (valid_reals_nonempty x mask dim j Hm Hdim Hj Hf Hv). }
  assert (Hpos : forall v, In v V ->
            exists k, (k < n)%nat /\ data mask (set_at d k j) = true
                      /\ data x (set_at d k j) = Fin v).
  { intros v Hin. apply finite_values_In in Hin.
    apply valid_entries_In in Hin; [|rewrite Hm; reflexivity].
    destruct Hin as (k & Hk & Hmk & E). exists k. repeat split; auto. }
  destruct (Hpos _ (rminl_In V HV)) as (kmin & Hk1 & Hm1 & Hx1).
  destruct (Hpos _ (rmaxl_In V HV)) as (kmax & Hk2 & Hm2 & Hx2).
  assert (Hb : forall k v, (k < n)%nat -> data mask (set_at d k j) = true ->
            data x (set_at d k j) = Fin v -> rminl V <= v <= rmaxl V).
  { intros k v Hk Hmk Hx.
    assert (Hin : In v V).
    { apply finite_values_In. apply valid_entries_In; [rewrite Hm; reflexivity|].
      exists k. repeat split; auto. }
    split; [apply rminl_lb | apply rmaxl_ub]; exact Hin. }
  assert (Hc : rguard eps (rmaxl V - rminl V) <> 0).
  { destruct (Hb kmin _ Hk1 Hm1 Hx1) as [_ Hle].
    pose proof (rguard_pos eps (rmaxl V - rminl V)). lra. }
  assert (Hz : forall k v, (k < n)%nat -> data x (set_at d k j) = Fin v ->
            data (z_of r) (set_at d k j)
            = Fin ((v - rminl V) / rguard eps (rmaxl V - rminl V))).
  { intros k v Hk Hx. unfold r.
    rewrite (minmax_scaler_z_at x mask (shape x) dim d j eps) by auto.
    rewrite <- (minmax_scaler_shift_at x mask (shape x) dim d j eps),
            <- (minmax_scaler_scale_at x mask (shape x) dim d j eps) by auto.
    rewrite Em, Ec, Hx. apply div_real, Hc. }
  exists (rminl V), (rmaxl V), kmin, kmax.
  split; [exact Em | split; [exact Ec | split; [exact Hb|]]].
  split; [repeat split; assumption|]. split; [repeat split; assumption|].
  split; [|split].
  - rewrite (Hz kmin _ Hk1 Hx1). f_equal. field. exact Hc.
  - apply (Hz kmax _ Hk2 Hx2).
  - change (data (z_of (minmax1_scaler x mask eps dim)) (set_at d kmin j))
      with (Float.sub (Float.mul (data (z_of r) (set_at d kmin j)) (Fin 2)) (Fin 1)).
    rewrite (Hz kmin _ Hk1 Hx1). cbn. f_equal. field. exact Hc.
Qed.


Lemma minmax_attains_bounds_witness :
  let x := vec [3; 7; 100] in
  let mask := bvec [true; true; false] in
  let r := minmax_scaler x mask (1 / 1000000) (-1) in
  exists mn mx kmin kmax,
    data (shift_of r) [0%nat] = Fin mn
    /\ data (scale_of r) [0%nat] = Fin (rguard (1 / 1000000) (mx - mn))
    /\ (forall k v, (k < 3)%nat -> data mask (set_at 0 k [0%nat]) = true ->
          data x (set_at 0 k [0%nat]) = Fin v -> mn <= v <= mx)
    /\ ((kmin < 3)%nat /\ data mask (set_at 0 kmin [0%nat]) = true
        /\ data x (set_at 0 kmin [0%nat]) = Fin mn)
    /\ ((kmax < 3)%nat /\ data mask (set_at 0 kmax [0%nat]) = true
        /\ data x (set_at 0 kmax [0%nat]) = Fin mx)
    /\ data (z_of r) (set_at 0 kmin [0%nat]) = Fin 0
    /\ data (z_of r) (set_at 0 kmax [0%nat])
       = Fin ((mx - mn) / rguard (1 / 1000000) (mx - mn))
    /\ data (z_of (minmax1_scaler x mask (1 / 1000000) (-1)))
            (set_at 0 kmin [0%nat]) = Fin (-1).
Proof.
  intros x mask r.
  apply (minmax_attains_bounds x mask (-1) (1 / 1000000) [0%nat]).
  - reflexivity.
  - unfold dim_ok; cbn; lia.
  - lra.
  - repeat constructor.
  - apply vec_small. cbn. unfold sentinel.
    intros v [<- | [<- | [<- | []]]]; rewrite Rabs_right; lra.
  - unfold has_valid. cbn. left. reflexivity.
Defined.

(* ================================================================= *)
(** ** Binary32: shifting a mantissa *)

Section Shifting.

Import F32.
















End Shifting.

(* ================================================================= *)
(** ** Binary32: binary digits and rounding to nearest *)

Section Digits.

Import F32.









(** Rounding to nearest, ties to even. *)



End Digits.

(* ================================================================= *)
(** ** Binary32: one rounding *)

Section OneRounding.

Import F32.






End OneRounding.

(* ================================================================= *)
(** ** Binary32: the four operations *)

Section Operations.

Import F32.
























End Operations.

(* ================================================================= *)
(** ** Binary32: the error of a round trip *)

Section RoundtripError.

Import F32.













End RoundtripError.

(* ================================================================= *)
(** ** Binary32: the scalers, entry by entry *)

Section Binary32Scalers.

Import F32.

#[local] Arguments set_at : simpl never.

Variables (x : tensor f32) (mask : tensor bool).
Variables (s : list nat) (dim : Z) (d : nat) (eps : f32).
Hypothesis Hx : shape x = s.
Hypothesis Hm : shape mask = s.
Hypothesis Hd : d = norm_dim (length s) dim.
Hypothesis Hlt : (d < length s)%nat.















End Binary32Scalers.

(* ================================================================= *)
(** ** Binary32: each inverse against its scaler *)

Section Binary32Roundtrip.

Import F32.

#[local] Arguments set_at : simpl never.







Import F32.TemporalNorm.








End Binary32Roundtrip.

(* ================================================================= *)
(** ** The round trip of the facade *)

(** The round trip of the standard scaler on the slice 0, 1, 2, 3 with
    the first two entries valid: every entry comes back as a number, the
    invalid ones included. *)
Example standard_roundtrip_numbers :
  exists self xr,
    F32.TemporalNorm.init F32.unused_library (Some "standard"%string) (-1)
                          (F32.of_ratio 1 1000000) = inr self
    /\ F32.TemporalNorm.inverse_transform
         (snd (F32.TemporalNorm.transform self
                 (F32.vec [F32.zero; F32.one; F32.of_Z 2; F32.of_Z 3])
                 (bvec [true; true; false; false])))
         (fst (F32.TemporalNorm.transform self
                 (F32.vec [F32.zero; F32.one; F32.of_Z 2; F32.of_Z 3])
                 (bvec [true; true; false; false]))) None None = inr xr
    /\ Forall (fun i => F32.is_finite (data xr [i]) = true) [0; 1; 2; 3]%nat.
Proof.
  eexists. eexists.
  split; [reflexivity|]. split; [reflexivity|].
  repeat constructor; vm_compute; reflexivity.
Qed.




(* ================================================================= *)
(** ** The cached statistics are overwritten *)


